(** * mkdocs-mediacompressor: the hash-keyed compression cache

    A shallow embedding of [plugin_mediacompressor/plugin.py]
    ([MediaCompressorPlugin]) and the properties of its cache store,
    hasher and per-file task.

    Conventions.
    - Python values read from or written to the cache record are [json]
      values; a [dict] with string keys is a [gmap string json].
    - The file system is a finite map from path strings to file contents.
    - A Python [float] is a binary64 [float]; its operations are the
      primitive ones, specified by [SpecFloat].
    - Pillow, ffmpeg, [shutil.which] and [hashlib] are external: they are
      Section variables, and every theorem holds for all of them.
    - A task of the thread pool runs as one step of a sequential schedule;
      the list given to [on_post_build] is that schedule. *)

From Stdlib Require Import ZArith String Ascii List Bool Floats Strings.Byte.
From Stdlib Require Import Reals Lra.
From stdpp Require Import gmap strings list fin_maps pretty.
From Equations Require Import Equations.

#[local] Open Scope string_scope.
#[local] Open Scope list_scope.
#[local] Open Scope Z_scope.

Abbreviation bytes := (list byte).

(** ** Python values *)

(** What [json.load] can return: [None], [bool], [int], [float], [str],
    [list] and [dict] with [str] keys. *)
#[warnings="-register-all"]
Inductive json : Type :=
  | JNull
  | JBool (b : bool)
  | JInt (z : Z)
  | JFloat (f : float)
  | JStr (s : string)
  | JArr (items : list json)
  | JObj (fields : gmap string json).

Definition PyNone : json := JNull.
Definition empty_dict : json := JObj ∅.

(** [float.__eq__(int)]: Python compares the two numbers exactly. *)
Definition float_eq_int (f : float) (z : Z) : bool :=
  match Prim2SF f with
  | S754_zero _ => z =? 0
  | S754_finite s m e =>
      let v := if s then Z.neg m else Z.pos m in
      if 0 <=? e then z =? v * 2 ^ e else z * 2 ^ (- e) =? v
  | _ => false
  end.

(** [==] between two numbers; [bool] is a subclass of [int]. *)
Definition num_eq (a b : Z + float) : bool :=
  match a, b with
  | inl x, inl y => x =? y
  | inl x, inr g => float_eq_int g x
  | inr f, inl y => float_eq_int f y
  | inr f, inr g => PrimFloat.eqb f g
  end.

Definition as_num (j : json) : option (Z + float) :=
  match j with
  | JBool b => Some (inl (Z.b2z b))
  | JInt z => Some (inl z)
  | JFloat f => Some (inr f)
  | _ => None
  end.

(** Python's [==] on the values above: numbers by value, lists
    element-wise, dicts by equal length and equal value at every key. *)
Fixpoint py_eq (a b : json) {struct a} : bool :=
  match a with
  | JNull => match b with JNull => true | _ => false end
  | JBool x =>
      match as_num b with Some n => num_eq (inl (Z.b2z x)) n | None => false end
  | JInt x =>
      match as_num b with Some n => num_eq (inl x) n | None => false end
  | JFloat f =>
      match as_num b with Some n => num_eq (inr f) n | None => false end
  | JStr s => match b with JStr t => bool_decide (s = t) | _ => false end
  | JArr xs =>
      match b with
      | JArr ys =>
          (fix go (xs ys : list json) : bool :=
             match xs, ys with
             | [], [] => true
             | x :: xs', y :: ys' => py_eq x y && go xs' ys'
             | _, _ => false
             end) xs ys
      | _ => false
      end
  | JObj m =>
      match b with
      | JObj m' =>
          bool_decide (size m = size m')
          && map_fold
               (λ k v acc,
                  acc && match m' !! k with
                         | Some v' => py_eq v v'
                         | None => false
                         end)
               true m
      | _ => false
      end
  end.

(** [d.get(key)]: [None] when the key is missing. *)
Definition dict_get (d : gmap string json) (key : string) : json :=
  default PyNone (d !! key).

(** ** Settings ([config_scheme]) and the config snapshot *)

Record Config : Type := {
  cache_dir : string;
  image_quality : Z;
  image_max_width : option Z;
  image_max_height : option Z;
  video_crf : Z;
  video_preset : string;
  video_max_width : option Z;
  skip_images : bool;
  skip_videos : bool;
  max_workers : Z;
}.

Definition opt_int (o : option Z) : json :=
  match o with Some z => JInt z | None => PyNone end.

(** The items of the dict [_get_current_config] returns, in source order. *)
Definition config_items (c : Config) : list (string * json) :=
  [ ("image_quality", JInt (image_quality c));
    ("image_max_width", opt_int (image_max_width c));
    ("image_max_height", opt_int (image_max_height c));
    ("video_crf", JInt (video_crf c));
    ("video_preset", JStr (video_preset c));
    ("video_max_width", opt_int (video_max_width c));
    ("skip_images", JBool (skip_images c));
    ("skip_videos", JBool (skip_videos c)) ].

Definition _get_current_config (c : Config) : gmap string json :=
  list_to_map (config_items c).

(** ** CacheStore: [_load_cache] and [_save_cache] *)

(** The persisted record [.cache.json] as [open] and [json.load] see it. *)
Inductive record_file : Type :=
  | Absent
  | Unreadable
  | Parsed (cache_data : json).

(** The cache directory: [mkdir(parents=True, exist_ok=True)] either
    raises or leaves a directory that may hold a record. *)
Inductive cache_dir_state : Type :=
  | DirBlocked
  | DirReady (record : record_file).

Inductive result (A : Type) : Type :=
  | Ok (a : A)
  | Raised.
Arguments Ok {A} a.
Arguments Raised {A}.

(** ** Paths ([pathlib]) *)

(** A path is its parent directory and its final component, so that
    [dir / filename] and [.name] are exact for a one-component filename. *)
Record Path : Type := { parent : string; name : string }.

#[global] Instance Path_eq_dec : EqDecision Path.
Proof. solve_decision. Defined.

#[global] Instance Path_countable : Countable Path :=
  inj_countable' (λ p, (parent p, name p))
    (λ '(d, n), {| parent := d; name := n |})
    (λ p, match p with {| parent := _; name := _ |} => eq_refl end).

Definition path_join (dir filename : string) : Path :=
  {| parent := dir; name := filename |}.

(** [str(path)] *)
Definition path_str (p : Path) : string := parent p +:+ "/" +:+ name p.

(** [name.rfind('.')] *)
Fixpoint rfind_dot (s : string) : option nat :=
  match s with
  | EmptyString => None
  | String c rest =>
      match rfind_dot rest with
      | Some i => Some (S i)
      | None => if Ascii.eqb c "."%char then Some 0%nat else None
      end
  end.

(** [PurePath.suffix]: the last dot of the name and what follows it,
    unless that dot starts or ends the name. *)
Definition suffix (p : Path) : string :=
  match rfind_dot (name p) with
  | Some i =>
      if ((0 <? i) && (i <? String.length (name p) - 1))%nat
      then substring i (String.length (name p) - i) (name p)
      else ""
  | None => ""
  end.

(** [str.lower] on ASCII letters. *)
Definition lower_char (c : ascii) : ascii :=
  let n := nat_of_ascii c in
  if ((65 <=? n) && (n <=? 90))%nat then ascii_of_nat (n + 32) else c.

Fixpoint lower (s : string) : string :=
  match s with
  | EmptyString => EmptyString
  | String c rest => String (lower_char c) (lower rest)
  end.

Definition IMAGE_EXTENSIONS : list string :=
  [".png"; ".jpg"; ".jpeg"; ".gif"; ".webp"; ".bmp"].
Definition VIDEO_EXTENSIONS : list string :=
  [".mp4"; ".webm"; ".ogg"; ".mov"; ".avi"; ".mkv"].

(** [ext in EXTENSIONS] *)
Definition ext_in (ext : string) (exts : list string) : bool :=
  bool_decide (ext ∈ exts).

(** ** Events, messages and the world *)

Inductive log_msg : Type :=
  | LogStart
  | LogNoMedia
  | LogConfigChanged
  | LogConfigDiffs
  | LogConfigDiff (key : string) (old_val new_val : json)
  | LogOldFormat
  | LogLoadError
  | LogSaveError
  | LogOrphans (n : nat)
  | LogTaskError (media_file : Path)
  | LogReplacing (media_file compressed_file : Path)
  | LogSiteFileNow (new_size : nat)
  | LogFailed (media_name : string)
  | LogStats (media_name : string) (original_size compressed_size : nat)
  | LogImageError (image_path : Path)
  | LogNoFfmpeg
  | LogFfmpegError
  | LogVideoError (video_path : Path)
  | LogComplete (processed skipped errors : nat).

(** What a task does to the outside, in program order. *)
Inductive event : Type :=
  | EvOpenRead (p : Path)
  | EvAcquire
  | EvRelease
  | EvLookup (file_hash : string)
  | EvInsert (file_hash : string) (entry : json)
  | EvDelete (file_hash : string)
  | EvExists (p : Path)
  | EvStat (p : Path)
  | EvCopy (src dst : Path)
  | EvImageOpen (image_path : Path)
  | EvWhich
  | EvSubprocess (cmd : list string)
  | EvDump
  | EvPrint (msg : log_msg).

(** [self.cache], the file system, and the persisted record. *)
Record World : Type := {
  cache : gmap string json;
  fs : gmap Path bytes;
  record : record_file;
}.

Definition set_cache (c : gmap string json) (w : World) : World :=
  {| cache := c; fs := fs w; record := record w |}.
Definition set_fs (f : gmap Path bytes) (w : World) : World :=
  {| cache := cache w; fs := f; record := record w |}.
Definition set_record (r : record_file) (w : World) : World :=
  {| cache := cache w; fs := fs w; record := r |}.

(** The plugin object: [self.config] and [self.cache_dir]. *)
Record Plugin : Type := { config : Config; self_cache_dir : string }.

(** ** External collaborators *)

(** A [hashlib.sha256] object. *)
Class Sha256 : Type := {
  sha256_state : Type;
  sha256_new : sha256_state;
  sha256_update : sha256_state → bytes → sha256_state;
  sha256_hexdigest : sha256_state → string;
}.

(** [hashlib]'s documented contract: repeated [update] calls are
    equivalent to one call with the concatenation of the arguments. *)
Class Sha256Laws (H : Sha256) : Prop := {
  sha256_update_empty : ∀ s, sha256_update s [] = s;
  sha256_update_concat :
    ∀ s a b, sha256_update (sha256_update s a) b = sha256_update s (a ++ b);
}.

(** Pillow, from [Image.open] to [img.save(cached_path)]: it raises
    somewhere (leaving [cached_path] as it was, or with [partial] in it)
    or saves [out] at [cached_path]. *)
Inductive pil_outcome : Type :=
  | PilRaises (partial : option bytes)
  | PilSaved (out : bytes).

(** [subprocess.run(cmd)]: it raises, or ffmpeg exits with [returncode]
    after leaving its output path as it was or with [output] in it. *)
Inductive run_outcome : Type :=
  | RunRaises
  | RunCompleted (returncode : Z) (output : option bytes).

Class Externals : Type := {
  hasher :: Sha256;
  pil_compress : Config → gmap Path bytes → Path → Path → pil_outcome;
  which_ffmpeg : bool;
  ffmpeg_run : list string → gmap Path bytes → run_outcome;
  dump_fails : gmap string json → option record_file;
}.

(** ** The task monad: state, exceptions and the event trace *)

Definition M (A : Type) : Type := World → result A * World * list event.

Definition ret {A : Type} (a : A) : M A := λ w, (Ok a, w, []).

Definition bind {A B : Type} (m : M A) (k : A → M B) : M B := λ w,
  match m w with
  | (Ok a, w1, t1) => let '(r, w2, t2) := k a w1 in (r, w2, t1 ++ t2)
  | (Raised, w1, t1) => (Raised, w1, t1)
  end.

Declare Scope task_scope.
Delimit Scope task_scope with task.
Notation "x ← y ; z" := (bind y (λ x, z))
  (at level 20, y at level 100, z at level 200, only parsing) : task_scope.
Notation "x ;; z" := (bind x (λ _, z))
  (at level 100, z at level 200, only parsing, right associativity)
  : task_scope.
#[local] Open Scope task_scope.

Definition raise {A : Type} : M A := λ w, (Raised, w, []).
Definition emit (e : event) : M () := λ w, (Ok (), w, [e]).
Definition print (msg : log_msg) : M () := emit (EvPrint msg).
Definition get_world : M World := λ w, (Ok w, w, []).
Definition put_world (w' : World) : M () := λ _, (Ok (), w', []).

(** [try: body  except Exception: handler] *)
Definition try_except {A : Type} (body handler : M A) : M A := λ w,
  match body w with
  | (Ok a, w1, t1) => (Ok a, w1, t1)
  | (Raised, w1, t1) => let '(r, w2, t2) := handler w1 in (r, w2, t1 ++ t2)
  end.

(** [future.result()] under [try]: the task's exception becomes a value. *)
Definition future_result {A : Type} (task : M A) : M (result A) := λ w,
  let '(r, w1, t1) := task w in (Ok r, w1, t1).

(** [with self.cache_lock: body]; the lock is released however the
    block is left. *)
Definition with_lock {A : Type} (body : M A) : M A := λ w,
  let '(r, w1, t1) := body w in (r, w1, EvAcquire :: t1 ++ [EvRelease]).

(** *** File-system and cache primitives *)

Definition path_exists (p : Path) : M bool :=
  emit (EvExists p);; w ← get_world; ret (bool_decide (is_Some (fs w !! p))).

(** [p.stat().st_size] *)
Definition stat_size (p : Path) : M nat :=
  emit (EvStat p);; w ← get_world;
  match fs w !! p with
  | Some content => ret (length content)
  | None => raise
  end.

(** What the backend left at its output path. *)
Definition write_output (p : Path) (output : option bytes) : M () :=
  match output with
  | Some content => w ← get_world; put_world (set_fs (<[p := content]> (fs w)) w)
  | None => ret ()
  end.

(** [shutil.copy2(src, dst)]: [SameFileError] when both are one file,
    [FileNotFoundError] when [src] is missing. *)
Definition copy2 (src dst : Path) : M () :=
  emit (EvCopy src dst);; w ← get_world;
  if bool_decide (src = dst) then raise
  else match fs w !! src with
       | Some content => put_world (set_fs (<[dst := content]> (fs w)) w)
       | None => raise
       end.

(** [self.cache[file_hash]] guarded by [file_hash in self.cache] *)
Definition cache_lookup (file_hash : string) : M (option json) :=
  emit (EvLookup file_hash);; w ← get_world; ret (cache w !! file_hash).

(** [self.cache[file_hash] = entry] *)
Definition cache_insert (file_hash : string) (entry : json) : M () :=
  emit (EvInsert file_hash entry);; w ← get_world;
  put_world (set_cache (<[file_hash := entry]> (cache w)) w).

(** [del self.cache[file_hash]] *)
Definition cache_delete (file_hash : string) : M () :=
  emit (EvDelete file_hash);; w ← get_world;
  match cache w !! file_hash with
  | Some _ => put_world (set_cache (delete file_hash (cache w)) w)
  | None => raise
  end.

(** [self.cache_dir / cache_entry['cached_filename']]: [KeyError] or
    [TypeError] unless the entry is a dict holding a string there. *)
Definition entry_filename (cache_entry : json) : option string :=
  match cache_entry with
  | JObj d => match d !! "cached_filename" with
              | Some (JStr s) => Some s
              | _ => None
              end
  | _ => None
  end.

Definition cached_file_of (self : Plugin) (cache_entry : json) : M Path :=
  match entry_filename cache_entry with
  | Some filename => ret (path_join (self_cache_dir self) filename)
  | None => raise
  end.

(** The entry [_process_media_file] stores. *)
Definition new_entry (compressed_name file_hash : string) : json :=
  JObj (<["cached_filename" := JStr compressed_name]>
          (<["original_hash" := JStr file_hash]> ∅)).

(** ** CacheStore: [_load_cache] and [_save_cache] *)

(** The loop that prints the differing keys. [get] raises at the first
    key when the stored config is not a dict. *)
Definition config_differences (stored : json) (current : gmap string json)
    (keys : list string) : result (list log_msg) :=
  match stored with
  | JObj old =>
      Ok (flat_map
            (λ key,
               let old_val := dict_get old key in
               let new_val := dict_get current key in
               if negb (py_eq old_val new_val)
               then [LogConfigDiff key old_val new_val] else [])
            keys)
  | _ => match keys with [] => Ok [] | _ :: _ => Raised end
  end.

(** The [if self.cache_file.exists()] statement of [_load_cache]: what it
    prints, and the value it assigns to [self.cache] unless it raises
    under [try]. *)
Definition load_record (c : Config) (f : record_file)
    : list log_msg * result json :=
  match f with
  | Absent => ([], Ok empty_dict)
  | Unreadable => ([], Raised)
  | Parsed cache_data =>
      match cache_data with
      | JObj d =>
          match d !! "config" with
          | Some stored =>
              let current_config := _get_current_config c in
              if negb (py_eq stored (JObj current_config)) then
                match config_differences stored current_config
                        (config_items c).*1 with
                | Ok diffs =>
                    (LogConfigChanged :: LogConfigDiffs :: diffs, Ok empty_dict)
                | Raised => ([LogConfigChanged; LogConfigDiffs], Raised)
                end
              else ([], Ok (default empty_dict (d !! "files")))
          | None => ([LogOldFormat], Ok empty_dict)
          end
      | _ => ([LogOldFormat], Ok empty_dict)
      end
  end.

(** [_load_cache]: the value of [self.cache] afterwards and what was
    printed. It raises only when the directory cannot be made. *)
Definition _load_cache (c : Config) (dir : cache_dir_state)
    : result (json * list log_msg) :=
  match dir with
  | DirBlocked => Raised
  | DirReady f =>
      match load_record c f with
      | (logs, Ok loaded) => Ok (loaded, logs)
      | (logs, Raised) => Ok (empty_dict, logs ++ [LogLoadError])
      end
  end.

(** [cache_data] of [_save_cache], the value handed to [json.dump]. *)
Definition saved_record (c : Config) (entries : gmap string json) : json :=
  JObj (<["config" := JObj (_get_current_config c)]>
          (<["files" := JObj entries]> ∅)).

(** ** Hasher: [_compute_file_hash] *)

#[warnings="-abstract-large-number"]
Definition CHUNK_SIZE : nat := 8192.

Definition inspect {A : Type} (a : A) : {b : A | a = b} := exist _ a eq_refl.

(** [for chunk in iter(lambda: f.read(size), b''): sha256.update(chunk)],
    where [f] is what is left of the stream: [f.read(size)] returns its
    first [size] bytes and moves past them. *)
Equations? update_chunks `{Sha256} (size : nat) (sha256 : sha256_state)
    (f : bytes) : sha256_state by wf (length f) lt :=
  update_chunks size sha256 f with inspect (take size f) := {
    | exist _ [] _ => sha256
    | exist _ (b :: chunk) _ =>
        update_chunks size (sha256_update sha256 (b :: chunk)) (drop size f) }.
Proof.
  rewrite length_drop. destruct f as [|x f], size; try discriminate.
  simpl. lia.
Qed.

(** The digest [_compute_file_hash] returns for a file holding [content]. *)
Definition file_digest `{Sha256} (content : bytes) : string :=
  sha256_hexdigest (update_chunks CHUNK_SIZE sha256_new content).

(** The one-shot digest [hashlib.sha256(content).hexdigest()]. *)
Definition sha256_oneshot `{Sha256} (content : bytes) : string :=
  sha256_hexdigest (sha256_update sha256_new content).

(** ** Backends, the per-file task and the orchestrator *)

Record Tally : Type := { processed : nat; skipped : nat; errors : nat }.

Definition count_result (r : result bool) (t : Tally) : Tally :=
  match r with
  | Ok true =>
      {| processed := S (processed t); skipped := skipped t; errors := errors t |}
  | Ok false =>
      {| processed := processed t; skipped := S (skipped t); errors := errors t |}
  | Raised =>
      {| processed := processed t; skipped := skipped t; errors := S (errors t) |}
  end.

(** [if self.config['video_max_width']:] *)
Definition truthy (o : option Z) : bool :=
  match o with Some z => negb (z =? 0) | None => false end.

Section Plugin.
Context `{E : Externals}.

Definition _compute_file_hash (file_path : Path) : M string :=
  emit (EvOpenRead file_path);; w ← get_world;
  match fs w !! file_path with
  | Some content => ret (file_digest content)
  | None => raise
  end.

Definition _save_cache (self : Plugin) : M () :=
  w ← get_world;
  let cache_data := saved_record (config self) (cache w) in
  emit EvDump;;
  match dump_fails (cache w) with
  | None => put_world (set_record (Parsed cache_data) w)
  | Some broken => put_world (set_record broken w);; print LogSaveError
  end.

(** The first loop of [_clean_orphaned_cache]. *)
Fixpoint find_orphaned (self : Plugin) (entries : list (string * json))
    : M (list string) :=
  match entries with
  | [] => ret []
  | (file_hash, cache_entry) :: rest =>
      cached_file ← cached_file_of self cache_entry;
      found ← path_exists cached_file;
      orphaned ← find_orphaned self rest;
      ret (if found then orphaned else file_hash :: orphaned)
  end.

(** [for file_hash in orphaned: del self.cache[file_hash]] *)
Fixpoint delete_all (orphaned : list string) : M () :=
  match orphaned with
  | [] => ret ()
  | file_hash :: rest => cache_delete file_hash;; delete_all rest
  end.

Definition _clean_orphaned_cache (self : Plugin) : M json :=
  w ← get_world;
  orphaned ← find_orphaned self (map_to_list (cache w));
  delete_all orphaned;;
  match orphaned with
  | [] => ret ()
  | _ :: _ => print (LogOrphans (length orphaned))
  end;;
  ret PyNone.

(** Pillow at work between [Image.open] and [img.save]. *)
Definition pil_save (self : Plugin) (image_path cached_path : Path) : M () :=
  emit (EvImageOpen image_path);; w ← get_world;
  match pil_compress (config self) (fs w) image_path cached_path with
  | PilRaises partial => write_output cached_path partial;; raise
  | PilSaved out => write_output cached_path (Some out)
  end.

(** The statistics line; [compressed_size / original_size] raises
    [ZeroDivisionError] for an empty original. *)
Definition print_stats (media_path cached_path : Path) : M () :=
  original_size ← stat_size media_path;
  compressed_size ← stat_size cached_path;
  if bool_decide (original_size = 0%nat) then raise
  else print (LogStats (name media_path) original_size compressed_size).

Definition _compress_image (self : Plugin) (image_path : Path)
    (file_hash : string) : M (option Path) :=
  try_except
    (let cached_filename := file_hash +:+ suffix image_path in
     let cached_path := path_join (self_cache_dir self) cached_filename in
     pil_save self image_path cached_path;;
     print_stats image_path cached_path;;
     ret (Some cached_path))
    (print (LogImageError image_path);; ret None).

Definition ffmpeg_cmd (self : Plugin) (video_path cached_path : Path)
    : list string :=
  ["ffmpeg"; "-i"; path_str video_path; "-y"]
  ++ ["-c:v"; "libx264"]
  ++ ["-crf"; pretty (video_crf (config self))]
  ++ ["-preset"; video_preset (config self)]
  ++ (if truthy (video_max_width (config self))
      then ["-vf";
            "scale='min("
            +:+ match video_max_width (config self) with
                | Some width => pretty width
                | None => "None"
                end
            +:+ ",iw)':-2"]
      else [])
  ++ ["-c:a"; "aac"; "-b:a"; "128k"]
  ++ [path_str cached_path].

Definition _compress_video (self : Plugin) (video_path : Path)
    (file_hash : string) : M (option Path) :=
  emit EvWhich;;
  if negb which_ffmpeg then print LogNoFfmpeg;; ret None
  else
    try_except
      (let cached_filename := file_hash +:+ suffix video_path in
       let cached_path := path_join (self_cache_dir self) cached_filename in
       let cmd := ffmpeg_cmd self video_path cached_path in
       emit (EvSubprocess cmd);; w ← get_world;
       match ffmpeg_run cmd (fs w) with
       | RunRaises => raise
       | RunCompleted returncode output =>
           write_output cached_path output;;
           made ← (if returncode =? 0 then path_exists cached_path
                   else ret false);
           if made then print_stats video_path cached_path;;
                        ret (Some cached_path)
           else print LogFfmpegError;; ret None
       end)
      (print (LogVideoError video_path);; ret None).

(** The statements of [_process_media_file] under its first
    [with self.cache_lock:]; [Some b] when they execute [return b]. *)
Definition use_cached (self : Plugin) (media_file : Path)
    (file_hash : string) : M (option bool) :=
  with_lock
    (found ← cache_lookup file_hash;
     match found with
     | Some cache_entry =>
         cached_file ← cached_file_of self cache_entry;
         present ← path_exists cached_file;
         if present then copy2 cached_file media_file;; ret (Some false)
         else ret None
     | None => ret None
     end).

(** [_process_media_file] from [if compressed_file and
    compressed_file.exists():] to its end. *)
Definition use_compressed (media_file : Path) (file_hash : string)
    (compressed_file : option Path) : M bool :=
  made ← match compressed_file with
         | Some p => path_exists p
         | None => ret false
         end;
  match compressed_file, made with
  | Some p, true =>
      with_lock (cache_insert file_hash (new_entry (name p) file_hash));;
      print (LogReplacing media_file p);;
      copy2 p media_file;;
      new_size ← stat_size media_file;
      print (LogSiteFileNow new_size);;
      ret true
  | _, _ => print (LogFailed (name media_file));; ret false
  end.

Definition _process_media_file (self : Plugin) (media_file : Path)
    : M bool :=
  let ext := lower (suffix media_file) in
  if ext_in ext IMAGE_EXTENSIONS && skip_images (config self) then ret false
  else if ext_in ext VIDEO_EXTENSIONS && skip_videos (config self)
  then ret false
  else
    file_hash ← _compute_file_hash media_file;
    returned ← use_cached self media_file file_hash;
    match returned with
    | Some b => ret b
    | None =>
        if ext_in ext IMAGE_EXTENSIONS then
          compressed_file ← _compress_image self media_file file_hash;
          use_compressed media_file file_hash compressed_file
        else if ext_in ext VIDEO_EXTENSIONS then
          compressed_file ← _compress_video self media_file file_hash;
          use_compressed media_file file_hash compressed_file
        else ret false
    end.

(** The [for future in as_completed(...)] loop of [on_post_build]; the
    list is the order in which the tasks run. *)
Fixpoint collect_results (self : Plugin) (media_files : list Path)
    (counts : Tally) : M Tally :=
  match media_files with
  | [] => ret counts
  | media_file :: rest =>
      r ← future_result (_process_media_file self media_file);
      match r with
      | Ok _ => ret ()
      | Raised => print (LogTaskError media_file)
      end;;
      collect_results self rest (count_result r counts)
  end.

(** [ThreadPoolExecutor(max_workers=max_workers)]: [ValueError] unless the
    number of workers is positive. *)
Definition thread_pool (max_workers : Z) : M () :=
  if max_workers <=? 0 then raise else ret ().

Definition on_post_build (self : Plugin) (media_files : list Path)
    : M json :=
  print LogStart;;
  match media_files with
  | [] => print LogNoMedia;; ret PyNone
  | _ :: _ =>
      _clean_orphaned_cache self;;
      thread_pool (max_workers (config self));;
      counts ← collect_results self media_files
                 {| processed := 0; skipped := 0; errors := 0 |};
      _save_cache self;;
      print (LogComplete (processed counts) (skipped counts) (errors counts));;
      ret PyNone
  end.

End Plugin.

(** [isinstance(cache_data, dict) and "config" in cache_data] *)
Definition has_config (cache_data : json) : bool :=
  match cache_data with
  | JObj d => bool_decide (is_Some (d !! "config"))
  | _ => false
  end.

(** ** Image resizing: the size [_compress_image] asks Pillow for *)

(** [float(z)]: the nearest double, ties to even. *)
Definition py_float (z : Z) : float :=
  SF2Prim (binary_normalize prec emax z 0 false).

(** [a / b] on two ints raises [ZeroDivisionError] for [b = 0]; ints
    that convert exactly (below [2^53] in magnitude) are converted and
    divided as doubles, which is the case this models. *)
Definition py_truediv (a b : Z) : option float :=
  if b =? 0 then None else Some (py_float a / py_float b)%float.

(** [min(a, b)] is [a] unless [b < a]. *)
Definition py_min (a b : float) : float := if (b <? a)%float then b else a.

(** [int(f)] truncates toward zero and raises for an infinity or a NaN. *)
Definition py_int (f : float) : option Z :=
  match Prim2SF f with
  | S754_zero _ => Some 0
  | S754_finite s m e =>
      let v := if 0 <=? e then Z.pos m * 2 ^ e else Z.pos m / 2 ^ (- e) in
      Some (if s then - v else v)
  | _ => None
  end.

(** What the resizing block does with an image: nothing, a call of
    [img.resize(new_size, ...)], or an exception of its arithmetic. *)
Inductive resize_plan : Type :=
  | KeepSize
  | NewSize (width height : Z)
  | SizeRaises.

(** [if bound is not None and size > bound: scale = min(scale, bound / size)] *)
Definition scale_for (bound : option Z) (size : Z) (scale : float)
    : option float :=
  match bound with
  | Some b =>
      if size >? b then
        match py_truediv b size with
        | Some ratio => Some (py_min scale ratio)
        | None => None
        end
      else Some scale
  | None => Some scale
  end.

(** The resizing block of [_compress_image] for an image whose
    [img.size] is [(width, height)]. *)
Definition new_size (self : Plugin) (width height : Z) : resize_plan :=
  let max_width := image_max_width (config self) in
  let max_height := image_max_height (config self) in
  match max_width, max_height with
  | None, None => KeepSize
  | _, _ =>
      match scale_for max_width width 1%float with
      | None => SizeRaises
      | Some scale =>
          match scale_for max_height height scale with
          | None => SizeRaises
          | Some scale =>
              if (scale <? 1)%float then
                match py_int (py_float width * scale),
                      py_int (py_float height * scale) with
                | Some w, Some h => NewSize w h
                | _, _ => SizeRaises
                end
              else KeepSize
          end
      end
  end.

(** ** Concrete collaborators for the examples *)

(** A streaming checksum in the style of Adler-32, as a small object
    with the interface of [hashlib.sha256]. *)
Definition adler_step (s : Z * Z) (x : byte) : Z * Z :=
  let a := (s.1 + Z.of_N (Byte.to_N x)) mod 65521 in
  (a, (s.2 + a) mod 65521).

Definition checksum_hasher : Sha256 := {|
  sha256_state := Z * Z;
  sha256_new := (1, 0);
  sha256_update := λ s chunk, fold_left adler_step chunk s;
  sha256_hexdigest := λ s, pretty (s.2 * 65536 + s.1);
|}.

(** A codec that cannot decode a file starting with a zero byte and
    otherwise keeps every other byte; an ffmpeg that is installed, exits
    with status 1 on an input starting with a zero byte and otherwise
    writes the first half of its input. *)
Definition starts_with_zero (content : option bytes) : bool :=
  match content with
  | Some (x00%byte :: _) => true
  | Some _ => false
  | None => true
  end.

Fixpoint every_other (content : bytes) : bytes :=
  match content with
  | x :: _ :: rest => x :: every_other rest
  | rest => rest
  end.

Definition demo_externals : Externals := {|
  hasher := checksum_hasher;
  pil_compress := λ _ files image_path _,
    if starts_with_zero (files !! image_path) then PilRaises None
    else PilSaved (every_other (default [] (files !! image_path)));
  which_ffmpeg := true;
  ffmpeg_run := λ cmd files,
    let input :=
      snd <$> List.find (λ kv, bool_decide (path_str kv.1 = nth 2 cmd ""))
                (map_to_list files) in
    if starts_with_zero input then RunCompleted 1 None
    else RunCompleted 0
           (Some (take (length (default [] input) / 2) (default [] input)));
  dump_fails := λ _, None;
|}.

Definition demo_config : Config := {|
  cache_dir := ".mediacompressor_cache";
  image_quality := 85;
  image_max_width := None;
  image_max_height := None;
  video_crf := 23;
  video_preset := "medium";
  video_max_width := None;
  skip_images := false;
  skip_videos := false;
  max_workers := 4;
|}.

Definition demo_plugin : Plugin :=
  {| config := demo_config; self_cache_dir := ".mediacompressor_cache" |}.

(** ** Observations used by the statements *)

Definition outcome {A : Type} (m : M A) (w : World) : result A := (m w).1.1.
Definition after {A : Type} (m : M A) (w : World) : World := (m w).1.2.
Definition trace {A : Type} (m : M A) (w : World) : list event := (m w).2.

(** [m] relates every start world to its trace and end world by [Φ]. *)
Definition steps {A : Type} (Φ : World → list event → World → Prop)
    (m : M A) : Prop :=
  ∀ w, Φ w (trace m w) (after m w).

(** Relations that hold of doing nothing and of one run after another. *)
Class Stepwise (Φ : World → list event → World → Prop) : Prop := {
  stepwise_refl : ∀ w, Φ w [] w;
  stepwise_trans :
    ∀ w1 t1 w2 t2 w3, Φ w1 t1 w2 → Φ w2 t2 w3 → Φ w1 (t1 ++ t2) w3;
}.

(** [entry[key]] *)
Definition subscript (entry : json) (key : string) : option json :=
  match entry with
  | JObj d => d !! key
  | _ => None
  end.

(** The artifact an entry names is a file of the cache directory. *)
Definition artifact_exists (self : Plugin) (files : gmap Path bytes)
    (entry : json) : bool :=
  match entry_filename entry with
  | Some filename =>
      bool_decide (is_Some (files !! path_join (self_cache_dir self) filename))
  | None => false
  end.

(** [m] returns normally only values that satisfy [P]. *)
Definition returns {A : Type} (P : A → Prop) (m : M A) : Prop :=
  ∀ w a, outcome m w = Ok a → P a.

(** The events a task of [self] can emit, file copies and changes of the
    cache mapping apart: Pillow only when images are processed,
    [shutil.which] and ffmpeg only when videos are. *)
Definition may_emit (self : Plugin) (e : event) : Prop :=
  match e with
  | EvCopy _ _ | EvInsert _ _ | EvDelete _ => False
  | EvImageOpen _ => skip_images (config self) = false
  | EvWhich | EvSubprocess _ => skip_videos (config self) = false
  | _ => True
  end.

(** What a backend returns, if a path, is the artifact path of the file. *)
Definition names_artifact (self : Plugin) (media_file : Path) (file_hash : string)
    (compressed_file : option Path) : Prop :=
  ∀ p, compressed_file = Some p →
       p = path_join (self_cache_dir self) (file_hash +:+ suffix media_file).

Definition transcoder_event (e : event) : Prop :=
  match e with EvWhich | EvSubprocess _ => True | _ => False end.

Definition image_backend_event (e : event) : Prop :=
  match e with EvImageOpen _ => True | _ => False end.

Definition permitted (self : Plugin) (e : event) : Prop :=
  (transcoder_event e → skip_videos (config self) = false)
  ∧ (image_backend_event e → skip_images (config self) = false).

Definition only_permitted (self : Plugin) : World → list event → World → Prop :=
  λ _ t _, Forall (permitted self) t.


Definition keyed_with (sfx file_hash : string) (entry : json) : Prop :=
  subscript entry "original_hash" = Some (JStr file_hash)
  ∧ subscript entry "cached_filename" = Some (JStr (file_hash +:+ sfx)).

Definition inserted_key (e : event) : option string :=
  match e with EvInsert file_hash _ => Some file_hash | _ => None end.

Definition inserted (t : list event) : gset string :=
  list_to_set (omap inserted_key t).

Definition keyed_on (S : string → Prop) (K : gset string)
    (c : gmap string json) : Prop :=
  ∀ h e, h ∈ K → c !! h = Some e → ∃ sfx, S sfx ∧ keyed_with sfx h e.

Definition insert_keyed (S : string → Prop) (e : event) : Prop :=
  match e with
  | EvInsert h entry => ∃ sfx, S sfx ∧ keyed_with sfx h entry
  | _ => True
  end.

Definition keeps_keyed (S : string → Prop)
    : World → list event → World → Prop :=
  λ w t w',
    Forall (insert_keyed S) t
    ∧ ∀ K, keyed_on S K (cache w) → keyed_on S (K ∪ inserted t) (cache w').

Definition only_shrinks : World → list event → World → Prop :=
  λ w t w', cache w' ⊆ cache w ∧ inserted t = ∅.

Definition suffix_among (media_files : list Path) (sfx : string) : Prop :=
  ∃ f, f ∈ media_files ∧ sfx = suffix f.


(** The keys [_clean_orphaned_cache] collects in [orphaned]. *)
Definition orphans (self : Plugin) (files : gmap Path bytes)
    (entries : list (string * json)) : list string :=
  (filter (λ kv, artifact_exists self files kv.2 = false) entries).*1.

Definition exists_event (e : event) : Prop :=
  match e with EvExists _ => True | _ => False end.


(** Events other than a file copy and a change of the cache mapping. *)
Definition quiet (e : event) : Prop :=
  match e with
  | EvCopy _ _ | EvInsert _ _ | EvDelete _ => False
  | _ => True
  end.

(** The cache mapping and the record are kept, files other than
    [artifact] are kept, and nothing is copied. *)
Definition backend_frame (artifact : Path)
    : World → list event → World → Prop :=
  λ w t w',
    cache w' = cache w ∧ record w' = record w
    ∧ (∀ p, p ≠ artifact → fs w' !! p = fs w !! p)
    ∧ Forall quiet t.

(** In world [w] the task of [media_file] computes the digest
    [file_hash], finds no usable cached artifact, calls the backend of the
    file's kind, and the backend returns [None]. *)
Inductive backend_fails `{E : Externals} (self : Plugin) (media_file : Path)
    (w : World) (file_hash : string) : Prop :=
  | image_backend_fails :
      ext_in (lower (suffix media_file)) IMAGE_EXTENSIONS = true →
      skip_images (config self) = false →
      outcome (_compute_file_hash media_file) w = Ok file_hash →
      outcome (use_cached self media_file file_hash) w = Ok None →
      outcome (_compress_image self media_file file_hash) w = Ok None →
      backend_fails self media_file w file_hash
  | video_backend_fails :
      ext_in (lower (suffix media_file)) VIDEO_EXTENSIONS = true →
      skip_videos (config self) = false →
      outcome (_compute_file_hash media_file) w = Ok file_hash →
      outcome (use_cached self media_file file_hash) w = Ok None →
      outcome (_compress_video self media_file file_hash) w = Ok None →
      backend_fails self media_file w file_hash.

(** The results of the tasks of [media_files], run in this order from [w]. *)
Fixpoint outcomes `{E : Externals} (self : Plugin) (media_files : list Path)
    (w : World) : list (result bool) :=
  match media_files with
  | [] => []
  | media_file :: rest =>
      outcome (_process_media_file self media_file) w
      :: outcomes self rest (after (_process_media_file self media_file) w)
  end.

(** The world after the tasks of [media_files]. *)
Fixpoint after_all `{E : Externals} (self : Plugin) (media_files : list Path)
    (w : World) : World :=
  match media_files with
  | [] => w
  | media_file :: rest =>
      after_all self rest (after (_process_media_file self media_file) w)
  end.

(** [processed], [skipped] and [errors] after counting [results]. *)
Definition tally (counts : Tally) (results : list (result bool)) : Tally :=
  foldl (λ c r, count_result r c) counts results.


(** The events emitted while [self.cache_lock] is held. *)
Fixpoint held_events (held : bool) (t : list event) : list event :=
  match t with
  | [] => []
  | EvAcquire :: t' => held_events true t'
  | EvRelease :: t' => held_events false t'
  | e :: t' => if held then e :: held_events held t' else held_events held t'
  end.

Definition under_lock (t : list event) : list event := held_events false t.

(** Example files and worlds. *)
Definition bad_png : Path := {| parent := "site"; name := "bad.png" |}.
Definition pic_png : Path := {| parent := "site/img"; name := "pic.PNG" |}.
Definition clip_mp4 : Path := {| parent := "site"; name := "clip.mp4" |}.

Definition bad_content : bytes := [x00; x01; x02]%byte.
Definition pic_content : bytes := [x89; x50; x4e; x47; x0d; x0a]%byte.
Definition clip_content : bytes := [x00; x00; x00; x18]%byte.

Definition pic_digest : string := @file_digest checksum_hasher pic_content.
Definition pic_artifact : Path :=
  path_join ".mediacompressor_cache" (pic_digest +:+ ".PNG").

(** A fresh site: an empty cache and three media files. *)
Definition fresh_world : World := {|
  cache := ∅;
  fs := {[ bad_png := bad_content; pic_png := pic_content;
           clip_mp4 := clip_content ]};
  record := Absent;
|}.

(** The site after an earlier run compressed [pic_png]. *)
Definition warm_world : World := {|
  cache := {[ pic_digest := new_entry (pic_digest +:+ ".PNG") pic_digest ]};
  fs := {[ pic_png := pic_content; pic_artifact := every_other pic_content ]};
  record := Absent;
|}.

(** A cache with one entry whose artifact is gone. *)
Definition orphan_world : World := {|
  cache := {[ pic_digest := new_entry (pic_digest +:+ ".PNG") pic_digest ]};
  fs := {[ pic_png := pic_content ]};
  record := Absent;
|}.



(** [demo_plugin] with [skip_videos] switched on. *)
Definition skip_videos_plugin : Plugin := {|
  config := {| cache_dir := cache_dir demo_config;
               image_quality := 85; image_max_width := None;
               image_max_height := None; video_crf := 23;
               video_preset := "medium"; video_max_width := None;
               skip_images := false; skip_videos := true; max_workers := 4 |};
  self_cache_dir := ".mediacompressor_cache";
|}.

(** [size] does not exceed a configured [bound]. *)
Definition within (bound : option Z) (size : Z) : Prop :=
  match bound with Some b => size <= b | None => True end.

(** A configured bound is a positive number of pixels below [2^50]. *)
Definition pixel_bound (bound : option Z) : Prop :=
  match bound with Some b => 0 < b < 2 ^ 50 | None => True end.

(** The real number a positive double [m * 2^e] stands for. *)
Definition val (m : positive) (e : Z) : R := (IZR (Z.pos m) * powerRZ 2 e)%R.

Definition fval (f : float) : R :=
  match Prim2SF f with
  | S754_finite s m e => if s then (- val m e)%R else val m e
  | _ => 0%R
  end.

(** The relative error of one rounding is at most [ulp]. *)
Definition ulp : R := powerRZ 2 (-52).

(** The ratio a bound asks for: [bound / size] when it is exceeded. *)
Definition ratio (bound : option Z) (size : Z) : R :=
  match bound with
  | Some b => if size >? b then (IZR b / IZR size)%R else 1%R
  | None => 1%R
  end.

(** The scale over the reals: the minimum of 1 and the ratios of the
    exceeded bounds. *)
Definition ideal_scale (self : Plugin) (width height : Z) : R :=
  Rmin 1 (Rmin (ratio (image_max_width (config self)) width)
               (ratio (image_max_height (config self)) height)).

(** [v] is [size * s] truncated, up to the roundings of a division and
    a product of doubles. *)
Definition scaled (size : Z) (s : R) (v : Z) : Prop :=
  (IZR size * s * (1 - 4 * ulp) - 1 < IZR v
   <= IZR size * s * (1 + 4 * ulp))%R.

(** A positive double with a full 53-bit mantissa, in the range the
    resizing arithmetic stays in. *)
Definition normal (f : float) : Prop :=
  ∃ m e, Prim2SF f = S754_finite false m e
         ∧ Z.pos (digits2_pos m) = 53 ∧ -105 <= e <= 1.

(** [demo_plugin] with [image_max_width: 1000]. *)
Definition thumbnail_plugin : Plugin := {|
  config := {| cache_dir := cache_dir demo_config;
               image_quality := 85; image_max_width := Some 1000;
               image_max_height := None; video_crf := 23;
               video_preset := "medium"; video_max_width := None;
               skip_images := false; skip_videos := false; max_workers := 4 |};
  self_cache_dir := ".mediacompressor_cache";
|}.

(** ** Observations used by the further properties *)

(** The number of files a tally has counted. *)
Definition total (t : Tally) : nat :=
  (processed t + skipped t + errors t)%nat.

(** Neither skip flag stops the task of [media_file]. *)
Definition not_skipped (self : Plugin) (media_file : Path) : Prop :=
  ext_in (lower (suffix media_file)) IMAGE_EXTENSIONS
  && skip_images (config self) = false
  ∧ ext_in (lower (suffix media_file)) VIDEO_EXTENSIONS
    && skip_videos (config self) = false.

(** The artifact path of a file with digest [file_hash]. *)
Definition artifact_path (self : Plugin) (media_file : Path)
    (file_hash : string) : Path :=
  path_join (self_cache_dir self) (file_hash +:+ suffix media_file).

(** The cache has no entry for [file_hash], or one whose artifact file
    is gone. *)
Definition cache_miss (self : Plugin) (w : World) (file_hash : string)
    : Prop :=
  ∀ entry, cache w !! file_hash = Some entry →
    ∃ filename, entry_filename entry = Some filename
                ∧ fs w !! path_join (self_cache_dir self) filename = None.

Definition backend_event (e : event) : Prop :=
  transcoder_event e ∨ image_backend_event e.

(** Every event of the trace satisfies [P]. *)
Definition every_event (P : event → Prop)
    : World → list event → World → Prop :=
  λ _ t _, Forall P t.

(** Every cache entry names an artifact file that exists. *)
Definition no_orphans (self : Plugin) (w : World) : Prop :=
  ∀ h e, cache w !! h = Some e → artifact_exists self (fs w) e = true.

Definition keeps_no_orphans (self : Plugin)
    : World → list event → World → Prop :=
  λ w _ w', no_orphans self w → no_orphans self w'.

(** Files outside the cache directory that are not [touched] hold what
    they held. *)
Definition frame_outside (dir : string) (touched : Path → Prop)
    : World → list event → World → Prop :=
  λ w _ w', ∀ p, ¬ touched p → parent p ≠ dir → fs w' !! p = fs w !! p.

(** Every cache entry is a dict with a string under [cached_filename]. *)
Definition well_formed (w : World) : Prop :=
  ∀ h e, cache w !! h = Some e → is_Some (entry_filename e).

Definition no_counts : Tally := {| processed := 0; skipped := 0; errors := 0 |}.

(** The settings [_get_current_config] snapshots. *)
Definition same_settings (c1 c2 : Config) : Prop :=
  image_quality c1 = image_quality c2
  ∧ image_max_width c1 = image_max_width c2
  ∧ image_max_height c1 = image_max_height c2
  ∧ video_crf c1 = video_crf c2
  ∧ video_preset c1 = video_preset c2
  ∧ video_max_width c1 = video_max_width c2
  ∧ skip_images c1 = skip_images c2
  ∧ skip_videos c1 = skip_videos c2.

(** A hash object that keeps the chunks it is fed, in order. *)
Definition recording_hasher : Sha256 := {|
  sha256_state := list bytes;
  sha256_new := [];
  sha256_update := λ s chunk, s ++ [chunk];
  sha256_hexdigest := λ _, "";
|}.

(** The chunks [_compute_file_hash] feeds to the hash object. *)
Definition chunks_read (content : bytes) : list bytes :=
  @update_chunks recording_hasher CHUNK_SIZE [] content.

(** More example files and worlds. *)
Definition movie_webm : Path := {| parent := "site"; name := "movie.webm" |}.
Definition movie_content : bytes := [x1a; x45; xdf; xa3]%byte.
Definition gone_png : Path := {| parent := "site"; name := "gone.png" |}.
Definition blank_gif : Path := {| parent := "site"; name := "blank.gif" |}.
Definition index_html : Path := {| parent := "site"; name := "index.html" |}.
Definition page_content : bytes := [x3c; x68; x31; x3e]%byte.

(** A site with a page, a video and an empty image. *)
Definition page_world : World := {|
  cache := ∅;
  fs := {[ index_html := page_content; movie_webm := movie_content;
           blank_gif := []; pic_png := pic_content ]};
  record := Absent;
|}.

(** A cache holding an entry that is not a dict with a file name. *)
Definition broken_world : World := {|
  cache := {[ "7" := JObj ∅ ]};
  fs := {[ pic_png := pic_content ]};
  record := Absent;
|}.

(** A snapshot taken under another image quality. *)
Definition older_settings : gmap string json :=
  <["image_quality" := JInt 60]> (_get_current_config demo_config).

(** ** The settings files: [_save_config], [_save_cached_config],
    [_load_or_create_config] and [_config_changed] *)

(** [self.config_file] and [self.cached_config_file]; [None] while the
    attribute has not been assigned, when reading it raises. *)
Record ConfigPaths : Type := {
  config_file : option Path;
  cached_config_file : option Path;
}.

Inductive config_msg : Type :=
  | MsgSaveError
  | MsgSaveCachedError
  | MsgAdded (key : string) (value : json)
  | MsgUpdated
  | MsgLoadError
  | MsgCreated
  | MsgDifferences
  | MsgDifference (line : log_msg)
  | MsgReadCachedError
  | MsgFirstRun.

(** The JSON files by path, as [open] and [json.load] see them. *)
Abbreviation Disk := (gmap Path record_file).

Definition file_at (disk : Disk) (p : Path) : record_file :=
  default Absent (disk !! p).

(** State, exceptions and the printed lines. *)
Definition J (A : Type) : Type := Disk → result A * Disk * list config_msg.

Definition jret {A : Type} (a : A) : J A := λ disk, (Ok a, disk, []).

Definition jbind {A B : Type} (m : J A) (k : A → J B) : J B := λ disk,
  match m disk with
  | (Ok a, d1, t1) => let '(r, d2, t2) := k a d1 in (r, d2, t1 ++ t2)
  | (Raised, d1, t1) => (Raised, d1, t1)
  end.

Declare Scope cfg_scope.
Delimit Scope cfg_scope with cfg.
Notation "x ← y ; z" := (jbind y (λ x, z))
  (at level 20, y at level 100, z at level 200, only parsing) : cfg_scope.
Notation "x ;; z" := (jbind x (λ _, z))
  (at level 100, z at level 200, only parsing, right associativity)
  : cfg_scope.

Definition jraise {A : Type} : J A := λ disk, (Raised, disk, []).
Definition jprint (msg : config_msg) : J () := λ disk, (Ok (), disk, [msg]).
Definition jprint_all (msgs : list config_msg) : J () :=
  λ disk, (Ok (), disk, msgs).
Definition jlift {A : Type} (r : result A) : J A := λ disk, (r, disk, []).

(** [try: body  except Exception: handler] *)
Definition jtry {A : Type} (body handler : J A) : J A := λ disk,
  match body disk with
  | (Ok a, d1, t1) => (Ok a, d1, t1)
  | (Raised, d1, t1) => let '(r, d2, t2) := handler d1 in (r, d2, t1 ++ t2)
  end.

(** Reading [self.config_file] or [self.cached_config_file]. *)
Definition attribute (a : option Path) : J Path :=
  match a with Some p => jret p | None => jraise end.

(** [p.exists()] *)
Definition file_exists (p : Path) : J bool := λ disk,
  (Ok match file_at disk p with Absent => false | _ => true end, disk, []).

(** [with open(p, 'r') as f: json.load(f)] *)
Definition load_json (p : Path) : J json := λ disk,
  match file_at disk p with
  | Parsed j => (Ok j, disk, [])
  | _ => (Raised, disk, [])
  end.

(** [key not in file_config]: a key test on a dict, a search with [==] in
    a list, a substring test on a str, [TypeError] on anything else. *)
Definition key_missing (file_config : json) (key : string) : result bool :=
  match file_config with
  | JObj d => Ok match d !! key with Some _ => false | None => true end
  | JArr items => Ok (negb (existsb (λ x, py_eq x (JStr key)) items))
  | JStr s => Ok match String.index 0 key s with
                 | Some _ => false
                 | None => true
                 end
  | _ => Raised
  end.

(** [file_config[key] = value]: only a dict takes a str key. *)
Definition set_item (file_config : json) (key : string) (value : json)
    : result json :=
  match file_config with
  | JObj d => Ok (JObj (<[key := value]> d))
  | _ => Raised
  end.

(** The loop of [_load_or_create_config] over [current_config.items()];
    it returns [file_config] and [updated]. *)
Fixpoint add_missing (items : list (string * json)) (file_config : json)
    (updated : bool) : J (json * bool) :=
  match items with
  | [] => jret (file_config, updated)
  | (key, value) :: rest =>
      (missing ← jlift (key_missing file_config key);
       if missing : bool then
         file_config' ← jlift (set_item file_config key value);
         jprint (MsgAdded key value);;
         add_missing rest file_config' true
       else add_missing rest file_config updated)%cfg
  end.

Definition _config_changed (paths : ConfigPaths) (c : Config) : J bool :=
  (let current_config := _get_current_config c in
   p ← attribute (cached_config_file paths);
   present ← file_exists p;
   if present : bool then
     jtry
       (cached_config ← load_json p;
        if negb (py_eq cached_config (JObj current_config)) then
          jprint MsgDifferences;;
          diffs ← jlift (config_differences cached_config current_config
                           (config_items c).*1);
          jprint_all (MsgDifference <$> diffs);;
          jret true
        else jret false)
       (jprint MsgReadCachedError;; jret true)
   else jprint MsgFirstRun;; jret true)%cfg.

Section ConfigFiles.

(** [open(p, 'w')] followed by [json.dump]: [None] when it succeeds, else
    what the failed write leaves at [p]. *)
Context (write_fails : Path → Disk → json → option record_file).

(** [with open(p, 'w') as f: json.dump(j, f, indent=2)] *)
Definition dump_json (p : Path) (j : json) : J () := λ disk,
  match write_fails p disk j with
  | Some remains => (Raised, <[p := remains]> disk, [])
  | None => (Ok (), <[p := Parsed j]> disk, [])
  end.

Definition _save_config (paths : ConfigPaths) (c : Config) : J () :=
  (let config_data := _get_current_config c in
   jtry (p ← attribute (config_file paths); dump_json p (JObj config_data))
        (jprint MsgSaveError))%cfg.

(** The definition of [_save_cached_config] in force, the second one of
    the class body; [self.config[key]] at a key of [config_scheme] is
    [self.config.get(key)]. *)
Definition _save_cached_config (paths : ConfigPaths) (c : Config) : J () :=
  (jtry (let current_config := _get_current_config c in
         p ← attribute (cached_config_file paths);
         dump_json p (JObj current_config))
        (jprint MsgSaveCachedError);;
   let config_data := _get_current_config c in
   jtry (p ← attribute (config_file paths); dump_json p (JObj config_data))
        (jprint MsgSaveError))%cfg.

Definition _load_or_create_config (paths : ConfigPaths) (c : Config) : J () :=
  (p ← attribute (config_file paths);
   present ← file_exists p;
   if present : bool then
     jtry
       (file_config ← load_json p;
        r ← add_missing (config_items c) file_config false;
        if r.2 : bool then dump_json p r.1;; jprint MsgUpdated else jret ())
       (jprint MsgLoadError;; _save_config paths c)
   else _save_config paths c;; jprint MsgCreated)%cfg.

End ConfigFiles.

(** The lines [_load_or_create_config] prints for the settings a dict
    lacks. *)
Definition added_lines (d : gmap string json) (items : list (string * json))
    : list config_msg :=
  flat_map
    (λ kv, match d !! kv.1 with
           | Some _ => []
           | None => [MsgAdded kv.1 kv.2]
           end)
    items.

(** Every setting is [in] the value. *)
Definition has_all_settings (c : Config) (j : json) : Prop :=
  ∀ key, key ∈ (config_items c).*1 → key_missing j key = Ok false.

(** A disk every write to succeeds on. *)
Definition writable : Path → Disk → json → option record_file :=
  λ _ _ _, None.

Definition settings_json : Path :=
  {| parent := "docs"; name := "settings.json" |}.
Definition snapshot_json : Path :=
  {| parent := ".mediacompressor_cache"; name := "config.json" |}.
Definition demo_paths : ConfigPaths :=
  {| config_file := Some settings_json;
     cached_config_file := Some snapshot_json |}.

(** A settings file written when there was one setting only. *)
Definition partial_settings : gmap string json :=
  {[ "image_quality" := JInt 70 ]}.
Definition partial_disk : Disk :=
  {[ settings_json := Parsed (JObj partial_settings) ]}.

(** The record is being written. *)
Definition dump_event (e : event) : Prop :=
  match e with EvDump => True | _ => False end.

(** * Properties *)

(** ** Hasher *)

Section Hasher.
Context `{H : Sha256} {L : Sha256Laws H}.

(** Feeding the stream chunk by chunk is one [update] with all of it. *)
Lemma update_chunks_concat (size : nat) (sha256 : sha256_state) (f : bytes) :
  (0 < size)%nat → update_chunks size sha256 f = sha256_update sha256 f.
Proof.
  intros Hsize. funelim (update_chunks size sha256 f).
  - destruct f as [|x f]; [|destruct size; [lia|discriminate]].
    now rewrite sha256_update_empty.
  - match goal with
    | IH : _ → update_chunks _ _ _ = sha256_update _ _ |- _ =>
        rewrite IH by assumption
    end.
    rewrite sha256_update_concat.
    match goal with e : take _ _ = _ |- _ => rewrite <- e end.
    now rewrite take_drop.
Qed.

Lemma file_digest_oneshot (content : bytes) :
  file_digest content = sha256_oneshot content.
Proof.
  unfold file_digest, sha256_oneshot. rewrite update_chunks_concat; [done|].
  unfold CHUNK_SIZE. vm_compute. lia.
Qed.
End Hasher.

Lemma checksum_hasher_laws : Sha256Laws checksum_hasher.
Proof.
  split; [reflexivity|]. intros s a b. cbn. now rewrite fold_left_app.
Qed.

(** C9: the digest [_compute_file_hash] computes by feeding 8192-byte
    chunks to the hash object is the one-shot SHA-256 hex digest of the
    whole content; the call leaves the world as it was, so repeated calls
    on unmodified content, and calls on two files with identical bytes,
    return equal digests. *)
Theorem streaming_digest_is_oneshot `{E : Externals} {L : Sha256Laws hasher} :
  (∀ content : bytes, file_digest content = sha256_oneshot content)
  ∧ (∀ (w : World) (p : Path) (content : bytes),
       fs w !! p = Some content →
       _compute_file_hash p w
       = (Ok (sha256_oneshot content), w, [EvOpenRead p])).
Proof.
  split; [apply file_digest_oneshot|].
  intros w p content Hp. unfold _compute_file_hash, bind, emit, get_world.
  cbn. rewrite Hp. cbn. now rewrite file_digest_oneshot.
Qed.

Lemma streaming_digest_is_oneshot_witness :
  Sha256Laws checksum_hasher
  ∧ @file_digest checksum_hasher [x61; x62; x63]%byte
    = @sha256_oneshot checksum_hasher [x61; x62; x63]%byte.
Proof.
  split; [exact checksum_hasher_laws|].
  exact (proj1 (@streaming_digest_is_oneshot demo_externals
                  checksum_hasher_laws) [x61; x62; x63]%byte).
Defined.

(** ** CacheStore: loading the record *)

Lemma map_fold_andb {A : Type} (P : string → A → bool) (m : gmap string A) :
  map_fold (λ k v acc, acc && P k v) true m = true
  ↔ ∀ k v, m !! k = Some v → P k v = true.
Proof.
  apply (map_fold_weak_ind
           (λ r m, r = true ↔ ∀ k v, m !! k = Some v → P k v = true)).
  - split; [intros _ k v; rewrite lookup_empty; discriminate | reflexivity].
  - intros k v m' r Hk [IH1 IH2]. rewrite andb_true_iff. split.
    + intros [Hr HP] k' v'. rewrite lookup_insert. case_decide; subst.
      * intros [= <-]. assumption.
      * auto.
    + intros Hall. split.
      * apply IH2. intros k' v' Hk'. apply Hall.
        rewrite lookup_insert_ne; [assumption|]. intros ->. congruence.
      * apply Hall. apply lookup_insert_eq.
Qed.

(** Python's dict equality, read off [py_eq]. *)
Lemma py_eq_dict (m m' : gmap string json) :
  py_eq (JObj m) (JObj m') = true
  ↔ size m = size m'
    ∧ ∀ k v, m !! k = Some v → ∃ v', m' !! k = Some v' ∧ py_eq v v' = true.
Proof.
  cbn [py_eq]. rewrite andb_true_iff, bool_decide_eq_true, map_fold_andb.
  apply and_iff_compat_l. split; intros Hall k v Hk; specialize (Hall k v Hk).
  - destruct (m' !! k); [eauto | discriminate].
  - destruct Hall as (v' & -> & ?). assumption.
Qed.

Lemma config_keys_NoDup (c : Config) : NoDup (config_items c).*1.
Proof. cbn. compute_done. Qed.

Lemma config_lookup_items (c : Config) (k : string) (v : json) :
  _get_current_config c !! k = Some v ↔ (k, v) ∈ config_items c.
Proof. symmetry. apply elem_of_list_to_map, config_keys_NoDup. Qed.

Lemma py_eq_int (a b : Z) : py_eq (JInt a) (JInt b) = true ↔ a = b.
Proof. cbn. apply Z.eqb_eq. Qed.

Lemma py_eq_str (a b : string) : py_eq (JStr a) (JStr b) = true ↔ a = b.
Proof. cbn. apply bool_decide_eq_true. Qed.

Lemma py_eq_bool (a b : bool) : py_eq (JBool a) (JBool b) = true ↔ a = b.
Proof. destruct a, b; cbn; split; congruence. Qed.

Lemma py_eq_opt_int (a b : option Z) :
  py_eq (opt_int a) (opt_int b) = true ↔ a = b.
Proof. destruct a, b; cbn; rewrite ?Z.eqb_eq; split; congruence. Qed.

Create HintDb snapshot discriminated.
#[local] Hint Resolve -> py_eq_int py_eq_str py_eq_bool py_eq_opt_int : snapshot.
#[local] Hint Resolve <- py_eq_int py_eq_str py_eq_bool py_eq_opt_int : snapshot.

Ltac item_in_list :=
  repeat first [ apply list_elem_of_here | apply list_elem_of_further ].

Lemma snapshot_value_refl (c : Config) (k : string) (v : json) :
  (k, v) ∈ config_items c → py_eq v v = true.
Proof.
  unfold config_items. rewrite !elem_of_cons, elem_of_nil.
  intros H; repeat destruct H as [H | H]; try contradiction;
    injection H as -> ->; auto with snapshot.
Qed.

(** On two snapshots Python's [==] is equality of the dicts. *)
Lemma snapshot_py_eq (c1 c2 : Config) :
  py_eq (JObj (_get_current_config c1)) (JObj (_get_current_config c2)) = true
  ↔ _get_current_config c1 = _get_current_config c2.
Proof.
  rewrite py_eq_dict. split.
  - intros [_ Hall]. unfold _get_current_config. f_equal.
    assert (Hat : ∀ k v v', (k, v) ∈ config_items c1 →
                            (k, v') ∈ config_items c2 → py_eq v v' = true).
    { intros k v v' H1 H2. apply config_lookup_items in H1, H2.
      destruct (Hall k v H1) as (v'' & Hv'' & Heq). congruence. }
    unfold config_items in *.
    assert (image_quality c1 = image_quality c2)
      by (eapply py_eq_int, (Hat "image_quality"); item_in_list).
    assert (image_max_width c1 = image_max_width c2)
      by (eapply py_eq_opt_int, (Hat "image_max_width"); item_in_list).
    assert (image_max_height c1 = image_max_height c2)
      by (eapply py_eq_opt_int, (Hat "image_max_height"); item_in_list).
    assert (video_crf c1 = video_crf c2)
      by (eapply py_eq_int, (Hat "video_crf"); item_in_list).
    assert (video_preset c1 = video_preset c2)
      by (eapply py_eq_str, (Hat "video_preset"); item_in_list).
    assert (video_max_width c1 = video_max_width c2)
      by (eapply py_eq_opt_int, (Hat "video_max_width"); item_in_list).
    assert (skip_images c1 = skip_images c2)
      by (eapply py_eq_bool, (Hat "skip_images"); item_in_list).
    assert (skip_videos c1 = skip_videos c2)
      by (eapply py_eq_bool, (Hat "skip_videos"); item_in_list).
    congruence.
  - intros <-. split; [reflexivity|]. intros k v Hk. exists v.
    split; [assumption|].
    eapply snapshot_value_refl, config_lookup_items, Hk.
Qed.

Lemma saved_record_fields (c : Config) (entries : gmap string json) :
  ∃ d, saved_record c entries = JObj d
       ∧ d !! "config" = Some (JObj (_get_current_config c))
       ∧ d !! "files" = Some (JObj entries).
Proof. eexists. split; [reflexivity|]. split; reflexivity. Qed.

(** C2: a record saved under the settings [config self] and loaded under
    the settings [c2] gives an empty entry mapping when the two config
    snapshots differ, and exactly the saved entries when they are equal. *)
Theorem load_after_save `{E : Externals} (self : Plugin) (w : World)
    (c2 : Config) :
  dump_fails (cache w) = None →
  let stored := DirReady (record (after (_save_cache self) w)) in
  (_get_current_config (config self) ≠ _get_current_config c2 →
   ∃ logs, _load_cache c2 stored = Ok (empty_dict, logs))
  ∧ (_get_current_config (config self) = _get_current_config c2 →
     _load_cache c2 stored = Ok (JObj (cache w), [])).
Proof.
  intros Hdump. cbv zeta.
  assert (Hrec : record (after (_save_cache self) w)
                 = Parsed (saved_record (config self) (cache w))).
  { unfold after, _save_cache, bind, get_world, emit, put_world. cbn.
    rewrite Hdump. reflexivity. }
  rewrite Hrec.
  destruct (saved_record_fields (config self) (cache w))
    as (d & Hd & Hcfg & Hfiles).
  unfold _load_cache, load_record. rewrite Hd, Hcfg, Hfiles. split.
  - intros Hne.
    destruct (py_eq _ _) eqn:Heq.
    + apply snapshot_py_eq in Heq. contradiction.
    + cbn. eauto.
  - intros Heq. apply snapshot_py_eq in Heq. rewrite Heq. reflexivity.
Qed.

Lemma load_after_save_witness :
  (∃ logs,
     _load_cache
       {| cache_dir := ".mediacompressor_cache"; image_quality := 60;
          image_max_width := None; image_max_height := None;
          video_crf := 23; video_preset := "medium";
          video_max_width := None; skip_images := false;
          skip_videos := false; max_workers := 4 |}
       (DirReady
          (record
             (after (@_save_cache demo_externals demo_plugin)
                {| cache := {[ "7" := new_entry "7.png" "7" ]};
                   fs := ∅; record := Absent |})))
     = Ok (empty_dict, logs))
  ∧ _load_cache demo_config
      (DirReady
         (record
            (after (@_save_cache demo_externals demo_plugin)
               {| cache := {[ "7" := new_entry "7.png" "7" ]};
                  fs := ∅; record := Absent |})))
    = Ok (JObj {[ "7" := new_entry "7.png" "7" ]}, []).
Proof.
  split.
  - refine (proj1 (@load_after_save demo_externals demo_plugin
                     {| cache := {[ "7" := new_entry "7.png" "7" ]};
                        fs := ∅; record := Absent |} _ eq_refl) _).
    intros Heq.
    apply (f_equal (λ d : gmap string json, d !! "image_quality")) in Heq.
    vm_compute in Heq. discriminate.
  - refine (proj2 (@load_after_save demo_externals demo_plugin
                     {| cache := {[ "7" := new_entry "7.png" "7" ]};
                        fs := ∅; record := Absent |} _ eq_refl) _).
    reflexivity.
Defined.

(** C5: when the record is absent, cannot be read or parsed, or lacks the
    [config] field, [_load_cache] returns normally with an empty cache;
    and whatever the record holds, [_load_cache] does not raise once the
    cache directory exists. *)
Theorem load_absent_or_malformed (c : Config) :
  _load_cache c (DirReady Absent) = Ok (empty_dict, [])
  ∧ _load_cache c (DirReady Unreadable) = Ok (empty_dict, [LogLoadError])
  ∧ (∀ cache_data, has_config cache_data = false →
       _load_cache c (DirReady (Parsed cache_data))
       = Ok (empty_dict, [LogOldFormat]))
  ∧ (∀ f, ∃ loaded logs, _load_cache c (DirReady f) = Ok (loaded, logs)).
Proof.
  repeat split; try reflexivity.
  - intros [| | | | | |d] Hno; try reflexivity.
    cbn in Hno. apply bool_decide_eq_false in Hno.
    unfold _load_cache, load_record.
    destruct (d !! "config"); [|reflexivity].
    exfalso. apply Hno. eauto.
  - intros f. unfold _load_cache.
    destruct (load_record c f) as [logs [loaded|]]; eauto.
Qed.

Lemma load_absent_or_malformed_witness :
  _load_cache demo_config
    (DirReady (Parsed (JObj {[ "files" := JObj ∅ ]})))
  = Ok (empty_dict, [LogOldFormat]).
Proof.
  apply (proj1 (proj2 (proj2 (load_absent_or_malformed demo_config)))).
  reflexivity.
Defined.

(** ** Running tasks *)

Lemma run_eta {A : Type} (m : M A) (w : World) :
  m w = (outcome m w, after m w, trace m w).
Proof. unfold outcome, after, trace. now destruct (m w) as [[r w'] t]. Qed.

Lemma bind_ok {A B : Type} (m : M A) (k : A → M B) (w : World) (a : A) :
  outcome m w = Ok a →
  bind m k w
  = (outcome (k a) (after m w), after (k a) (after m w),
     trace m w ++ trace (k a) (after m w)).
Proof.
  unfold outcome, after, trace, bind. destruct (m w) as [[r w1] t1]. cbn.
  intros ->. now destruct (k a w1) as [[r2 w2] t2].
Qed.

Lemma bind_raised {A B : Type} (m : M A) (k : A → M B) (w : World) :
  outcome m w = Raised → bind m k w = (Raised, after m w, trace m w).
Proof.
  unfold outcome, after, trace, bind. destruct (m w) as [[r w1] t1]. cbn.
  now intros ->.
Qed.

Lemma outcome_bind {A B : Type} (m : M A) (k : A → M B) (w : World) (a : A) :
  outcome m w = Ok a → outcome (bind m k) w = outcome (k a) (after m w).
Proof. intros Ho. unfold outcome at 1. now rewrite (bind_ok _ _ _ _ Ho). Qed.

Lemma after_bind {A B : Type} (m : M A) (k : A → M B) (w : World) (a : A) :
  outcome m w = Ok a → after (bind m k) w = after (k a) (after m w).
Proof. intros Ho. unfold after at 1. now rewrite (bind_ok _ _ _ _ Ho). Qed.

Lemma trace_bind {A B : Type} (m : M A) (k : A → M B) (w : World) (a : A) :
  outcome m w = Ok a →
  trace (bind m k) w = trace m w ++ trace (k a) (after m w).
Proof. intros Ho. unfold trace at 1. now rewrite (bind_ok _ _ _ _ Ho). Qed.

Ltac bind_with H :=
  repeat first
    [ rewrite (outcome_bind _ _ _ _ H)
    | rewrite (after_bind _ _ _ _ H)
    | rewrite (trace_bind _ _ _ _ H) ].

Section Steps.
Context {Φ : World → list event → World → Prop} `{!Stepwise Φ}.

Lemma steps_ret {A : Type} (a : A) : steps Φ (ret a).
Proof. intros w. apply stepwise_refl. Qed.

Lemma steps_raise {A : Type} : steps Φ (@raise A).
Proof. intros w. apply stepwise_refl. Qed.

Lemma steps_get_world : steps Φ get_world.
Proof. intros w. apply stepwise_refl. Qed.

Lemma steps_bind {A B : Type} (m : M A) (k : A → M B) :
  steps Φ m → (∀ a, steps Φ (k a)) → steps Φ (bind m k).
Proof.
  intros Hm Hk w. specialize (Hm w). unfold trace, after in *.
  destruct (outcome m w) as [a|] eqn:Ho.
  - rewrite (bind_ok _ _ _ _ Ho). cbn. eapply stepwise_trans; [exact Hm|].
    apply Hk.
  - rewrite (bind_raised _ _ _ Ho). exact Hm.
Qed.

Lemma steps_try_except {A : Type} (body handler : M A) :
  steps Φ body → steps Φ handler → steps Φ (try_except body handler).
Proof.
  intros Hb Hh w. specialize (Hb w). unfold steps, trace, after, try_except in *.
  destruct (body w) as [[[a|] w1] t1]; cbn in *; [exact Hb|].
  specialize (Hh w1). destruct (handler w1) as [[r w2] t2]. cbn in *.
  eapply stepwise_trans; eassumption.
Qed.

Lemma steps_future_result {A : Type} (task : M A) :
  steps Φ task → steps Φ (future_result task).
Proof.
  intros Ht w. specialize (Ht w). unfold trace, after, future_result in *.
  now destruct (task w) as [[r w1] t1].
Qed.

Lemma steps_with_lock {A : Type} (body : M A) :
  steps Φ (emit EvAcquire) → steps Φ (emit EvRelease) → steps Φ body →
  steps Φ (with_lock body).
Proof.
  intros Ha Hr Hb w. specialize (Hb w). unfold trace, after, with_lock in *.
  destruct (body w) as [[r w1] t1]. cbn in *.
  change (EvAcquire :: t1 ++ [EvRelease]) with ([EvAcquire] ++ t1 ++ [EvRelease]).
  eapply stepwise_trans; [apply (Ha w)|].
  eapply stepwise_trans; [exact Hb|]. apply (Hr w1).
Qed.

Lemma steps_bind_ok {A B : Type} (m : M A) (k : A → M B) :
  steps Φ m → (∀ a, (∃ w, outcome m w = Ok a) → steps Φ (k a)) →
  steps Φ (bind m k).
Proof.
  intros Hm Hk w. specialize (Hm w). unfold trace, after in *.
  destruct (outcome m w) as [a|] eqn:Ho.
  - rewrite (bind_ok _ _ _ _ Ho). cbn. eapply stepwise_trans; [exact Hm|].
    apply Hk. eauto.
  - rewrite (bind_raised _ _ _ Ho). exact Hm.
Qed.

End Steps.


Lemma returns_ret {A : Type} (P : A → Prop) (a : A) : P a → returns P (ret a).
Proof. intros HP w a' [= <-]. exact HP. Qed.

Lemma returns_raise {A : Type} (P : A → Prop) : returns P raise.
Proof. intros w a. discriminate. Qed.

Lemma returns_bind {A B : Type} (P : B → Prop) (m : M A) (k : A → M B) :
  (∀ a, returns P (k a)) → returns P (bind m k).
Proof.
  intros Hk w b. unfold outcome at 1.
  destruct (outcome m w) as [a|] eqn:Ho.
  - rewrite (bind_ok _ _ _ _ Ho). cbn. apply Hk.
  - rewrite (bind_raised _ _ _ Ho). discriminate.
Qed.

Lemma returns_try_except {A : Type} (P : A → Prop) (body handler : M A) :
  returns P body → returns P handler → returns P (try_except body handler).
Proof.
  intros Hb Hh w a. specialize (Hb w). specialize (Hh (after body w)).
  unfold outcome, after, try_except in *.
  destruct (body w) as [[[a'|] w1] t1]; cbn in *; [apply Hb|].
  destruct (handler w1) as [[r w2] t2]. cbn in *. apply Hh.
Qed.

Ltac returns_go :=
  repeat match goal with
    | |- returns _ (ret _) => apply returns_ret
    | |- returns _ raise => apply returns_raise
    | |- returns _ (bind _ _) => apply returns_bind; intros ?
    | |- returns _ (try_except _ _) => apply returns_try_except
    | |- returns _ (if ?b then _ else _) => destruct b eqn:?
    | |- returns _ (match ?x with _ => _ end) => destruct x eqn:?
    end.

Section Names.
Context `{E : Externals} (self : Plugin).


Lemma compress_image_names (p : Path) (h : string) :
  returns (names_artifact self p h) (_compress_image self p h).
Proof.
  unfold _compress_image. returns_go; intros q [= <-]; reflexivity.
Qed.

Lemma compress_video_names (p : Path) (h : string) :
  returns (names_artifact self p h) (_compress_video self p h).
Proof.
  unfold _compress_video. returns_go; intros q; try discriminate.
  intros [= <-]. reflexivity.
Qed.
End Names.


Ltac steps_step :=
  match goal with
  | |- steps _ (ret _) => apply steps_ret
  | |- steps _ raise => apply steps_raise
  | |- steps _ get_world => apply steps_get_world
  | |- steps _ (bind _ _) => apply steps_bind; [|intros ?]
  | |- steps _ (try_except _ _) => apply steps_try_except
  | |- steps _ (future_result _) => apply steps_future_result
  | |- steps _ (with_lock _) => apply steps_with_lock
  | |- steps _ (if ?b then _ else _) => destruct b eqn:?
  | |- steps _ (match ?x with _ => _ end) => destruct x eqn:?
  end.

Ltac steps_go := repeat steps_step.

Section Run.
Context `{E : Externals} (self : Plugin).
Context {Φ : World → list event → World → Prop} `{!Stepwise Φ}.
Context (S : string → Prop) (W : Path → Prop).
Hypothesis Hev : ∀ e, may_emit self e → steps Φ (emit e).
Hypothesis Hwrite : ∀ p output, W p → steps Φ (write_output p output).
Hypothesis Hcopy : ∀ src dst, steps Φ (copy2 src dst).
Hypothesis Hins :
  ∀ h sfx, S sfx → steps Φ (cache_insert h (new_entry (h +:+ sfx) h)).
Hypothesis Hdel : ∀ h, steps Φ (cache_delete h).
Hypothesis Hsave : steps Φ (_save_cache self).

Ltac run_go := steps_go; try (apply Hev; cbn; done); auto.

Lemma steps_print (msg : log_msg) : steps Φ (print msg).
Proof. apply Hev. exact I. Qed.

Lemma steps_path_exists (p : Path) : steps Φ (path_exists p).
Proof. unfold path_exists. run_go. Qed.

Lemma steps_stat_size (p : Path) : steps Φ (stat_size p).
Proof. unfold stat_size. run_go. Qed.

Lemma steps_cache_lookup (h : string) : steps Φ (cache_lookup h).
Proof. unfold cache_lookup. run_go. Qed.

Lemma steps_cached_file_of (entry : json) : steps Φ (cached_file_of self entry).
Proof. unfold cached_file_of. run_go. Qed.

Lemma steps_compute_file_hash (p : Path) : steps Φ (_compute_file_hash p).
Proof. unfold _compute_file_hash. run_go. Qed.

Hint Resolve steps_print steps_path_exists steps_stat_size steps_cache_lookup
  steps_cached_file_of steps_compute_file_hash : core.

Lemma steps_find_orphaned (entries : list (string * json)) :
  steps Φ (find_orphaned self entries).
Proof.
  induction entries as [|[h e] rest IH]; cbn [find_orphaned]; run_go.
Qed.

Lemma steps_delete_all (orphaned : list string) : steps Φ (delete_all orphaned).
Proof. induction orphaned as [|h rest IH]; cbn [delete_all]; run_go. Qed.

Lemma steps_clean_orphaned_cache : steps Φ (_clean_orphaned_cache self).
Proof.
  unfold _clean_orphaned_cache. run_go;
    auto using steps_find_orphaned, steps_delete_all.
Qed.

Lemma steps_print_stats (p q : Path) : steps Φ (print_stats p q).
Proof. unfold print_stats. run_go. Qed.

Lemma steps_compress_image (p : Path) (h : string) :
  skip_images (config self) = false →
  W (path_join (self_cache_dir self) (h +:+ suffix p)) →
  steps Φ (_compress_image self p h).
Proof.
  intros Hskip HW. unfold _compress_image, pil_save.
  run_go; auto using steps_print_stats.
Qed.

Lemma steps_compress_video (p : Path) (h : string) :
  skip_videos (config self) = false →
  W (path_join (self_cache_dir self) (h +:+ suffix p)) →
  steps Φ (_compress_video self p h).
Proof.
  intros Hskip HW. unfold _compress_video.
  run_go; auto using steps_print_stats.
Qed.

Lemma steps_use_cached (p : Path) (h : string) : steps Φ (use_cached self p h).
Proof. unfold use_cached. run_go. Qed.

Lemma steps_use_compressed (p : Path) (h : string) (c : option Path) :
  (∀ q, c = Some q → ∃ sfx, S sfx ∧ name q = h +:+ sfx) →
  steps Φ (use_compressed p h c).
Proof.
  intros Hc. unfold use_compressed. run_go.
  destruct (Hc _ eq_refl) as (sfx & Hsfx & ->). auto.
Qed.

Lemma steps_process_media_file (media_file : Path) :
  S (suffix media_file) →
  (∀ h, W (path_join (self_cache_dir self) (h +:+ suffix media_file))) →
  steps Φ (_process_media_file self media_file).
Proof.
  intros HS HW. unfold _process_media_file.
  assert (Huse : ∀ h c, names_artifact self media_file h c →
                        steps Φ (use_compressed media_file h c)).
  { intros h c Hc. apply steps_use_compressed. intros q ->.
    exists (suffix media_file). split; [exact HS|]. now rewrite (Hc q eq_refl). }
  destruct (ext_in _ IMAGE_EXTENSIONS) eqn:Himg,
           (ext_in _ VIDEO_EXTENSIONS) eqn:Hvid,
           (skip_images (config self)) eqn:Hsi,
           (skip_videos (config self)) eqn:Hsv; cbn [andb];
    repeat first
      [ match goal with
        | |- steps _ (bind (_compress_image _ _ _) _) =>
            apply steps_bind_ok;
            [ now apply steps_compress_image
            | intros c [w Hc]; apply Huse;
              exact (compress_image_names self _ _ _ _ Hc) ]
        | |- steps _ (bind (_compress_video _ _ _) _) =>
            apply steps_bind_ok;
            [ now apply steps_compress_video
            | intros c [w Hc]; apply Huse;
              exact (compress_video_names self _ _ _ _ Hc) ]
        end
      | steps_step ];
    auto using steps_use_cached.
Qed.

Lemma steps_collect_results (media_files : list Path) (counts : Tally) :
  (∀ p, W p) →
  Forall (λ f, S (suffix f)) media_files →
  steps Φ (collect_results self media_files counts).
Proof.
  intros HW Hall. revert counts.
  induction Hall as [|f rest Hf Hrest IH]; intros counts;
    cbn [collect_results]; run_go; auto using steps_process_media_file.
Qed.

Lemma steps_thread_pool (max_workers : Z) : steps Φ (thread_pool max_workers).
Proof.
  unfold thread_pool.
  destruct (max_workers <=? 0); [apply steps_raise|apply steps_ret].
Qed.

Lemma steps_on_post_build (media_files : list Path) :
  (∀ p, W p) →
  Forall (λ f, S (suffix f)) media_files →
  steps Φ (on_post_build self media_files).
Proof.
  intros HW Hall. unfold on_post_build.
  run_go;
    auto using steps_clean_orphaned_cache, steps_thread_pool,
      steps_collect_results.
Qed.

End Run.

(** ** Skip flags *)

#[local] Instance only_permitted_stepwise (self : Plugin) :
  Stepwise (only_permitted self).
Proof.
  split; unfold only_permitted.
  - intros _. constructor.
  - intros _ t1 _ t2 _. apply Forall_app_2.
Qed.

Lemma video_ext_not_image (ext : string) :
  ext_in ext VIDEO_EXTENSIONS = true → ext_in ext IMAGE_EXTENSIONS = false.
Proof.
  unfold ext_in, VIDEO_EXTENSIONS. rewrite bool_decide_eq_true.
  rewrite !elem_of_cons, elem_of_nil.
  intros H; repeat destruct H as [-> | H]; try contradiction; reflexivity.
Qed.

Section SkipFlags.
Context `{E : Externals} (self : Plugin).

Lemma permitted_events (media_files : list Path) :
  steps (only_permitted self) (on_post_build self media_files).
Proof.
  apply (steps_on_post_build self (λ _, True) (λ _, True)); [| | | | | |done|].
  - intros e He w. unfold trace, emit. cbn. constructor; [|constructor].
    destruct e; cbn in *; split; intros; try contradiction; auto.
  - intros p [content|] _ w;
      unfold trace, write_output, bind, get_world, put_world; cbn; constructor.
  - intros src dst w. unfold trace, copy2, bind, emit, get_world, put_world.
    cbn. case_bool_decide; cbn; [|destruct (fs w !! src); cbn];
      (constructor; [split; intros []|constructor]).
  - intros h sfx _ w. unfold trace, cache_insert, bind, emit, get_world, put_world.
    cbn. constructor; [split; intros []|constructor].
  - intros h w. unfold trace, cache_delete, bind, emit, get_world, put_world.
    cbn. destruct (cache w !! h); cbn; (constructor; [split; intros []|constructor]).
  - intros w. unfold trace, _save_cache, bind, emit, get_world, put_world, print.
    cbn. destruct (dump_fails _); cbn; repeat (constructor; [split; intros []|]); constructor.
  - apply Forall_forall. auto.
Qed.

Lemma skipped_task (media_file : Path) (w : World) :
  (ext_in (lower (suffix media_file)) VIDEO_EXTENSIONS = true
   ∧ skip_videos (config self) = true)
  ∨ (ext_in (lower (suffix media_file)) IMAGE_EXTENSIONS = true
     ∧ skip_images (config self) = true) →
  _process_media_file self media_file w = (Ok false, w, []).
Proof.
  unfold _process_media_file. intros [[Hext ->] | [-> ->]]; [|reflexivity].
  rewrite Hext, (video_ext_not_image _ Hext). reflexivity.
Qed.

Lemma skipped_counted (media_file : Path) (rest : list Path) (counts : Tally)
    (w : World) :
  _process_media_file self media_file w = (Ok false, w, []) →
  collect_results self (media_file :: rest) counts w
  = collect_results self rest
      {| processed := processed counts; skipped := S (skipped counts);
         errors := errors counts |} w.
Proof.
  intros Hrun. cbn [collect_results]. unfold bind, future_result.
  rewrite Hrun. cbn.
  now destruct (collect_results self rest _ w) as [[r w'] t].
Qed.

Lemma skipped_grows (r : result bool) (counts : Tally) :
  (skipped counts ≤ skipped (count_result r counts))%nat.
Proof. destruct r as [[|]|]; cbn; lia. Qed.

(** The loop returns, and its tally has one more skipped file for each
    file whose kind is switched off. *)
Lemma skipped_files_counted (off : Path → bool) (media_files : list Path) :
  (∀ f w, off f = true → _process_media_file self f w = (Ok false, w, [])) →
  ∀ counts w, ∃ final,
    outcome (collect_results self media_files counts) w = Ok final
    ∧ (skipped counts + length (List.filter off media_files)
       ≤ skipped final)%nat.
Proof.
  intros Hoff. induction media_files as [|f rest IH]; intros counts w.
  - exists counts. split; [reflexivity|]. cbn. lia.
  - cbn [collect_results List.filter]. unfold outcome, bind, future_result.
    destruct (_process_media_file self f w) as [[r w1] t] eqn:Hrun.
    assert (Hle : (skipped counts + (if off f then 1 else 0)
                   ≤ skipped (count_result r counts))%nat).
    { destruct (off f) eqn:Hf.
      - rewrite (Hoff f w Hf) in Hrun. injection Hrun as <- _ _. cbn. lia.
      - pose proof (skipped_grows r counts). lia. }
    destruct r as [b|]; cbn;
      [ destruct (IH (count_result (Ok b) counts) w1) as (final & Hfinal & Hn)
      | destruct (IH (count_result Raised counts) w1) as (final & Hfinal & Hn) ];
      unfold outcome in Hfinal;
      destruct (collect_results self rest _ w1) as [[r' w'] t'];
      cbn in Hfinal |- *; exists final; (split; [exact Hfinal|]);
      destruct (off f); cbn [length] in *; lia.
Qed.

End SkipFlags.

(** C8: with [skip_videos] on, the task of every video file returns
    [False] at once (no event: no hash, no cache lookup) and the loop adds
    one to [skipped] for it, so that the tally of a run has at least as
    many skipped files as the run has video files; no event of the whole
    run is a call of [shutil.which] or of the ffmpeg subprocess. With
    [skip_images] on, the same holds of image files and of Pillow. *)
Theorem skip_flags `{E : Externals} (self : Plugin) (media_files : list Path)
    (w : World) :
  (skip_videos (config self) = true →
   (∀ f rest counts w0,
      ext_in (lower (suffix f)) VIDEO_EXTENSIONS = true →
      _process_media_file self f w0 = (Ok false, w0, [])
      ∧ collect_results self (f :: rest) counts w0
        = collect_results self rest
            {| processed := processed counts; skipped := S (skipped counts);
               errors := errors counts |} w0)
   ∧ (∀ counts w0, ∃ final,
        outcome (collect_results self media_files counts) w0 = Ok final
        ∧ (skipped counts
           + length (List.filter
                       (λ f, ext_in (lower (suffix f)) VIDEO_EXTENSIONS)
                       media_files)
           ≤ skipped final)%nat)
   ∧ Forall (λ e, ¬ transcoder_event e)
       (trace (on_post_build self media_files) w))
  ∧ (skip_images (config self) = true →
     (∀ f rest counts w0,
        ext_in (lower (suffix f)) IMAGE_EXTENSIONS = true →
        _process_media_file self f w0 = (Ok false, w0, [])
        ∧ collect_results self (f :: rest) counts w0
          = collect_results self rest
              {| processed := processed counts; skipped := S (skipped counts);
                 errors := errors counts |} w0)
     ∧ (∀ counts w0, ∃ final,
          outcome (collect_results self media_files counts) w0 = Ok final
          ∧ (skipped counts
             + length (List.filter
                         (λ f, ext_in (lower (suffix f)) IMAGE_EXTENSIONS)
                         media_files)
             ≤ skipped final)%nat)
     ∧ Forall (λ e, ¬ image_backend_event e)
         (trace (on_post_build self media_files) w)).
Proof.
  pose proof (permitted_events self media_files w) as Hall.
  unfold only_permitted in Hall.
  split; intros Hskip; (split; [|split]);
    [ intros f rest counts w0 Hext;
      assert (Hrun : _process_media_file self f w0 = (Ok false, w0, []))
        by (apply skipped_task; auto);
      split; [exact Hrun | now apply skipped_counted]
    | apply skipped_files_counted; intros f w0 Hext;
      apply skipped_task; auto
    | eapply Forall_impl; [exact Hall|];
      intros e [Hv Hi] He; first [specialize (Hv He) | specialize (Hi He)];
      congruence
    | intros f rest counts w0 Hext;
      assert (Hrun : _process_media_file self f w0 = (Ok false, w0, []))
        by (apply skipped_task; auto);
      split; [exact Hrun | now apply skipped_counted]
    | apply skipped_files_counted; intros f w0 Hext;
      apply skipped_task; auto
    | eapply Forall_impl; [exact Hall|];
      intros e [Hv Hi] He; first [specialize (Hv He) | specialize (Hi He)];
      congruence ].
Qed.

(** ** Cache entries are keyed by their digest *)

Lemma inserted_app (t1 t2 : list event) :
  inserted (t1 ++ t2) = inserted t1 ∪ inserted t2.
Proof. unfold inserted. now rewrite omap_app, list_to_set_app_L. Qed.

Lemma new_entry_keyed (sfx h : string) : keyed_with sfx h (new_entry (h +:+ sfx) h).
Proof. split; reflexivity. Qed.

Lemma keyed_on_insert (S : string → Prop) (K : gset string)
    (c : gmap string json) (h sfx : string) :
  S sfx → keyed_on S K c →
  keyed_on S (K ∪ {[h]}) (<[h := new_entry (h +:+ sfx) h]> c).
Proof.
  intros HS Hc h' e Hin. rewrite lookup_insert. case_decide; subst.
  - intros [= <-]. eauto using new_entry_keyed.
  - intros He. apply (Hc h' e); [|assumption].
    apply elem_of_union in Hin as [Hin | Hin]; [assumption|].
    apply elem_of_singleton in Hin. congruence.
Qed.

Lemma keyed_on_subseteq (S : string → Prop) (K : gset string)
    (c c' : gmap string json) :
  c' ⊆ c → keyed_on S K c → keyed_on S K c'.
Proof.
  intros Hsub Hc h e Hin He. apply (Hc h e Hin).
  eapply lookup_weaken; eassumption.
Qed.

#[local] Instance keeps_keyed_stepwise (S : string → Prop) :
  Stepwise (keeps_keyed S).
Proof.
  split; unfold keeps_keyed.
  - intros w. split; [constructor|]. intros K HK. unfold inserted. cbn.
    now rewrite (right_id_L ∅ (∪)).
  - intros w1 t1 w2 t2 w3 [Hf1 H1] [Hf2 H2]. split; [now apply Forall_app_2|].
    intros K HK. rewrite inserted_app, (assoc_L (∪)). auto.
Qed.

#[local] Instance only_shrinks_stepwise : Stepwise only_shrinks.
Proof.
  split; unfold only_shrinks.
  - intros w. split; reflexivity.
  - intros w1 t1 w2 t2 w3 [H1 E1] [H2 E2]. split; [now transitivity (cache w2)|].
    rewrite inserted_app, E1, E2. set_solver.
Qed.

Section Keyed.
Context `{E : Externals} (self : Plugin) (S : string → Prop).

(** A step that leaves the cache alone and inserts nothing. *)
Lemma keeps_keyed_idle (w w' : World) (t : list event) :
  cache w' = cache w → omap inserted_key t = [] → keeps_keyed S w t w'.
Proof.
  intros Hc Ht. split.
  - clear Hc. induction t as [|e t IH]; [constructor|].
    cbn in Ht. destruct e; cbn in Ht; try discriminate;
      (constructor; [exact I | now apply IH]).
  - intros K HK. unfold inserted. rewrite Ht, Hc. cbn.
    now rewrite (right_id_L ∅ (∪)).
Qed.

Ltac prim :=
  unfold trace, after, emit, write_output, copy2, cache_insert, cache_delete,
    _save_cache, print, bind, ret, raise, get_world, put_world; cbn.

Lemma keyed_emit (e : event) : may_emit self e → steps (keeps_keyed S) (emit e).
Proof.
  intros He w. prim. apply keeps_keyed_idle; [reflexivity|].
  destruct e; try reflexivity; contradiction.
Qed.

Lemma keyed_write_output (p : Path) (output : option bytes) :
  steps (keeps_keyed S) (write_output p output).
Proof. intros w. destruct output; prim; now apply keeps_keyed_idle. Qed.

Lemma keyed_copy2 (src dst : Path) : steps (keeps_keyed S) (copy2 src dst).
Proof.
  intros w. prim. case_bool_decide; cbn; [|destruct (fs w !! src); cbn];
    now apply keeps_keyed_idle.
Qed.

Lemma keyed_cache_insert (h sfx : string) :
  S sfx → steps (keeps_keyed S) (cache_insert h (new_entry (h +:+ sfx) h)).
Proof.
  intros HS w. prim. split.
  - constructor; [|constructor]. cbn. eauto using new_entry_keyed.
  - intros K HK. unfold inserted. cbn. rewrite (right_id_L ∅ (∪)).
    now apply keyed_on_insert.
Qed.

Lemma keyed_cache_delete (h : string) : steps (keeps_keyed S) (cache_delete h).
Proof.
  intros w. prim. destruct (cache w !! h) eqn:Hh; cbn.
  - split; [repeat constructor|]. intros K HK. unfold inserted. cbn.
    rewrite (right_id_L ∅ (∪)).
    eapply keyed_on_subseteq; [apply delete_subseteq | exact HK].
  - now apply keeps_keyed_idle.
Qed.

Lemma keyed_save_cache : steps (keeps_keyed S) (_save_cache self).
Proof.
  intros w. prim. destruct (dump_fails _); cbn; now apply keeps_keyed_idle.
Qed.

Lemma task_keeps_keyed (media_file : Path) :
  S (suffix media_file) →
  steps (keeps_keyed S) (_process_media_file self media_file).
Proof.
  intros HS. apply (steps_process_media_file self S (λ _, True));
    auto using keyed_emit, keyed_write_output, keyed_copy2,
      keyed_cache_insert.
Qed.

Lemma run_keeps_keyed (media_files : list Path) :
  Forall (λ f, S (suffix f)) media_files →
  steps (keeps_keyed S) (on_post_build self media_files).
Proof.
  intros HS. apply (steps_on_post_build self S (λ _, True));
    auto using keyed_emit, keyed_write_output, keyed_copy2,
      keyed_cache_insert, keyed_cache_delete, keyed_save_cache.
Qed.

Lemma prune_only_shrinks : steps only_shrinks (_clean_orphaned_cache self).
Proof.
  apply (steps_clean_orphaned_cache self).
  - intros e He w. prim. split; [reflexivity|].
    destruct e; try reflexivity; contradiction.
  - intros h w. prim. destruct (cache w !! h); cbn; split; try reflexivity.
    apply delete_subseteq.
Qed.

End Keyed.

(** C10: an insertion stores under the digest [h] an entry whose
    [original_hash] is [h] and whose [cached_filename] is [h] followed by
    the suffix of the processed file, replacing any entry at [h]; pruning
    only removes entries; and through every task, through pruning and
    through a whole run, the entries at keys inserted so far keep that
    shape. *)
Theorem inserted_entries_keyed `{E : Externals} (self : Plugin)
    (media_files : list Path) (w : World) (K : gset string) :
  let S := suffix_among media_files in
  (∀ h entry w0, cache (after (cache_insert h entry) w0) !! h = Some entry)
  ∧ (∀ f, f ∈ media_files →
       let task := _process_media_file self f in
       Forall (insert_keyed (λ sfx, sfx = suffix f)) (trace task w)
       ∧ (keyed_on S K (cache w) →
          keyed_on S (K ∪ inserted (trace task w)) (cache (after task w))))
  ∧ (let prune := _clean_orphaned_cache self in
     cache (after prune w) ⊆ cache w
     ∧ (keyed_on S K (cache w) → keyed_on S K (cache (after prune w))))
  ∧ (let run := on_post_build self media_files in
     Forall (insert_keyed S) (trace run w)
     ∧ keyed_on S (inserted (trace run w)) (cache (after run w))).
Proof.
  intros S. split; [|split; [|split]].
  - intros h entry w0. unfold after, cache_insert, bind, emit, get_world,
      put_world. cbn. apply lookup_insert_eq.
  - intros f Hf task. split.
    + apply (task_keeps_keyed self (λ sfx, sfx = suffix f) f eq_refl w).
    + apply (task_keeps_keyed self S f). now exists f.
  - intros prune. destruct (prune_only_shrinks self w) as [Hsub _].
    split; [exact Hsub|]. now apply keyed_on_subseteq.
  - intros run.
    destruct (run_keeps_keyed self S media_files) with (w := w) as [Hev Hinv].
    { apply Forall_forall. intros f Hf. now exists f. }
    split; [exact Hev|]. fold run in Hinv.
    specialize (Hinv ∅). rewrite (left_id_L ∅ (∪)) in Hinv. apply Hinv.
    intros h e Hh. now apply not_elem_of_empty in Hh.
Qed.

(** ** Orphan pruning *)

Section Prune.
Context `{E : Externals} (self : Plugin).

Lemma find_orphaned_run (entries : list (string * json)) (w : World) :
  Forall (λ kv, is_Some (entry_filename kv.2)) entries →
  outcome (find_orphaned self entries) w = Ok (orphans self (fs w) entries)
  ∧ after (find_orphaned self entries) w = w
  ∧ Forall exists_event (trace (find_orphaned self entries) w).
Proof.
  induction 1 as [|[h e] rest [filename He] Hrest (IHo & IHa & IHt)].
  - repeat split. constructor.
  - cbn in He. unfold outcome, after, trace in *.
    cbn [find_orphaned]. unfold cached_file_of. rewrite He.
    unfold path_exists, bind, ret, emit, get_world. cbn.
    destruct (find_orphaned self rest w) as [[r w'] t]. cbn in *. subst r w'.
    unfold orphans, artifact_exists. rewrite He.
    repeat split.
    + case_bool_decide as Hex; cbn; reflexivity.
    + constructor; [exact I|]. rewrite app_nil_r. exact IHt.
Qed.

Lemma delete_all_run (orphaned : list string) (w : World) :
  NoDup orphaned → (∀ h, h ∈ orphaned → is_Some (cache w !! h)) →
  outcome (delete_all orphaned) w = Ok ()
  ∧ fs (after (delete_all orphaned) w) = fs w
  ∧ record (after (delete_all orphaned) w) = record w
  ∧ (∀ h, cache (after (delete_all orphaned) w) !! h
          = if decide (h ∈ orphaned) then None else cache w !! h)
  ∧ (size (cache (after (delete_all orphaned) w)) + length orphaned
     = size (cache w))%nat.
Proof.
  intros Hnd. revert w.
  induction Hnd as [|h rest Hnotin Hnd IH]; intros w Hin.
  - repeat split; try reflexivity. cbn. lia.
  - destruct (Hin h) as [e He]; [left|].
    unfold outcome, after in *. cbn [delete_all].
    unfold cache_delete, bind, emit, get_world, put_world. cbn. rewrite He. cbn.
    specialize (IH (set_cache (delete h (cache w)) w)).
    destruct (delete_all rest _) as [[r w'] t]. cbn in *.
    destruct IH as (-> & Hfs & Hrec & Hlook & Hsize).
    { intros h' Hh'. rewrite lookup_delete_ne by (intros ->; contradiction).
      apply Hin. now right. }
    repeat split; try assumption.
    + intros h'. rewrite Hlook. rewrite lookup_delete.
      repeat case_decide; subst; try reflexivity; exfalso;
        match goal with
        | H : ¬ _ ∈ _ :: _ |- _ => apply H; constructor; assumption
        | H : ¬ ?x ∈ ?x :: _ |- _ => apply H; constructor
        | H : _ ∈ _ :: _ |- _ => apply elem_of_cons in H as [?|?]; congruence
        end.
    + rewrite map_size_delete, He in Hsize. cbn in Hsize.
      assert (0 < size (cache w))%nat; [|lia].
      destruct (decide (size (cache w) = 0%nat)) as [H0|]; [|lia].
      apply map_size_empty_inv in H0. rewrite H0, lookup_empty in He.
      discriminate.
Qed.


Lemma orphans_NoDup (files : gmap Path bytes) (entries : list (string * json)) :
  NoDup entries.*1 → NoDup (orphans self files entries).
Proof.
  unfold orphans. induction entries as [|[h e] rest IH]; [constructor|].
  rewrite fmap_cons, NoDup_cons, filter_cons. intros [Hh Hrest].
  case_decide; [|auto]. rewrite fmap_cons. apply NoDup_cons. split; [|auto].
  intros Hin. apply Hh. apply list_elem_of_fmap in Hin as ([h' e'] & -> & Hin).
  apply list_elem_of_filter in Hin as [_ Hin].
  apply list_elem_of_fmap. now exists (h', e').
Qed.

Lemma elem_of_orphans (w : World) (h : string) :
  h ∈ orphans self (fs w) (map_to_list (cache w))
  ↔ ∃ e, cache w !! h = Some e ∧ artifact_exists self (fs w) e = false.
Proof.
  unfold orphans. rewrite list_elem_of_fmap. split.
  - intros ([h' e] & -> & Hin). apply list_elem_of_filter in Hin as [Hno Hin].
    apply elem_of_map_to_list in Hin. eauto.
  - intros (e & He & Hno). exists (h, e). split; [reflexivity|].
    apply list_elem_of_filter. split; [exact Hno|].
    now apply elem_of_map_to_list.
Qed.

Lemma delete_all_trace (orphaned : list string) (w : World) :
  Forall (λ e, ∀ m, e ≠ EvPrint m) (trace (delete_all orphaned) w).
Proof.
  revert w. induction orphaned as [|h rest IH]; intros w; [constructor|].
  unfold trace in *. cbn [delete_all].
  unfold cache_delete, bind, emit, get_world, put_world. cbn.
  destruct (cache w !! h); cbn; [|repeat constructor; discriminate].
  specialize (IH (set_cache (delete h (cache w)) w)).
  destruct (delete_all rest _) as [[r w'] t]. cbn in *.
  constructor; [discriminate | exact IH].
Qed.

Lemma clean_orphaned_cache_run (w : World) :
  (∀ h e, cache w !! h = Some e → is_Some (entry_filename e)) →
  let orphaned := orphans self (fs w) (map_to_list (cache w)) in
  ∃ t1,
    _clean_orphaned_cache self w
    = (Ok PyNone, after (delete_all orphaned) w,
       t1 ++ trace (delete_all orphaned) w
       ++ match orphaned with
          | [] => []
          | _ :: _ => [EvPrint (LogOrphans (length orphaned))]
          end)
    ∧ Forall exists_event t1.
Proof.
  intros Hwf orphaned.
  assert (HF : Forall (λ kv, is_Some (entry_filename kv.2))
                 (map_to_list (cache w))).
  { apply Forall_forall. intros [h e] Hin. apply elem_of_map_to_list in Hin.
    cbn. eauto. }
  destruct (find_orphaned_run _ w HF) as (Ho & Ha & Ht).
  destruct (delete_all_run orphaned w) as (Do & _).
  { apply orphans_NoDup, NoDup_fst_map_to_list. }
  { intros h Hh. apply elem_of_orphans in Hh as (e & -> & _). eauto. }
  exists (trace (find_orphaned self (map_to_list (cache w))) w).
  split; [|exact Ht].
  unfold _clean_orphaned_cache.
  rewrite (run_eta (bind _ _)).
  assert (Hget : outcome get_world w = Ok w) by reflexivity.
  bind_with Hget.
  change (after get_world w) with w. change (trace get_world w) with (@nil event).
  bind_with Ho. rewrite Ha. fold orphaned. bind_with Do.
  destruct orphaned as [|h rest]; cbn; rewrite ?app_nil_r; reflexivity.
Qed.

End Prune.

(** C6, amended: on a cache whose entries each name an artifact file,
    [_clean_orphaned_cache] keeps, unchanged, every entry whose artifact
    exists and removes every entry whose artifact is missing, touches no
    file, prints the number of removed entries when it is positive, and
    returns [None]. *)
Theorem prune_orphans `{E : Externals} (self : Plugin) (w : World) :
  (∀ h e, cache w !! h = Some e → is_Some (entry_filename e)) →
  let prune := _clean_orphaned_cache self in
  let removed := (size (cache w) - size (cache (after prune w)))%nat in
  outcome prune w = Ok PyNone
  ∧ fs (after prune w) = fs w
  ∧ (∀ h, cache (after prune w) !! h
          = match cache w !! h with
            | Some e => if artifact_exists self (fs w) e then Some e else None
            | None => None
            end)
  ∧ (∀ n, EvPrint (LogOrphans n) ∈ trace prune w
          ↔ n = removed ∧ (0 < removed)%nat).
Proof.
  intros Hwf prune removed. subst prune removed.
  destruct (clean_orphaned_cache_run self w Hwf) as (t1 & Hrun & Ht1).
  set (orphaned := orphans self (fs w) (map_to_list (cache w))) in *.
  destruct (delete_all_run orphaned w) as (_ & Dfs & _ & Dlook & Dsize).
  { apply orphans_NoDup, NoDup_fst_map_to_list. }
  { intros h Hh. apply elem_of_orphans in Hh as (e & -> & _). eauto. }
  unfold outcome, after, trace. rewrite Hrun. cbn [fst snd].
  split; [reflexivity|]. split; [exact Dfs|]. split.
  - intros h. rewrite Dlook. case_decide as Hin.
    + apply elem_of_orphans in Hin as (e & -> & ->). reflexivity.
    + destruct (cache w !! h) as [e|] eqn:He; [|reflexivity].
      destruct (artifact_exists self (fs w) e) eqn:Hex; [reflexivity|].
      exfalso. apply Hin, elem_of_orphans. eauto.
  - intros n.
    assert (Hlen : (size (cache w) - size (cache (after (delete_all orphaned) w))
                   = length orphaned)%nat) by lia.
    rewrite Hlen.
    assert (Hnot : ∀ t, Forall (λ e, ∀ m, e ≠ EvPrint m) t →
                        ¬ EvPrint (LogOrphans n) ∈ t).
    { intros t Ht Hin. rewrite Forall_forall in Ht.
      now apply (Ht _ Hin (LogOrphans n)). }
    rewrite !elem_of_app. split.
    + intros [Hin | [Hin | Hin]].
      * exfalso. revert Hin. apply Hnot. eapply Forall_impl; [exact Ht1|].
        intros [] He m; try contradiction; discriminate.
      * exfalso. revert Hin. apply Hnot, delete_all_trace.
      * destruct orphaned; [now apply elem_of_nil in Hin|].
        apply list_elem_of_singleton in Hin. injection Hin as ->. cbn. lia.
    + intros [-> Hpos]. right; right. destruct orphaned; [cbn in Hpos; lia|].
      now apply list_elem_of_singleton.
Qed.

(** ** A failing backend *)

#[local] Instance backend_frame_stepwise (artifact : Path) :
  Stepwise (backend_frame artifact).
Proof.
  split; unfold backend_frame.
  - intros w. repeat split. constructor.
  - intros w1 t1 w2 t2 w3 (C1 & R1 & F1 & Q1) (C2 & R2 & F2 & Q2).
    repeat split; [congruence | congruence | | now apply Forall_app_2].
    intros p Hp. now rewrite F2, F1.
Qed.

Section FailingBackend.
Context `{E : Externals} (self : Plugin).

Lemma frame_emit (artifact : Path) (e : event) :
  may_emit self e → steps (backend_frame artifact) (emit e).
Proof.
  intros He w. unfold trace, after, emit. cbn. repeat split.
  constructor; [|constructor]. destruct e; try exact I; contradiction.
Qed.

Lemma frame_write_output (artifact p : Path) (output : option bytes) :
  p = artifact → steps (backend_frame artifact) (write_output p output).
Proof.
  intros -> w. unfold trace, after, write_output, bind, get_world, put_world.
  destruct output as [content|]; cbn -[lookup insert]; repeat split;
    try constructor.
  intros p Hp. unfold set_fs. cbn [fs]. now rewrite lookup_insert_ne.
Qed.

Lemma compress_image_frame (media_file : Path) (h : string) :
  skip_images (config self) = false →
  steps (backend_frame (path_join (self_cache_dir self) (h +:+ suffix media_file)))
    (_compress_image self media_file h).
Proof.
  intros Hskip.
  eapply (steps_compress_image self (λ p, p = path_join _ _));
    eauto using frame_emit, frame_write_output.
Qed.

Lemma compress_video_frame (media_file : Path) (h : string) :
  skip_videos (config self) = false →
  steps (backend_frame (path_join (self_cache_dir self) (h +:+ suffix media_file)))
    (_compress_video self media_file h).
Proof.
  intros Hskip.
  eapply (steps_compress_video self (λ p, p = path_join _ _));
    eauto using frame_emit, frame_write_output.
Qed.

Lemma compute_file_hash_run (p : Path) (w : World) :
  after (_compute_file_hash p) w = w
  ∧ trace (_compute_file_hash p) w = [EvOpenRead p].
Proof.
  unfold after, trace, _compute_file_hash, bind, emit, get_world. cbn.
  destruct (fs w !! p); split; reflexivity.
Qed.

Lemma use_cached_miss (media_file : Path) (h : string) (w : World) :
  outcome (use_cached self media_file h) w = Ok None →
  after (use_cached self media_file h) w = w
  ∧ Forall quiet (trace (use_cached self media_file h) w).
Proof.
  unfold outcome, after, trace, use_cached, with_lock, cache_lookup,
    cached_file_of, path_exists, copy2, bind, ret, raise, emit, get_world,
    put_world.
  cbn. destruct (cache w !! h) as [entry|]; cbn.
  - destruct (entry_filename entry) as [filename|]; cbn; [|discriminate].
    case_bool_decide as Hex; cbn.
    + case_bool_decide; cbn; [discriminate|].
      destruct Hex as [content ->]. cbn. discriminate.
    + intros _. split; [reflexivity|]. repeat constructor.
  - intros _. split; [reflexivity|]. repeat constructor.
Qed.

Lemma failed_task_run (media_file : Path) (w : World) (h : string) :
  backend_fails self media_file w h →
  let task := _process_media_file self media_file in
  outcome task w = Ok false
  ∧ backend_frame (path_join (self_cache_dir self) (h +:+ suffix media_file))
      w (trace task w) (after task w).
Proof.
  intros Hfail task. subst task.
  assert (Hgo : ∀ (backend : string → M (option Path)),
            outcome (_compute_file_hash media_file) w = Ok h →
            outcome (use_cached self media_file h) w = Ok None →
            outcome (backend h) w = Ok None →
            steps (backend_frame (path_join (self_cache_dir self)
                                    (h +:+ suffix media_file))) (backend h) →
            let task :=
              file_hash ← _compute_file_hash media_file;
              returned ← use_cached self media_file file_hash;
              match returned with
              | Some b => ret b
              | None =>
                  compressed_file ← backend file_hash;
                  use_compressed media_file file_hash compressed_file
              end in
            outcome task w = Ok false
            ∧ backend_frame (path_join (self_cache_dir self)
                               (h +:+ suffix media_file))
                w (trace task w) (after task w)).
  { intros backend Hh Hmiss Hnone Hframe task. subst task.
    destruct (compute_file_hash_run media_file w) as [Ha Ht].
    destruct (use_cached_miss media_file h w Hmiss) as [Hua Hut].
    bind_with Hh. rewrite Ha, Ht. bind_with Hmiss. rewrite Hua.
    bind_with Hnone.
    specialize (Hframe w). destruct Hframe as (Hc & Hr & Hf & Hq).
    unfold use_compressed, bind, ret, print, emit. cbn -[app].
    split; [reflexivity|]. repeat split; try assumption.
    apply Forall_app_2; [repeat constructor|].
    apply Forall_app_2; [assumption|].
    apply Forall_app_2; [assumption|]. repeat constructor. }
  unfold _process_media_file.
  destruct Hfail as [Hext Hskip Hh Hmiss Hnone | Hext Hskip Hh Hmiss Hnone].
  - rewrite Hext, Hskip. cbn [andb].
    destruct (ext_in _ VIDEO_EXTENSIONS && _) eqn:Hv.
    { apply andb_true_iff in Hv as [Hv _].
      apply video_ext_not_image in Hv. congruence. }
    exact (Hgo (_compress_image self media_file) Hh Hmiss Hnone
             (compress_image_frame _ _ Hskip)).
  - rewrite (video_ext_not_image _ Hext), Hext, Hskip. cbn [andb].
    exact (Hgo (_compress_video self media_file) Hh Hmiss Hnone
             (compress_video_frame _ _ Hskip)).
Qed.

End FailingBackend.

Section Batch.
Context `{E : Externals} (self : Plugin).

Lemma collect_results_outcomes (media_files : list Path) (counts : Tally)
    (w : World) :
  outcome (collect_results self media_files counts) w
  = Ok (tally counts (outcomes self media_files w))
  ∧ after (collect_results self media_files counts) w
    = after_all self media_files w.
Proof.
  revert counts w. induction media_files as [|f rest IH]; intros counts w.
  - split; reflexivity.
  - cbn [collect_results outcomes after_all tally foldl].
    assert (Hfut : outcome (future_result (_process_media_file self f)) w
                   = Ok (outcome (_process_media_file self f) w)).
    { unfold outcome, future_result.
      now destruct (_process_media_file self f w) as [[r w'] t]. }
    assert (Hafter : after (future_result (_process_media_file self f)) w
                     = after (_process_media_file self f) w).
    { unfold after, future_result.
      now destruct (_process_media_file self f w) as [[r w'] t]. }
    bind_with Hfut. rewrite Hafter.
    set (r := outcome (_process_media_file self f) w).
    set (w1 := after (_process_media_file self f) w).
    assert (Hlog : outcome (match r with
                            | Ok _ => ret ()
                            | Raised => print (LogTaskError f)
                            end) w1 = Ok ()
                   ∧ after (match r with
                            | Ok _ => ret ()
                            | Raised => print (LogTaskError f)
                            end) w1 = w1).
    { destruct r; split; reflexivity. }
    destruct Hlog as [Hlo Hla]. bind_with Hlo. rewrite Hla. apply IH.
Qed.

Lemma outcomes_app (l1 l2 : list Path) (w : World) :
  outcomes self (l1 ++ l2) w
  = outcomes self l1 w ++ outcomes self l2 (after_all self l1 w).
Proof.
  revert w. induction l1 as [|f l1 IH]; intros w; [reflexivity|].
  cbn [app outcomes after_all]. now rewrite IH.
Qed.

End Batch.

Lemma world_eq (w w' : World) :
  cache w' = cache w → fs w' = fs w → record w' = record w → w' = w.
Proof. destruct w, w'. cbn. now intros -> -> ->. Qed.


(** C4: when the backend of a file outside the cache directory fails, the
    task returns [False], the original and every other file outside the
    cache directory hold the bytes they held before, and the task copies
    nothing. *)
Theorem failed_backend_keeps_original `{E : Externals} (self : Plugin)
    (f : Path) (w : World) (h : string) :
  backend_fails self f w h →
  parent f ≠ self_cache_dir self →
  let task := _process_media_file self f in
  outcome task w = Ok false
  ∧ fs (after task w) !! f = fs w !! f
  ∧ (∀ p, parent p ≠ self_cache_dir self → fs (after task w) !! p = fs w !! p)
  ∧ Forall (λ e, ∀ src dst, e ≠ EvCopy src dst) (trace task w).
Proof.
  intros Hfail Hout task.
  destruct (failed_task_run self f w h Hfail) as (Hres & _ & _ & Hf & Hq).
  fold task in Hres, Hf, Hq.
  assert (Hkeep : ∀ p, parent p ≠ self_cache_dir self →
                       fs (after task w) !! p = fs w !! p).
  { intros p Hp. apply Hf. intros ->. now apply Hp. }
  split; [exact Hres|]. split; [now apply Hkeep|]. split; [exact Hkeep|].
  eapply Forall_impl; [exact Hq|]. intros e He src dst ->. exact He.
Qed.

(** ** The per-file task, case by case *)

Lemma outcome_bind_raised {A B : Type} (m : M A) (k : A → M B) (w : World) :
  outcome m w = Raised → outcome (bind m k) w = Raised.
Proof. intros Ho. unfold outcome at 1. now rewrite (bind_raised _ _ _ Ho). Qed.

Lemma after_bind_raised {A B : Type} (m : M A) (k : A → M B) (w : World) :
  outcome m w = Raised → after (bind m k) w = after m w.
Proof. intros Ho. unfold after at 1. now rewrite (bind_raised _ _ _ Ho). Qed.

Lemma trace_bind_raised {A B : Type} (m : M A) (k : A → M B) (w : World) :
  outcome m w = Raised → trace (bind m k) w = trace m w.
Proof. intros Ho. unfold trace at 1. now rewrite (bind_raised _ _ _ Ho). Qed.

Section Task.
Context `{E : Externals} (self : Plugin).

Lemma compute_file_hash_ok (f : Path) (w : World) (content : bytes) :
  fs w !! f = Some content →
  outcome (_compute_file_hash f) w = Ok (file_digest content).
Proof.
  intros Hf. unfold outcome, _compute_file_hash, bind, emit, get_world. cbn.
  now rewrite Hf.
Qed.

Lemma use_cached_hit (f : Path) (h : string) (w : World) (entry : json)
    (filename : string) (compressed : bytes) :
  cache w !! h = Some entry →
  entry_filename entry = Some filename →
  fs w !! path_join (self_cache_dir self) filename = Some compressed →
  path_join (self_cache_dir self) filename ≠ f →
  use_cached self f h w
  = (Ok (Some false), set_fs (<[f := compressed]> (fs w)) w,
     [EvAcquire; EvLookup h;
      EvExists (path_join (self_cache_dir self) filename);
      EvCopy (path_join (self_cache_dir self) filename) f; EvRelease]).
Proof.
  intros Hentry Hname Hart Hne.
  unfold use_cached, with_lock, cache_lookup, cached_file_of, path_exists,
    copy2, bind, ret, raise, emit, get_world, put_world.
  cbn. rewrite Hentry. cbn. rewrite Hname. cbn. rewrite Hart. cbn.
  rewrite bool_decide_eq_false_2 by exact Hne. rewrite Hart. reflexivity.
Qed.

Lemma use_cached_miss_ok (f : Path) (h : string) (w : World) :
  cache_miss self w h → outcome (use_cached self f h) w = Ok None.
Proof.
  intros Hmiss.
  unfold outcome, use_cached, with_lock, cache_lookup, cached_file_of,
    path_exists, copy2, bind, ret, raise, emit, get_world, put_world.
  cbn. destruct (cache w !! h) as [entry|] eqn:Hentry; cbn; [|reflexivity].
  destruct (Hmiss entry Hentry) as (filename & Hname & Hart).
  rewrite Hname. cbn. rewrite Hart. reflexivity.
Qed.

(** The statistics line of a backend that left [out] at [artifact]. *)
Lemma print_stats_run (f artifact : Path) (w : World) (content out : bytes) :
  fs w !! f = Some content → fs w !! artifact = Some out →
  print_stats f artifact w
  = (if bool_decide (length content = 0%nat) then Raised else Ok (), w,
     [EvStat f; EvStat artifact]
     ++ if bool_decide (length content = 0%nat) then []
        else [EvPrint (LogStats (name f) (length content) (length out))]).
Proof.
  intros Hf Hart.
  unfold print_stats, stat_size, print, bind, ret, raise, emit, get_world.
  cbn. rewrite Hf. cbn. rewrite Hart. cbn.
  case_bool_decide; reflexivity.
Qed.

Lemma compress_image_saved (f : Path) (h : string) (w : World)
    (content out : bytes) :
  fs w !! f = Some content → content ≠ [] →
  artifact_path self f h ≠ f →
  pil_compress (config self) (fs w) f (artifact_path self f h) = PilSaved out →
  outcome (_compress_image self f h) w = Ok (Some (artifact_path self f h))
  ∧ after (_compress_image self f h) w
    = set_fs (<[artifact_path self f h := out]> (fs w)) w.
Proof.
  intros Hf Hne Hart Hpil.
  assert (Hlen : length content ≠ 0%nat) by (now destruct content).
  unfold outcome, after, _compress_image, try_except, pil_save, write_output.
  fold (artifact_path self f h).
  set (artifact := artifact_path self f h) in *.
  unfold bind, emit, get_world, put_world, ret. cbn -[print_stats].
  rewrite Hpil. cbn -[print_stats].
  rewrite (print_stats_run f artifact _ content out).
  - rewrite bool_decide_eq_false_2 by exact Hlen. cbn. split; reflexivity.
  - cbn. now rewrite lookup_insert_ne.
  - cbn. apply lookup_insert_eq.
Qed.

Lemma compress_video_saved (f : Path) (h : string) (w : World)
    (content out : bytes) :
  fs w !! f = Some content → content ≠ [] →
  artifact_path self f h ≠ f →
  which_ffmpeg = true →
  ffmpeg_run (ffmpeg_cmd self f (artifact_path self f h)) (fs w)
  = RunCompleted 0 (Some out) →
  outcome (_compress_video self f h) w = Ok (Some (artifact_path self f h))
  ∧ after (_compress_video self f h) w
    = set_fs (<[artifact_path self f h := out]> (fs w)) w.
Proof.
  intros Hf Hne Hart Hwhich Hrun.
  assert (Hlen : length content ≠ 0%nat) by (now destruct content).
  unfold outcome, after, _compress_video, try_except, write_output,
    path_exists.
  fold (artifact_path self f h).
  set (artifact := artifact_path self f h) in *.
  rewrite Hwhich.
  unfold bind, emit, get_world, put_world, ret. cbn -[print_stats ffmpeg_cmd].
  rewrite Hrun. cbn -[print_stats ffmpeg_cmd]. rewrite lookup_insert_eq.
  cbn -[print_stats ffmpeg_cmd].
  rewrite (print_stats_run f artifact _ content out).
  - rewrite bool_decide_eq_false_2 by exact Hlen. cbn. split; reflexivity.
  - cbn. now rewrite lookup_insert_ne.
  - cbn. apply lookup_insert_eq.
Qed.

Lemma use_compressed_run (f p : Path) (h : string) (w : World) (out : bytes) :
  fs w !! p = Some out → p ≠ f →
  outcome (use_compressed f h (Some p)) w = Ok true
  ∧ after (use_compressed f h (Some p)) w
    = set_fs (<[f := out]> (fs w))
        (set_cache (<[h := new_entry (name p) h]> (cache w)) w).
Proof.
  intros Hp Hne.
  unfold outcome, after, use_compressed, with_lock, cache_insert, path_exists,
    copy2, stat_size, print, bind, ret, raise, emit, get_world, put_world.
  cbn. rewrite Hp. cbn.
  rewrite bool_decide_eq_false_2 by exact Hne. rewrite Hp. cbn.
  rewrite lookup_insert_eq. cbn. split; reflexivity.
Qed.

(** The task of a file the flags do not skip. *)
Lemma task_not_skipped (f : Path) :
  not_skipped self f →
  _process_media_file self f
  = (file_hash ← _compute_file_hash f;
     returned ← use_cached self f file_hash;
     match returned with
     | Some b => ret b
     | None =>
         if ext_in (lower (suffix f)) IMAGE_EXTENSIONS then
           compressed_file ← _compress_image self f file_hash;
           use_compressed f file_hash compressed_file
         else if ext_in (lower (suffix f)) VIDEO_EXTENSIONS then
           compressed_file ← _compress_video self f file_hash;
           use_compressed f file_hash compressed_file
         else ret false
     end).
Proof. intros [Himg Hvid]. unfold _process_media_file. now rewrite Himg, Hvid. Qed.

(** What a task that returns [True] has done. *)
Lemma use_compressed_true (f : Path) (h : string) (c : option Path)
    (w : World) :
  outcome (use_compressed f h c) w = Ok true →
  ∃ p out, c = Some p ∧ fs w !! p = Some out ∧ p ≠ f
    ∧ after (use_compressed f h c) w
      = set_fs (<[f := out]> (fs w))
          (set_cache (<[h := new_entry (name p) h]> (cache w)) w).
Proof.
  destruct c as [p|].
  - destruct (fs w !! p) as [out|] eqn:Hp.
    + destruct (decide (p = f)) as [->|Hne].
      * unfold outcome, use_compressed, with_lock, cache_insert, path_exists,
          copy2, stat_size, print, bind, ret, raise, emit, get_world,
          put_world.
        cbn. rewrite Hp. cbn. rewrite bool_decide_eq_true_2 by reflexivity.
        discriminate.
      * intros _. exists p, out. repeat split; try assumption.
        apply (use_compressed_run f p h w out Hp Hne).
    + unfold outcome, use_compressed, path_exists, print, bind, ret, emit,
        get_world.
      cbn. rewrite Hp. cbn. discriminate.
  - unfold outcome, use_compressed, print, bind, ret, emit. cbn. discriminate.
Qed.

Lemma use_cached_returns (f : Path) (h : string) :
  returns (λ r, r = None ∨ r = Some false) (use_cached self f h).
Proof.
  intros w r. unfold outcome, use_cached, with_lock.
  set (body := bind (cache_lookup h) _).
  assert (Hb : returns (λ r, r = None ∨ r = Some false) body).
  { subst body. returns_go; auto. }
  specialize (Hb w r). unfold outcome in Hb.
  destruct (body w) as [[r' w'] t']. exact Hb.
Qed.

(** An empty original makes the statistics line divide by zero. *)
Lemma compress_image_empty (f : Path) (h : string) (w : World) :
  fs w !! f = Some [] → artifact_path self f h ≠ f →
  outcome (_compress_image self f h) w = Ok None.
Proof.
  intros Hf Hart.
  unfold outcome, _compress_image, try_except, pil_save, write_output.
  fold (artifact_path self f h).
  set (artifact := artifact_path self f h) in *.
  unfold bind, emit, get_world, put_world, ret, raise.
  cbn -[print_stats].
  destruct (pil_compress _ _ _ _) as [[partial|]|out]; cbn -[print_stats];
    try reflexivity.
  rewrite (print_stats_run f artifact _ [] out).
  - reflexivity.
  - cbn. now rewrite lookup_insert_ne.
  - cbn. apply lookup_insert_eq.
Qed.

Lemma compress_video_empty (f : Path) (h : string) (w : World) :
  fs w !! f = Some [] → artifact_path self f h ≠ f →
  outcome (_compress_video self f h) w = Ok None.
Proof.
  intros Hf Hart.
  unfold outcome, _compress_video, try_except, write_output, path_exists.
  fold (artifact_path self f h).
  set (artifact := artifact_path self f h) in *.
  destruct which_ffmpeg; [|reflexivity].
  unfold bind, emit, get_world, put_world, ret, raise, print.
  cbn -[print_stats ffmpeg_cmd].
  destruct (ffmpeg_run _ _) as [|returncode output];
    cbn -[print_stats ffmpeg_cmd]; [reflexivity|].
  destruct output as [out|]; cbn -[print_stats ffmpeg_cmd].
  - destruct (returncode =? 0); cbn -[print_stats ffmpeg_cmd];
      [|reflexivity].
    rewrite lookup_insert_eq. cbn -[print_stats ffmpeg_cmd].
    rewrite (print_stats_run f artifact _ [] out).
    + reflexivity.
    + cbn. now rewrite lookup_insert_ne.
    + cbn. apply lookup_insert_eq.
  - destruct (returncode =? 0); cbn -[print_stats ffmpeg_cmd];
      [|reflexivity].
    destruct (fs w !! artifact) as [old|] eqn:Hold;
      cbn -[print_stats ffmpeg_cmd]; [|reflexivity].
    rewrite (print_stats_run f artifact _ [] old Hf Hold). reflexivity.
Qed.

End Task.

(** X3: on a cache hit the task returns [False], the file holds the bytes
    of the cached artifact, and the cache mapping, the record and every
    other file are as before. *)
Theorem cache_hit_replaces_file `{E : Externals} (self : Plugin)
    (f : Path) (w : World) (content compressed : bytes) (entry : json)
    (filename : string) :
  not_skipped self f →
  fs w !! f = Some content →
  cache w !! file_digest content = Some entry →
  entry_filename entry = Some filename →
  fs w !! path_join (self_cache_dir self) filename = Some compressed →
  path_join (self_cache_dir self) filename ≠ f →
  outcome (_process_media_file self f) w = Ok false
  ∧ after (_process_media_file self f) w
    = set_fs (<[f := compressed]> (fs w)) w.
Proof.
  intros Hrun Hf Hentry Hname Hart Hne.
  rewrite (task_not_skipped self f Hrun).
  pose proof (compute_file_hash_ok f w content Hf) as Hh.
  destruct (compute_file_hash_run f w) as [Ha _].
  pose proof (use_cached_hit self f _ w entry filename compressed
                Hentry Hname Hart Hne) as Hhit.
  assert (Hu : outcome (use_cached self f (file_digest content)) w
               = Ok (Some false)) by (unfold outcome; now rewrite Hhit).
  assert (Hua : after (use_cached self f (file_digest content)) w
                = set_fs (<[f := compressed]> (fs w)) w)
    by (unfold after; now rewrite Hhit).
  bind_with Hh. rewrite Ha. bind_with Hu. rewrite Hua. split; reflexivity.
Qed.

(** X4: an image with no usable cache entry that Pillow compresses is
    processed: the task returns [True], stores the entry of the artifact
    under the digest of the original bytes, and leaves Pillow's output
    both at the artifact path and in place of the original. *)
Theorem image_compressed_and_cached `{E : Externals} (self : Plugin)
    (f : Path) (w : World) (content out : bytes) :
  let h := file_digest content in
  let artifact := artifact_path self f h in
  ext_in (lower (suffix f)) IMAGE_EXTENSIONS = true →
  skip_images (config self) = false →
  fs w !! f = Some content → content ≠ [] →
  cache_miss self w h →
  artifact ≠ f →
  pil_compress (config self) (fs w) f artifact = PilSaved out →
  outcome (_process_media_file self f) w = Ok true
  ∧ after (_process_media_file self f) w
    = {| cache := <[h := new_entry (h +:+ suffix f) h]> (cache w);
         fs := <[f := out]> (<[artifact := out]> (fs w));
         record := record w |}.
Proof.
  intros h artifact Himg Hskip Hf Hne Hmiss Hart Hpil.
  assert (Hrun : not_skipped self f).
  { split; [now rewrite Hskip, andb_false_r|].
    destruct (ext_in _ VIDEO_EXTENSIONS) eqn:Hv; [|reflexivity].
    apply video_ext_not_image in Hv. congruence. }
  rewrite (task_not_skipped self f Hrun), Himg.
  pose proof (compute_file_hash_ok f w content Hf) as Hh.
  destruct (compute_file_hash_run f w) as [Ha _].
  pose proof (use_cached_miss_ok self f h w Hmiss) as Hu.
  destruct (use_cached_miss self f h w Hu) as [Hua _].
  destruct (compress_image_saved self f h w content out Hf Hne Hart Hpil)
    as [Hc Hca].
  bind_with Hh. rewrite Ha. fold h. bind_with Hu. rewrite Hua.
  bind_with Hc. rewrite Hca.
  destruct (use_compressed_run f artifact h
              (set_fs (<[artifact := out]> (fs w)) w) out) as [Ho Hoa].
  { cbn. apply lookup_insert_eq. }
  { exact Hart. }
  fold artifact. rewrite Ho, Hoa. split; reflexivity.
Qed.

(** X5: a video with no usable cache entry that ffmpeg transcodes with
    exit status 0 is processed in the same way. *)
Theorem video_compressed_and_cached `{E : Externals} (self : Plugin)
    (f : Path) (w : World) (content out : bytes) :
  let h := file_digest content in
  let artifact := artifact_path self f h in
  ext_in (lower (suffix f)) VIDEO_EXTENSIONS = true →
  skip_videos (config self) = false →
  fs w !! f = Some content → content ≠ [] →
  cache_miss self w h →
  artifact ≠ f →
  which_ffmpeg = true →
  ffmpeg_run (ffmpeg_cmd self f artifact) (fs w) = RunCompleted 0 (Some out) →
  outcome (_process_media_file self f) w = Ok true
  ∧ after (_process_media_file self f) w
    = {| cache := <[h := new_entry (h +:+ suffix f) h]> (cache w);
         fs := <[f := out]> (<[artifact := out]> (fs w));
         record := record w |}.
Proof.
  intros h artifact Hvid Hskip Hf Hne Hmiss Hart Hwhich Hffmpeg.
  pose proof (video_ext_not_image _ Hvid) as Himg.
  assert (Hrun : not_skipped self f).
  { split; [now rewrite Himg|now rewrite Hskip, andb_false_r]. }
  rewrite (task_not_skipped self f Hrun), Himg, Hvid.
  pose proof (compute_file_hash_ok f w content Hf) as Hh.
  destruct (compute_file_hash_run f w) as [Ha _].
  pose proof (use_cached_miss_ok self f h w Hmiss) as Hu.
  destruct (use_cached_miss self f h w Hu) as [Hua _].
  destruct (compress_video_saved self f h w content out Hf Hne Hart Hwhich
              Hffmpeg) as [Hc Hca].
  bind_with Hh. rewrite Ha. fold h. bind_with Hu. rewrite Hua.
  bind_with Hc. rewrite Hca.
  destruct (use_compressed_run f artifact h
              (set_fs (<[artifact := out]> (fs w)) w) out) as [Ho Hoa].
  { cbn. apply lookup_insert_eq. }
  { exact Hart. }
  fold artifact. rewrite Ho, Hoa. split; reflexivity.
Qed.

(** X6: a task that returned [True] has stored the entry of its artifact
    and left the artifact's bytes in place of the original; from then on
    the task of any file holding the original bytes is a cache hit that
    copies the artifact without calling a backend. *)
Theorem processed_file_hits_later `{E : Externals} (self : Plugin)
    (f g : Path) (w : World) (content : bytes) :
  let h := file_digest content in
  let artifact := artifact_path self f h in
  let w1 := after (_process_media_file self f) w in
  fs w !! f = Some content →
  outcome (_process_media_file self f) w = Ok true →
  not_skipped self g → g ≠ artifact →
  ∃ out,
    fs w1 !! f = Some out ∧ fs w1 !! artifact = Some out
    ∧ cache w1 !! h = Some (new_entry (h +:+ suffix f) h)
    ∧ _process_media_file self g (set_fs (<[g := content]> (fs w1)) w1)
      = (Ok false, set_fs (<[g := out]> (<[g := content]> (fs w1))) w1,
         [EvOpenRead g; EvAcquire; EvLookup h; EvExists artifact;
          EvCopy artifact g; EvRelease]).
Proof.
  intros h artifact w1 Hf Htrue Hg Hga.
  assert (Hrun : not_skipped self f).
  { unfold not_skipped. unfold _process_media_file in Htrue.
    destruct (ext_in _ IMAGE_EXTENSIONS && _); [discriminate|].
    destruct (ext_in _ VIDEO_EXTENSIONS && _); [discriminate|]. now split. }
  pose proof (task_not_skipped self f Hrun) as Heq.
  pose proof (compute_file_hash_ok f w content Hf) as Hh. fold h in Hh.
  destruct (compute_file_hash_run f w) as [Ha _].
  assert (Hu : outcome (use_cached self f h) w = Ok None).
  { revert Htrue. rewrite Heq. bind_with Hh. rewrite Ha.
    destruct (outcome (use_cached self f h) w) as [returned|] eqn:Hu0;
      [|rewrite (outcome_bind_raised _ _ _ Hu0); discriminate].
    destruct (use_cached_returns self f h w returned Hu0) as [->| ->];
      [reflexivity|].
    bind_with Hu0. discriminate. }
  destruct (use_cached_miss self f h w Hu) as [Hua _].
  set (tail :=
         if ext_in (lower (suffix f)) IMAGE_EXTENSIONS then
           compressed_file ← _compress_image self f h;
           use_compressed f h compressed_file
         else if ext_in (lower (suffix f)) VIDEO_EXTENSIONS then
           compressed_file ← _compress_video self f h;
           use_compressed f h compressed_file
         else ret false).
  assert (Htail : outcome tail w = Ok true ∧ w1 = after tail w).
  { subst w1. revert Htrue. rewrite Heq. bind_with Hh. rewrite Ha.
    bind_with Hu. rewrite Hua. now split. }
  destruct Htail as [Htail Hw1].
  assert (Hgo : ∀ (backend : M (option Path)),
            returns (names_artifact self f h) backend →
            steps (backend_frame artifact) backend →
            outcome (compressed_file ← backend;
                     use_compressed f h compressed_file) w = Ok true →
            let w' := after (compressed_file ← backend;
                             use_compressed f h compressed_file) w in
            ∃ out, fs w' !! f = Some out ∧ fs w' !! artifact = Some out
                   ∧ cache w' !! h = Some (new_entry (h +:+ suffix f) h)).
  { intros backend Hnames Hframe Hok w'. subst w'. revert Hok.
    destruct (outcome backend w) as [c|] eqn:Hc;
      [|rewrite (outcome_bind_raised _ _ _ Hc); discriminate].
    bind_with Hc. intros Hok.
    destruct (use_compressed_true f h c _ Hok)
      as (p & out & -> & Hp & Hne & Hafter).
    pose proof (Hnames w _ Hc p eq_refl) as Hpa.
    change (p = artifact) in Hpa. subst p.
    exists out. rewrite Hafter. cbn.
    split; [apply lookup_insert_eq|].
    split; [now rewrite lookup_insert_ne|]. apply lookup_insert_eq. }
  assert (Hdone : ∃ out, fs w1 !! f = Some out ∧ fs w1 !! artifact = Some out
                         ∧ cache w1 !! h = Some (new_entry (h +:+ suffix f) h)).
  { rewrite Hw1. subst tail. destruct Hrun as [Himg Hvid].
    destruct (ext_in _ IMAGE_EXTENSIONS) eqn:Hi.
    - apply Hgo; [apply compress_image_names| |exact Htail].
      apply compress_image_frame. now destruct (skip_images (config self)).
    - destruct (ext_in _ VIDEO_EXTENSIONS) eqn:Hv; [|discriminate].
      apply Hgo; [apply compress_video_names| |exact Htail].
      apply compress_video_frame. now destruct (skip_videos (config self)). }
  destruct Hdone as (out & Hfo & Hao & Hco).
  exists out. split; [exact Hfo|]. split; [exact Hao|]. split; [exact Hco|].
  clearbody w1. clear Hw1.
  set (w2 := set_fs (<[g := content]> (fs w1)) w1).
  assert (Hg2 : fs w2 !! g = Some content) by (cbn; apply lookup_insert_eq).
  assert (Ha2 : fs w2 !! path_join (self_cache_dir self) (h +:+ suffix f)
                = Some out).
  { cbn. rewrite lookup_insert_ne by exact Hga. exact Hao. }
  rewrite (task_not_skipped self g Hg).
  pose proof (compute_file_hash_ok g w2 content Hg2) as Hh2. fold h in Hh2.
  destruct (compute_file_hash_run g w2) as [Hha2 Hht2].
  pose proof (use_cached_hit self g h w2 (new_entry (h +:+ suffix f) h)
                (h +:+ suffix f) out Hco eq_refl Ha2
                (λ Heq', Hga (eq_sym Heq'))) as Hhit.
  assert (Hu2 : outcome (use_cached self g h) w2 = Ok (Some false))
    by (unfold outcome; now rewrite Hhit).
  rewrite (run_eta (bind _ _)).
  bind_with Hh2. rewrite Hha2, Hht2. bind_with Hu2.
  unfold after, trace. rewrite Hhit. reflexivity.
Qed.

(** X7: the task of a file that cannot be opened raises before it
    touches the cache; the loop prints the error, adds one to [errors]
    (and to nothing else) for the file and goes on with the remaining
    files. *)
Theorem missing_file_is_an_error `{E : Externals} (self : Plugin)
    (f : Path) (rest : list Path) (counts : Tally) (w : World) :
  not_skipped self f → fs w !! f = None →
  let counted :=
    {| processed := processed counts; skipped := skipped counts;
       errors := S (errors counts) |} in
  _process_media_file self f w = (Raised, w, [EvOpenRead f])
  ∧ collect_results self (f :: rest) counts w
    = (outcome (collect_results self rest counted) w,
       after (collect_results self rest counted) w,
       EvOpenRead f :: EvPrint (LogTaskError f)
       :: trace (collect_results self rest counted) w)
  ∧ outcome (collect_results self [f] counts) w = Ok counted.
Proof.
  intros Hrun Hf counted.
  assert (Htask : _process_media_file self f w = (Raised, w, [EvOpenRead f])).
  { rewrite (task_not_skipped self f Hrun).
    unfold _compute_file_hash, bind, emit, get_world, raise. cbn.
    now rewrite Hf. }
  assert (Hloop : ∀ files, collect_results self (f :: files) counts w
    = (outcome (collect_results self files counted) w,
       after (collect_results self files counted) w,
       EvOpenRead f :: EvPrint (LogTaskError f)
       :: trace (collect_results self files counted) w)).
  { intros files. cbn [collect_results].
    unfold bind at 1 2, future_result. rewrite Htask.
    unfold print, emit, outcome, after, trace. cbn. fold counted.
    now destruct (collect_results self files counted w) as [[r w'] t]. }
  split; [exact Htask|]. split; [apply Hloop|].
  unfold outcome at 1. now rewrite Hloop.
Qed.

(** X8: an empty file outside the cache directory is never processed:
    whatever the backends do, its task returns [False], adds no cache
    entry and leaves the file empty. *)
Theorem empty_file_is_never_cached `{E : Externals} (self : Plugin)
    (f : Path) (w : World) :
  fs w !! f = Some [] →
  parent f ≠ self_cache_dir self →
  cache_miss self w (file_digest []) →
  outcome (_process_media_file self f) w = Ok false
  ∧ cache (after (_process_media_file self f) w) = cache w
  ∧ fs (after (_process_media_file self f) w) !! f = Some [].
Proof.
  intros Hf Hout Hmiss.
  assert (Hart : artifact_path self f (file_digest []) ≠ f)
    by (intros Heq; apply Hout; now rewrite <- Heq).
  pose proof (compute_file_hash_ok f w [] Hf) as Hh.
  pose proof (use_cached_miss_ok self f _ w Hmiss) as Hu.
  destruct (ext_in (lower (suffix f)) IMAGE_EXTENSIONS) eqn:Himg;
    [destruct (skip_images (config self)) eqn:Hsi|
     destruct (ext_in (lower (suffix f)) VIDEO_EXTENSIONS) eqn:Hvid;
       [destruct (skip_videos (config self)) eqn:Hsv|]].
  - unfold _process_media_file. rewrite Himg, Hsi. cbn. auto.
  - destruct (failed_task_run self f w (file_digest []))
      as (Hres & Hc & _ & Hfs & _).
    { apply image_backend_fails; try assumption.
      now apply compress_image_empty. }
    split; [exact Hres|]. split; [exact Hc|].
    rewrite Hfs; [exact Hf|]. intros Heq. now apply Hart.
  - unfold _process_media_file. rewrite Himg, Hvid, Hsv. cbn. auto.
  - destruct (failed_task_run self f w (file_digest []))
      as (Hres & Hc & _ & Hfs & _).
    { apply video_backend_fails; try assumption.
      now apply compress_video_empty. }
    split; [exact Hres|]. split; [exact Hc|].
    rewrite Hfs; [exact Hf|]. intros Heq. now apply Hart.
  - unfold _process_media_file. rewrite Himg, Hvid. cbn [andb].
    destruct (compute_file_hash_run f w) as [Ha _].
    destruct (use_cached_miss self f _ w Hu) as [Hua _].
    bind_with Hh. rewrite Ha. bind_with Hu. rewrite Hua. cbn. auto.
Qed.

(** ** Which backend a task can reach *)

#[local] Instance every_event_stepwise (P : event → Prop) :
  Stepwise (every_event P).
Proof.
  split; unfold every_event.
  - intros _. constructor.
  - intros _ t1 _ t2 _. apply Forall_app_2.
Qed.

Lemma every_emit (P : event → Prop) (e : event) :
  P e → steps (every_event P) (emit e).
Proof. intros He w. repeat constructor. exact He. Qed.

Lemma every_put_world (P : event → Prop) (w' : World) :
  steps (every_event P) (put_world w').
Proof. intros w. constructor. Qed.

Ltac events_go :=
  repeat first
    [ steps_step
    | apply every_put_world
    | apply every_emit; cbn; tauto ].

Ltac unfold_task :=
  unfold _process_media_file, _compute_file_hash, use_cached, use_compressed,
    _compress_image, pil_save, _compress_video, print_stats, cache_lookup,
    cache_insert, cached_file_of, path_exists, stat_size, copy2, write_output,
    print;
  cbv zeta.

(** X9: Pillow is opened only by the task of a file with an image
    extension, and [shutil.which] and ffmpeg are reached only by the task
    of a file with a video extension. *)
Theorem backend_by_extension `{E : Externals} (self : Plugin) (f : Path)
    (w : World) :
  let t := trace (_process_media_file self f) w in
  (ext_in (lower (suffix f)) IMAGE_EXTENSIONS = false →
   Forall (λ e, ¬ image_backend_event e) t)
  ∧ (ext_in (lower (suffix f)) VIDEO_EXTENSIONS = false →
     Forall (λ e, ¬ transcoder_event e) t).
Proof.
  cbv zeta. split.
  - intros Himg.
    assert (Hsteps : steps (every_event (λ e, ¬ image_backend_event e))
                       (_process_media_file self f));
      [|exact (Hsteps w)].
    unfold_task. rewrite Himg. events_go.
  - intros Hvid.
    assert (Hsteps : steps (every_event (λ e, ¬ transcoder_event e))
                       (_process_media_file self f));
      [|exact (Hsteps w)].
    unfold_task. rewrite Hvid. events_go.
Qed.

(** ** The run as a whole *)

Lemma tally_total (counts : Tally) (results : list (result bool)) :
  total (tally counts results) = (total counts + length results)%nat.
Proof.
  revert counts. induction results as [|r rest IH]; intros counts.
  - cbn. lia.
  - cbn [tally foldl length]. fold (tally (count_result r counts) rest).
    rewrite IH. destruct r as [[]|], counts; unfold total; cbn; lia.
Qed.

Section Whole.
Context `{E : Externals} (self : Plugin).

Lemma outcomes_length (media_files : list Path) (w : World) :
  length (outcomes self media_files w) = length media_files.
Proof.
  revert w. induction media_files as [|f rest IH]; intros w; [reflexivity|].
  cbn [outcomes length]. now rewrite IH.
Qed.

Lemma save_cache_run (w : World) :
  outcome (_save_cache self) w = Ok ()
  ∧ cache (after (_save_cache self) w) = cache w
  ∧ fs (after (_save_cache self) w) = fs w
  ∧ record (after (_save_cache self) w)
    = match dump_fails (cache w) with
      | None => Parsed (saved_record (config self) (cache w))
      | Some broken => broken
      end.
Proof.
  unfold outcome, after, _save_cache, print, bind, emit, get_world, put_world.
  cbn. destruct (dump_fails (cache w)); repeat split.
Qed.

Lemma thread_pool_run (max_workers : Z) (w : World) :
  thread_pool max_workers w
  = if max_workers <=? 0 then (Raised, w, []) else (Ok (), w, []).
Proof. unfold thread_pool. now destruct (max_workers <=? 0). Qed.

(** The run on a non-empty list, once the pruning has returned and the
    pool has been made. *)
Lemma on_post_build_run (f : Path) (rest : list Path) (w : World) :
  outcome (_clean_orphaned_cache self) w = Ok PyNone →
  0 < max_workers (config self) →
  let w1 := after (_clean_orphaned_cache self) w in
  let w2 := after_all self (f :: rest) w1 in
  let counts := tally no_counts (outcomes self (f :: rest) w1) in
  outcome (on_post_build self (f :: rest)) w = Ok PyNone
  ∧ after (on_post_build self (f :: rest)) w = after (_save_cache self) w2
  ∧ trace (on_post_build self (f :: rest)) w
    = (EvPrint LogStart :: trace (_clean_orphaned_cache self) w
       ++ trace (collect_results self (f :: rest) no_counts) w1)
      ++ trace (_save_cache self) w2
      ++ [EvPrint (LogComplete (processed counts) (skipped counts)
                     (errors counts))].
Proof.
  intros Hprune Hpos w1 w2 counts. unfold on_post_build.
  assert (Hstart : outcome (print LogStart) w = Ok ()) by reflexivity.
  assert (Hpool : thread_pool (max_workers (config self)) w1 = (Ok (), w1, [])).
  { rewrite thread_pool_run.
    destruct (Z.leb_spec (max_workers (config self)) 0); [lia|reflexivity]. }
  assert (Hpo : outcome (thread_pool (max_workers (config self))) w1 = Ok ())
    by (unfold outcome; now rewrite Hpool).
  assert (Hpa : after (thread_pool (max_workers (config self))) w1 = w1)
    by (unfold after; now rewrite Hpool).
  assert (Hpt : trace (thread_pool (max_workers (config self))) w1 = [])
    by (unfold trace; now rewrite Hpool).
  destruct (collect_results_outcomes self (f :: rest) no_counts w1)
    as [Hco Hca].
  destruct (save_cache_run w2) as (Hso & _).
  fold w2 in Hca. fold counts in Hco.
  set (complete := LogComplete _ _ _).
  bind_with Hstart. change (after (print LogStart) w) with w.
  bind_with Hprune. fold w1.
  bind_with Hpo. rewrite Hpa, Hpt.
  change {| processed := 0; skipped := 0; errors := 0 |} with no_counts.
  bind_with Hco. rewrite Hca. bind_with Hso.
  split; [reflexivity|]. split; [reflexivity|].
  change (trace (print LogStart) w) with [EvPrint LogStart].
  change (trace (print complete) (after (_save_cache self) w2))
    with [EvPrint complete].
  change (trace (ret PyNone) _) with (@nil event).
  cbn [app]. now rewrite <- !app_assoc.
Qed.

(** The run on a non-empty list when the pool cannot be made. *)
Lemma on_post_build_no_pool (f : Path) (rest : list Path) (w : World) :
  outcome (_clean_orphaned_cache self) w = Ok PyNone →
  max_workers (config self) <= 0 →
  outcome (on_post_build self (f :: rest)) w = Raised
  ∧ after (on_post_build self (f :: rest)) w
    = after (_clean_orphaned_cache self) w
  ∧ trace (on_post_build self (f :: rest)) w
    = EvPrint LogStart :: trace (_clean_orphaned_cache self) w.
Proof.
  intros Hprune Hneg. unfold on_post_build.
  set (w1 := after (_clean_orphaned_cache self) w).
  assert (Hstart : outcome (print LogStart) w = Ok ()) by reflexivity.
  assert (Hpool : thread_pool (max_workers (config self)) w1
                  = (Raised, w1, [])).
  { rewrite thread_pool_run.
    destruct (Z.leb_spec (max_workers (config self)) 0); [reflexivity|lia]. }
  assert (Hpo : outcome (thread_pool (max_workers (config self))) w1 = Raised)
    by (unfold outcome; now rewrite Hpool).
  assert (Hpa : after (thread_pool (max_workers (config self))) w1 = w1)
    by (unfold after; now rewrite Hpool).
  assert (Hpt : trace (thread_pool (max_workers (config self))) w1 = [])
    by (unfold trace; now rewrite Hpool).
  bind_with Hstart. change (after (print LogStart) w) with w.
  bind_with Hprune. fold w1.
  rewrite (outcome_bind_raised _ _ _ Hpo), (after_bind_raised _ _ _ Hpo),
    (trace_bind_raised _ _ _ Hpo), Hpa, Hpt.
  split; [reflexivity|]. split; [reflexivity|].
  change (trace (print LogStart) w) with [EvPrint LogStart].
  cbn [app]. now rewrite app_nil_r.
Qed.

Lemma find_orphaned_keeps (entries : list (string * json)) (w : World) :
  after (find_orphaned self entries) w = w
  ∧ Forall exists_event (trace (find_orphaned self entries) w).
Proof.
  induction entries as [|[h e] rest [IHa IHt]].
  - split; [reflexivity|constructor].
  - unfold after, trace in *. cbn [find_orphaned]. unfold cached_file_of.
    destruct (entry_filename e) as [filename|]; cbn;
      [|split; [reflexivity|constructor]].
    unfold path_exists, bind, ret, emit, get_world. cbn.
    destruct (find_orphaned self rest w) as [[[r|] w'] t]; cbn in *; subst w';
      (split; [reflexivity|]); constructor; try exact I;
      rewrite ?app_nil_r; exact IHt.
Qed.

Lemma find_orphaned_malformed (entries : list (string * json)) (w : World) :
  Exists (λ kv, entry_filename kv.2 = None) entries →
  outcome (find_orphaned self entries) w = Raised.
Proof.
  induction entries as [|[h e] rest IH]; intros Hex.
  - inversion Hex.
  - unfold outcome in *. cbn [find_orphaned]. unfold cached_file_of.
    destruct (entry_filename e) as [filename|] eqn:He; cbn; [|reflexivity].
    apply Exists_cons in Hex as [Hbad|Hex]; [cbn in Hbad; congruence|].
    specialize (IH Hex).
    unfold path_exists, bind, ret, emit, get_world. cbn.
    destruct (find_orphaned self rest w) as [[r w'] t]. cbn in *. now subst r.
Qed.

(** After the pruning every entry that is left names an existing
    artifact. *)
Lemma prune_run (w : World) :
  well_formed w →
  outcome (_clean_orphaned_cache self) w = Ok PyNone
  ∧ fs (after (_clean_orphaned_cache self) w) = fs w
  ∧ record (after (_clean_orphaned_cache self) w) = record w
  ∧ cache (after (_clean_orphaned_cache self) w) ⊆ cache w
  ∧ no_orphans self (after (_clean_orphaned_cache self) w).
Proof.
  intros Hwf.
  destruct (clean_orphaned_cache_run self w Hwf) as (t1 & Hrun & Ht1).
  set (orphaned := orphans self (fs w) (map_to_list (cache w))) in *.
  destruct (delete_all_run orphaned w) as (_ & Dfs & Drec & Dlook & _).
  { apply orphans_NoDup, NoDup_fst_map_to_list. }
  { intros h Hh. apply elem_of_orphans in Hh as (e & -> & _). eauto. }
  unfold outcome, after. rewrite Hrun. cbn [fst snd].
  split; [reflexivity|]. split; [exact Dfs|]. split; [exact Drec|]. split.
  - apply map_subseteq_spec. intros h e. rewrite Dlook.
    case_decide; [discriminate|auto].
  - intros h e. rewrite Dlook, Dfs. case_decide as Hin; [discriminate|].
    intros He. destruct (artifact_exists self (fs w) e) eqn:Hex; [reflexivity|].
    exfalso. apply Hin, elem_of_orphans. eauto.
Qed.

Lemma no_orphans_none (w : World) :
  no_orphans self w → orphans self (fs w) (map_to_list (cache w)) = [].
Proof.
  intros Hno. unfold orphans.
  assert (Hall : Forall (λ kv, artifact_exists self (fs w) kv.2 = true)
                   (map_to_list (cache w))).
  { apply Forall_forall. intros [h e] Hin.
    apply elem_of_map_to_list in Hin. exact (Hno h e Hin). }
  induction Hall as [|[h e] rest Hhe Hrest IH]; [reflexivity|].
  rewrite filter_cons. cbn in *. rewrite Hhe.
  rewrite decide_False by discriminate. exact IH.
Qed.

Lemma no_orphans_well_formed (w : World) : no_orphans self w → well_formed w.
Proof.
  intros Hno h e He. specialize (Hno h e He). unfold artifact_exists in Hno.
  destruct (entry_filename e); [eauto|discriminate].
Qed.

End Whole.


Lemma save_cache_trace `{E : Externals} (self : Plugin) (w : World) :
  trace (_save_cache self) w
  = EvDump :: match dump_fails (cache w) with
              | None => []
              | Some _ => [EvPrint LogSaveError]
              end.
Proof.
  unfold trace, _save_cache, print, bind, emit, get_world, put_world.
  cbn. now destruct (dump_fails (cache w)).
Qed.

Section NoDump.
Context `{E : Externals} (self : Plugin).

Abbreviation quiet := (every_event (λ e, ¬ dump_event e)).

Lemma task_never_dumps (f : Path) : steps quiet (_process_media_file self f).
Proof. unfold_task. events_go. Qed.

Lemma collect_never_dumps (media_files : list Path) (counts : Tally) :
  steps quiet (collect_results self media_files counts).
Proof.
  revert counts. induction media_files as [|f rest IH]; intros counts;
    cbn [collect_results]; unfold print;
    repeat first
      [ apply task_never_dumps
      | apply IH
      | steps_step
      | apply every_emit; cbn; tauto ].
Qed.

Lemma find_orphaned_never_dumps (entries : list (string * json)) :
  steps quiet (find_orphaned self entries).
Proof.
  induction entries as [|[h e] rest IH]; cbn [find_orphaned];
    unfold cached_file_of, path_exists;
    repeat first [ apply IH | steps_step | apply every_emit; cbn; tauto ].
Qed.

Lemma delete_all_never_dumps (orphaned : list string) :
  steps quiet (delete_all orphaned).
Proof.
  induction orphaned as [|h rest IH]; cbn [delete_all]; unfold cache_delete;
    repeat first
      [ apply IH
      | steps_step
      | apply every_put_world
      | apply every_emit; cbn; tauto ].
Qed.

Lemma prune_never_dumps : steps quiet (_clean_orphaned_cache self).
Proof.
  unfold _clean_orphaned_cache, print.
  repeat first
    [ apply find_orphaned_never_dumps
    | apply delete_all_never_dumps
    | steps_step
    | apply every_emit; cbn; tauto ].
Qed.

End NoDump.


(** X10: one cache entry without a [cached_filename] string makes the
    pruning raise before it deletes anything, and the run over a
    non-empty list raises with it: no task starts, no file is read or
    written, and the record is not saved. *)
Theorem malformed_entry_stops_run `{E : Externals} (self : Plugin)
    (media_files : list Path) (w : World) (h : string) (e : json) :
  cache w !! h = Some e → entry_filename e = None → media_files ≠ [] →
  outcome (_clean_orphaned_cache self) w = Raised
  ∧ after (_clean_orphaned_cache self) w = w
  ∧ outcome (on_post_build self media_files) w = Raised
  ∧ after (on_post_build self media_files) w = w
  ∧ Forall (λ ev, ev = EvPrint LogStart ∨ exists_event ev)
      (trace (on_post_build self media_files) w).
Proof.
  intros He Hbad Hne.
  assert (Hfind : outcome (find_orphaned self (map_to_list (cache w))) w
                  = Raised).
  { apply find_orphaned_malformed, Exists_exists. exists (h, e).
    split; [now apply elem_of_map_to_list|exact Hbad]. }
  destruct (find_orphaned_keeps self (map_to_list (cache w)) w) as [Hfa Hft].
  assert (Hget : outcome get_world w = Ok w) by reflexivity.
  assert (Hpo : outcome (_clean_orphaned_cache self) w = Raised).
  { unfold _clean_orphaned_cache. bind_with Hget.
    now apply outcome_bind_raised. }
  assert (Hpa : after (_clean_orphaned_cache self) w = w).
  { unfold _clean_orphaned_cache. bind_with Hget.
    change (after get_world w) with w.
    now rewrite (after_bind_raised _ _ _ Hfind). }
  assert (Hpt : trace (_clean_orphaned_cache self) w
                = trace (find_orphaned self (map_to_list (cache w))) w).
  { unfold _clean_orphaned_cache. bind_with Hget.
    change (after get_world w) with w.
    now rewrite (trace_bind_raised _ _ _ Hfind). }
  split; [exact Hpo|]. split; [exact Hpa|].
  destruct media_files as [|f rest]; [contradiction|].
  unfold on_post_build.
  assert (Hstart : outcome (print LogStart) w = Ok ()) by reflexivity.
  bind_with Hstart. change (after (print LogStart) w) with w.
  rewrite (outcome_bind_raised _ _ _ Hpo), (after_bind_raised _ _ _ Hpo),
    (trace_bind_raised _ _ _ Hpo), Hpa, Hpt.
  split; [reflexivity|]. split; [reflexivity|].
  constructor; [now left|].
  eapply Forall_impl; [exact Hft|]. intros ev Hev. now right.
Qed.

(** X11: pruning a second time finds nothing to remove: it only probes
    the artifacts, deletes no entry and prints nothing. *)
Theorem prune_twice `{E : Externals} (self : Plugin) (w : World) :
  well_formed w →
  let w1 := after (_clean_orphaned_cache self) w in
  outcome (_clean_orphaned_cache self) w1 = Ok PyNone
  ∧ after (_clean_orphaned_cache self) w1 = w1
  ∧ Forall exists_event (trace (_clean_orphaned_cache self) w1).
Proof.
  intros Hwf w1.
  destruct (prune_run self w Hwf) as (_ & _ & _ & _ & Hno). fold w1 in Hno.
  destruct (clean_orphaned_cache_run self w1
              (no_orphans_well_formed self w1 Hno)) as (t1 & Hrun & Ht1).
  rewrite (no_orphans_none self w1 Hno) in Hrun.
  unfold outcome, after, trace. rewrite Hrun. cbn.
  split; [reflexivity|]. split; [reflexivity|]. now rewrite app_nil_r.
Qed.

Lemma snapshot_same_settings (c1 c2 : Config) :
  py_eq (JObj (_get_current_config c1)) (JObj (_get_current_config c2)) = true
  ↔ same_settings c1 c2.
Proof.
  split.
  - intros Heq. apply py_eq_dict in Heq as [_ Hall].
    assert (Hat : ∀ k v v', (k, v) ∈ config_items c1 →
                            (k, v') ∈ config_items c2 → py_eq v v' = true).
    { intros k v v' H1 H2. apply config_lookup_items in H1, H2.
      destruct (Hall k v H1) as (v'' & Hv'' & Heq). congruence. }
    unfold config_items in *.
    repeat split;
      [ eapply py_eq_int, (Hat "image_quality")
      | eapply py_eq_opt_int, (Hat "image_max_width")
      | eapply py_eq_opt_int, (Hat "image_max_height")
      | eapply py_eq_int, (Hat "video_crf")
      | eapply py_eq_str, (Hat "video_preset")
      | eapply py_eq_opt_int, (Hat "video_max_width")
      | eapply py_eq_bool, (Hat "skip_images")
      | eapply py_eq_bool, (Hat "skip_videos") ]; item_in_list.
  - intros (H1 & H2 & H3 & H4 & H5 & H6 & H7 & H8).
    apply snapshot_py_eq. unfold _get_current_config, config_items.
    congruence.
Qed.

(** X12: a saved record is accepted on the next load exactly when the
    eight snapshot settings are unchanged; [cache_dir] and [max_workers]
    are not part of the snapshot and never invalidate the cache. *)
Theorem snapshot_settings (c1 c2 : Config) (entries : gmap string json) :
  _load_cache c2 (DirReady (Parsed (saved_record c1 entries)))
  = Ok (JObj entries, [])
  ↔ same_settings c1 c2.
Proof.
  destruct (saved_record_fields c1 entries) as (d & Hd & Hcfg & Hfiles).
  unfold _load_cache, load_record. rewrite Hd, Hcfg, Hfiles.
  rewrite <- (snapshot_same_settings c1 c2).
  destruct (py_eq _ _); cbn.
  - split; reflexivity.
  - split; [|discriminate]. intros Heq. discriminate Heq.
Qed.

(** ** Reading the file in chunks *)

Lemma update_chunks_recorded (size : nat) (s : list bytes) (f : bytes) :
  (0 < size)%nat →
  ∃ L, @update_chunks recording_hasher size s f = s ++ L
       ∧ concat L = f
       ∧ Forall (λ c, (0 < length c ≤ size)%nat) L
       ∧ (∀ i c, L !! i = Some c → (S i < length L)%nat → length c = size)
       ∧ (length f ≤ length L * size < length f + size)%nat.
Proof.
  intros Hsize. funelim (@update_chunks recording_hasher size s f).
  - exists []. rewrite app_nil_r.
    assert (Hf : f = []).
    { destruct f as [|x f]; [reflexivity|].
      destruct size; [lia|discriminate]. }
    subst f. repeat split; try constructor; cbn; lia.
  - match goal with
    | IH : _ → ∃ L, _ |- _ =>
        destruct (IH Hsize) as (L & Hrun & Hcat & Hall & Hfull & Hlen)
    end.
    match goal with e : take _ _ = _ |- _ => rename e into Htake end.
    exists ((b :: chunk) :: L). split.
    { rewrite Hrun. cbn. now rewrite <- app_assoc. }
    assert (Hclen : length (b :: chunk) = (size `min` length f)%nat)
      by (rewrite <- Htake; apply length_take).
    rewrite length_drop in Hlen.
    split; [cbn [concat]; rewrite Hcat, <- Htake; apply take_drop|].
    split; [constructor; [cbn in *; lia|exact Hall]|].
    split.
    + intros [|i] c Hi Hlt.
      * injection Hi as <-. cbn [length] in Hlt.
        destruct L as [|c' L']; [cbn in Hlt; lia|].
        apply Forall_cons in Hall as [Hc' _].
        apply (f_equal length) in Hcat.
        rewrite length_drop in Hcat. cbn [concat] in Hcat.
        rewrite length_app in Hcat. rewrite Hclen.
        apply Nat.min_l. lia.
      * cbn in Hi. apply (Hfull i c Hi). cbn [length] in Hlt. lia.
    + cbn [length].
      destruct (Nat.min_spec size (length f)) as [[Hord Hm]|[Hord Hm]];
        rewrite Hm in Hclen; cbn [length] in Hclen.
      * lia.
      * destruct (length L) as [|n]; cbn [Nat.mul] in *; lia.
Qed.

(** X13: [_compute_file_hash] never holds more than 8192 bytes of the
    file: the chunks it feeds to the hash object are non-empty, at most
    8192 bytes long, all but the last exactly 8192 bytes long, and
    together they are the content of the file. *)
Theorem reads_are_bounded (content : bytes) :
  concat (chunks_read content) = content
  ∧ Forall (λ c, (0 < length c ≤ CHUNK_SIZE)%nat) (chunks_read content)
  ∧ (∀ i c, chunks_read content !! i = Some c →
            (S i < length (chunks_read content))%nat →
            length c = CHUNK_SIZE)
  ∧ (length content ≤ length (chunks_read content) * CHUNK_SIZE
     < length content + CHUNK_SIZE)%nat.
Proof.
  assert (Hpos : (0 < CHUNK_SIZE)%nat) by (unfold CHUNK_SIZE; vm_compute; lia).
  destruct (update_chunks_recorded CHUNK_SIZE [] content Hpos)
    as (L & Hrun & Hrest).
  unfold chunks_read. rewrite Hrun. exact Hrest.
Qed.

(** ** What a run keeps *)

(** The task of [f], for a relation that holds of its file-system and
    cache steps. *)
Section TaskSteps.
Context `{E : Externals} (self : Plugin) (f : Path).
Context {Φ : World → list event → World → Prop} `{!Stepwise Φ}.
Hypothesis Hemit : ∀ e, steps Φ (emit e).
Hypothesis Hwrite : ∀ filename output,
  steps Φ (write_output (path_join (self_cache_dir self) filename) output).
Hypothesis Hcopy : ∀ src, steps Φ (copy2 src f).
Hypothesis Huse :
  ∀ h, steps Φ (use_compressed f h (Some (artifact_path self f h))).

Ltac leaf_go :=
  repeat match goal with
    | |- steps _ (emit _) => apply Hemit
    | |- steps _ (print _) => apply Hemit
    | |- steps _ (write_output _ _) => apply Hwrite
    | |- steps _ (copy2 _ _) => apply Hcopy
    | |- _ => steps_step
    end.

Lemma task_steps : steps Φ (_process_media_file self f).
Proof.
  assert (Hafter : ∀ h c, names_artifact self f h c →
                          steps Φ (use_compressed f h c)).
  { intros h [p|] Hc.
    - rewrite (Hc p eq_refl). apply Huse.
    - unfold use_compressed. leaf_go. }
  assert (Himage : ∀ h, steps Φ (_compress_image self f h)).
  { intros h. unfold _compress_image, pil_save, print_stats, stat_size.
    cbv zeta. leaf_go. }
  assert (Hvideo : ∀ h, steps Φ (_compress_video self f h)).
  { intros h. unfold _compress_video, path_exists, print_stats, stat_size.
    cbv zeta. leaf_go. }
  assert (Hcached : ∀ h, steps Φ (use_cached self f h)).
  { intros h. unfold use_cached, cache_lookup, cached_file_of, path_exists.
    leaf_go. }
  unfold _process_media_file, _compute_file_hash. cbv zeta.
  repeat first
    [ match goal with
      | |- steps _ (bind (_compress_image _ _ _) _) =>
          apply steps_bind_ok;
          [ apply Himage
          | intros c [w Hc]; apply Hafter;
            exact (compress_image_names self _ _ _ _ Hc) ]
      | |- steps _ (bind (_compress_video _ _ _) _) =>
          apply steps_bind_ok;
          [ apply Hvideo
          | intros c [w Hc]; apply Hafter;
            exact (compress_video_names self _ _ _ _ Hc) ]
      | |- steps _ (use_cached _ _ _) => apply Hcached
      | |- steps _ (emit _) => apply Hemit
      end
    | steps_step ].
Qed.

End TaskSteps.

(** The run over [media_files], for a relation that holds of its tasks. *)
Section RunSteps.
Context `{E : Externals} (self : Plugin) (media_files : list Path).
Context {Φ : World → list event → World → Prop} `{!Stepwise Φ}.
Hypothesis Hemit : ∀ e, steps Φ (emit e).
Hypothesis Hdel : ∀ h, steps Φ (cache_delete h).
Hypothesis Hsave : steps Φ (_save_cache self).
Hypothesis Htask :
  ∀ f, f ∈ media_files → steps Φ (_process_media_file self f).

Ltac whole_go :=
  repeat match goal with
    | |- steps _ (emit _) => apply Hemit
    | |- steps _ (print _) => apply Hemit
    | |- steps _ (cache_delete _) => apply Hdel
    | |- steps _ (_save_cache _) => apply Hsave
    | |- _ => steps_step
    end.

Lemma find_orphaned_steps (entries : list (string * json)) :
  steps Φ (find_orphaned self entries).
Proof.
  induction entries as [|[h e] rest IH]; cbn [find_orphaned];
    unfold cached_file_of, path_exists; whole_go; exact IH.
Qed.

Lemma delete_all_steps (orphaned : list string) :
  steps Φ (delete_all orphaned).
Proof.
  induction orphaned as [|h rest IH]; cbn [delete_all]; whole_go; exact IH.
Qed.

Lemma collect_results_steps (files : list Path) (counts : Tally) :
  files ⊆ media_files → steps Φ (collect_results self files counts).
Proof.
  revert counts. induction files as [|f rest IH]; intros counts Hsub;
    cbn [collect_results]; whole_go;
    first [ apply Htask, Hsub; left
          | apply IH; intros x Hx; apply Hsub; now right ].
Qed.

Lemma run_steps_sub (files : list Path) :
  files ⊆ media_files → steps Φ (on_post_build self files).
Proof.
  intros Hsub. unfold on_post_build, _clean_orphaned_cache, thread_pool.
  whole_go;
    first [ apply find_orphaned_steps
          | apply delete_all_steps
          | now apply collect_results_steps ].
Qed.

Lemma run_steps : steps Φ (on_post_build self media_files).
Proof. now apply run_steps_sub. Qed.

End RunSteps.

#[local] Instance frame_outside_stepwise (dir : string)
    (touched : Path → Prop) : Stepwise (frame_outside dir touched).
Proof.
  split; unfold frame_outside.
  - reflexivity.
  - intros w1 t1 w2 t2 w3 H1 H2 p Hp Hd. now rewrite H2, H1.
Qed.

Section Frame.
Context `{E : Externals} (self : Plugin) (touched : Path → Prop).

Abbreviation Φ := (frame_outside (self_cache_dir self) touched).

Lemma outside_emit (e : event) : steps Φ (emit e).
Proof. intros w p _ _. reflexivity. Qed.

Lemma outside_write_output (filename : string) (output : option bytes) :
  steps Φ (write_output (path_join (self_cache_dir self) filename) output).
Proof.
  intros w p _ Hd. destruct output as [content|]; [|reflexivity].
  unfold after, write_output, bind, get_world, put_world. cbn.
  apply lookup_insert_ne. intros <-. now apply Hd.
Qed.

Lemma outside_copy2 (src f : Path) : touched f → steps Φ (copy2 src f).
Proof.
  intros Hf w p Hp _.
  unfold after, copy2, bind, emit, get_world, put_world, raise. cbn.
  case_bool_decide; cbn; [reflexivity|].
  destruct (fs w !! src); cbn; [|reflexivity].
  apply lookup_insert_ne. intros <-. now apply Hp.
Qed.

Lemma outside_cache_insert (h : string) (entry : json) :
  steps Φ (cache_insert h entry).
Proof. intros w p _ _. reflexivity. Qed.

Lemma outside_cache_delete (h : string) : steps Φ (cache_delete h).
Proof.
  intros w p _ _.
  unfold after, cache_delete, bind, emit, get_world, put_world, raise. cbn.
  now destruct (cache w !! h).
Qed.

Lemma outside_save_cache : steps Φ (_save_cache self).
Proof. intros w p _ _. now rewrite (proj1 (proj2 (proj2 (save_cache_run self w)))). Qed.

Lemma outside_task (f : Path) :
  touched f → steps Φ (_process_media_file self f).
Proof.
  intros Hf.
  apply task_steps; try apply _;
    [ apply outside_emit
    | apply outside_write_output
    | intros src; now apply outside_copy2
    | ].
  intros h. unfold use_compressed, path_exists, stat_size, print.
  repeat match goal with
    | |- steps _ (emit _) => apply outside_emit
    | |- steps _ (cache_insert _ _) => apply outside_cache_insert
    | |- steps _ (copy2 _ _) => now apply outside_copy2
    | |- _ => steps_step
    end.
Qed.

End Frame.

(** X14: a run changes no file other than the media files it was given
    and the files of the cache directory. *)
Theorem run_touches_only_media_and_cache `{E : Externals} (self : Plugin)
    (media_files : list Path) (w : World) (p : Path) :
  p ∉ media_files → parent p ≠ self_cache_dir self →
  fs (after (on_post_build self media_files) w) !! p = fs w !! p.
Proof.
  intros Hp Hd.
  assert (Hrun : steps (frame_outside (self_cache_dir self)
                          (λ q, q ∈ media_files))
                   (on_post_build self media_files)).
  { apply run_steps; try apply _.
    - apply outside_emit.
    - apply outside_cache_delete.
    - apply outside_save_cache.
    - intros f Hf. now apply outside_task. }
  exact (Hrun w p Hp Hd).
Qed.

#[local] Instance keeps_no_orphans_stepwise (self : Plugin) :
  Stepwise (keeps_no_orphans self).
Proof.
  split; unfold keeps_no_orphans.
  - auto.
  - intros w1 t1 w2 t2 w3 H1 H2 Hno. auto.
Qed.

Section NoOrphans.
Context `{E : Externals} (self : Plugin).

Abbreviation Φ := (keeps_no_orphans self).

Lemma no_orphans_more_files (w : World) (p : Path) (content : bytes) :
  no_orphans self w → no_orphans self (set_fs (<[p := content]> (fs w)) w).
Proof.
  intros Hno h e He. specialize (Hno h e He).
  unfold artifact_exists in *. cbn.
  destruct (entry_filename e) as [filename|]; [|discriminate].
  apply bool_decide_eq_true in Hno. apply bool_decide_eq_true.
  rewrite lookup_insert. case_decide; [eauto|exact Hno].
Qed.

Lemma orphans_emit (e : event) : steps Φ (emit e).
Proof. intros w Hno. exact Hno. Qed.

Lemma orphans_write_output (p : Path) (output : option bytes) :
  steps Φ (write_output p output).
Proof.
  intros w Hno. destruct output as [content|]; [|exact Hno].
  now apply no_orphans_more_files.
Qed.

Lemma orphans_copy2 (src dst : Path) : steps Φ (copy2 src dst).
Proof.
  intros w Hno.
  unfold after, copy2, bind, emit, get_world, put_world, raise. cbn.
  case_bool_decide; cbn; [exact Hno|].
  destruct (fs w !! src); cbn; [|exact Hno].
  now apply no_orphans_more_files.
Qed.

Lemma orphans_use_compressed (f : Path) (h : string) :
  steps Φ (use_compressed f h (Some (artifact_path self f h))).
Proof.
  intros w Hno. set (artifact := artifact_path self f h).
  assert (Hins : ∀ out, fs w !! artifact = Some out →
            no_orphans self
              (set_cache (<[h := new_entry (name artifact) h]> (cache w)) w)).
  { intros out Hout h' e. cbn. rewrite lookup_insert.
    case_decide; [|apply Hno].
    intros [= <-]. unfold artifact_exists. cbn.
    apply bool_decide_eq_true. change (path_join _ _) with artifact. eauto. }
  unfold after, use_compressed, with_lock, cache_insert, path_exists, copy2,
    stat_size, print, bind, ret, raise, emit, get_world, put_world.
  cbn. destruct (fs w !! artifact) as [out|] eqn:Hout; cbn; [|exact Hno].
  case_bool_decide; cbn; [now apply (Hins out)|].
  rewrite Hout. cbn. rewrite lookup_insert_eq. cbn.
  apply (no_orphans_more_files _ f out (Hins out eq_refl)).
Qed.

Lemma orphans_task (f : Path) : steps Φ (_process_media_file self f).
Proof.
  apply task_steps; try apply _;
    [ apply orphans_emit
    | intros filename output; apply orphans_write_output
    | intros src; apply orphans_copy2
    | apply orphans_use_compressed ].
Qed.

Lemma orphans_after_all (media_files : list Path) (w : World) :
  no_orphans self w → no_orphans self (after_all self media_files w).
Proof.
  revert w. induction media_files as [|f rest IH]; intros w Hno; [exact Hno|].
  cbn [after_all]. apply IH. exact (orphans_task f w Hno).
Qed.

End NoOrphans.

(** X15: after a run over a non-empty list on a cache whose entries are
    well formed, every entry of the cache mapping, and so of the record
    written from it, names an artifact file that exists. *)
Theorem no_orphans_after_run `{E : Externals} (self : Plugin)
    (media_files : list Path) (w : World) :
  media_files ≠ [] → well_formed w →
  no_orphans self (after (on_post_build self media_files) w).
Proof.
  intros Hne Hwf. destruct media_files as [|f rest]; [contradiction|].
  destruct (prune_run self w Hwf) as (Hprune & _ & _ & _ & Hno).
  destruct (Z.lt_ge_cases 0 (max_workers (config self))) as [Hpos|Hneg].
  - destruct (on_post_build_run self f rest w Hprune Hpos)
      as (_ & Hafter & _).
    rewrite Hafter.
    set (w2 := after_all self (f :: rest) _).
    assert (Hno2 : no_orphans self w2) by now apply orphans_after_all.
    destruct (save_cache_run self w2) as (_ & Hc & Hf & _).
    intros h e. rewrite Hc, Hf. apply Hno2.
  - destruct (on_post_build_no_pool self f rest w Hprune Hneg)
      as (_ & Hafter & _).
    now rewrite Hafter.
Qed.

(** ** The differences printed when the configuration changed *)

Lemma differences_elem (old current : gmap string json)
    (keys : list string) (msg : log_msg) :
  msg ∈ flat_map
          (λ key,
             if negb (py_eq (dict_get old key) (dict_get current key))
             then [LogConfigDiff key (dict_get old key)
                     (dict_get current key)]
             else [])
          keys
  ↔ ∃ key, key ∈ keys
           ∧ py_eq (dict_get old key) (dict_get current key) = false
           ∧ msg = LogConfigDiff key (dict_get old key)
                     (dict_get current key).
Proof.
  rewrite list_elem_of_In, in_flat_map. split.
  - intros (key & Hkey & Hin). exists key. apply list_elem_of_In in Hkey.
    destruct (py_eq (dict_get old key) (dict_get current key));
      cbn in Hin; [contradiction|].
    destruct Hin as [<-|[]]. auto.
  - intros (key & Hkey & Hne & ->). exists key.
    split; [now apply list_elem_of_In|]. rewrite Hne. now left.
Qed.

Lemma differences_list (old current : gmap string json)
    (keys : list string) :
  flat_map
    (λ key,
       if negb (py_eq (dict_get old key) (dict_get current key))
       then [LogConfigDiff key (dict_get old key) (dict_get current key)]
       else [])
    keys
  = (λ key, LogConfigDiff key (dict_get old key) (dict_get current key))
    <$> filter
          (λ key, py_eq (dict_get old key) (dict_get current key) = false)
          keys.
Proof.
  induction keys as [|key rest IH]; [reflexivity|].
  cbn [flat_map]. rewrite filter_cons, IH.
  destruct (py_eq (dict_get old key) (dict_get current key)) eqn:Heq.
  - rewrite decide_False by discriminate. reflexivity.
  - rewrite decide_True by reflexivity. reflexivity.
Qed.

Lemma differences_NoDup (old current : gmap string json)
    (keys : list string) :
  NoDup keys →
  NoDup ((λ key, LogConfigDiff key (dict_get old key) (dict_get current key))
         <$> filter
               (λ key, py_eq (dict_get old key) (dict_get current key) = false)
               keys).
Proof.
  intros Hkeys. apply NoDup_fmap_2_strong.
  - intros k1 k2 _ _ Heq. now injection Heq.
  - now apply NoDup_filter.
Qed.

Lemma config_differences_dict (old current : gmap string json)
    (keys : list string) (msg : log_msg) :
  ∃ diffs, config_differences (JObj old) current keys = Ok diffs
    ∧ (msg ∈ diffs ↔
       ∃ key, key ∈ keys
              ∧ py_eq (dict_get old key) (dict_get current key) = false
              ∧ msg = LogConfigDiff key (dict_get old key)
                        (dict_get current key)).
Proof.
  eexists. split; [reflexivity|]. apply differences_elem.
Qed.

Lemma differing_key_exists (c : Config) (old : gmap string json) :
  dom old = dom (_get_current_config c) →
  py_eq (JObj old) (JObj (_get_current_config c)) = false →
  ∃ key, key ∈ (config_items c).*1
         ∧ py_eq (dict_get old key) (dict_get (_get_current_config c) key)
           = false.
Proof.
  intros Hdom Hne. set (current := _get_current_config c) in *.
  destruct (decide (Exists
              (λ key, py_eq (dict_get old key) (dict_get current key) = false)
              (config_items c).*1)) as [Hex|Hall].
  { apply Exists_exists in Hex. exact Hex. }
  exfalso. rewrite <- Forall_Exists_neg, Forall_forall in Hall.
  assert (Heq : py_eq (JObj old) (JObj current) = true); [|congruence].
  apply py_eq_dict. split.
  - rewrite <- !size_dom. now rewrite Hdom.
  - intros k v Hk.
    assert (Hin : k ∈ dom old) by (apply elem_of_dom; eauto).
    rewrite Hdom in Hin. apply elem_of_dom in Hin as [v' Hv'].
    exists v'. split; [exact Hv'|].
    assert (Hkey : k ∈ (config_items c).*1).
    { apply list_elem_of_fmap. exists (k, v').
      split; [reflexivity|]. now apply config_lookup_items. }
    specialize (Hall k Hkey). unfold dict_get in Hall.
    rewrite Hk, Hv' in Hall. cbn in Hall.
    destruct (py_eq v v'); [reflexivity|]. now destruct Hall.
Qed.

(** X16: when the stored snapshot is a dict that differs from the
    current settings, [_load_cache] clears the cache and prints, after
    its two header lines, exactly one line for each current setting whose
    stored value differs (a missing one counting as [None]), in the order
    of the settings, and nothing else; a stored snapshot with the same
    keys as the current one always gets at least one such line. *)
Theorem config_change_is_explained (c : Config) (d old : gmap string json) :
  d !! "config" = Some (JObj old) →
  py_eq (JObj old) (JObj (_get_current_config c)) = false →
  ∃ diffs,
    _load_cache c (DirReady (Parsed (JObj d)))
    = Ok (empty_dict, LogConfigChanged :: LogConfigDiffs :: diffs)
    ∧ diffs
      = (λ key, LogConfigDiff key (dict_get old key)
                  (dict_get (_get_current_config c) key))
        <$> filter
              (λ key, py_eq (dict_get old key)
                        (dict_get (_get_current_config c) key) = false)
              (config_items c).*1
    ∧ NoDup diffs
    ∧ (∀ msg, msg ∈ diffs ↔
         ∃ key, key ∈ (config_items c).*1
                ∧ py_eq (dict_get old key)
                    (dict_get (_get_current_config c) key) = false
                ∧ msg = LogConfigDiff key (dict_get old key)
                          (dict_get (_get_current_config c) key))
    ∧ (dom old = dom (_get_current_config c) → diffs ≠ []).
Proof.
  intros Hd Hne. set (current := _get_current_config c) in *.
  destruct (config_differences (JObj old) current (config_items c).*1)
    as [diffs|] eqn:Hdiffs; [|discriminate Hdiffs].
  assert (Hlist : diffs
    = (λ key, LogConfigDiff key (dict_get old key) (dict_get current key))
      <$> filter
            (λ key, py_eq (dict_get old key) (dict_get current key) = false)
            (config_items c).*1).
  { rewrite <- differences_list. unfold config_differences in Hdiffs.
    now injection Hdiffs as <-. }
  exists diffs. split; [|split; [exact Hlist|split; [|split]]].
  - unfold _load_cache, load_record. rewrite Hd. fold current.
    rewrite Hne. cbn [negb]. rewrite Hdiffs. reflexivity.
  - rewrite Hlist. apply differences_NoDup, config_keys_NoDup.
  - intros msg.
    destruct (config_differences_dict old current (config_items c).*1 msg)
      as (diffs' & Hd' & Hiff). congruence.
  - intros Hdom Hnil.
    destruct (differing_key_exists c old Hdom Hne) as (key & Hkey & Hk).
    destruct (config_differences_dict old current (config_items c).*1
                (LogConfigDiff key (dict_get old key) (dict_get current key)))
      as (diffs' & Hd' & Hiff).
    assert (diffs' = diffs) as -> by congruence.
    assert (Hin : LogConfigDiff key (dict_get old key) (dict_get current key)
                  ∈ diffs) by (apply Hiff; eauto).
    rewrite Hnil in Hin. now apply elem_of_nil in Hin.
Qed.

(** ** The settings files *)

Lemma added_lines_insert (k : string) (v : json) (d : gmap string json)
    (items : list (string * json)) :
  k ∉ items.*1 → added_lines (<[k := v]> d) items = added_lines d items.
Proof.
  induction items as [|[k' v'] rest IH]; [reflexivity|].
  cbn. intros Hnot. apply not_elem_of_cons in Hnot as [Hne Hrest].
  rewrite lookup_insert_ne by congruence. f_equal. now apply IH.
Qed.

Lemma union_insert_present (k : string) (v x : json) (d m : gmap string json) :
  d !! k = Some x → d ∪ <[k := v]> m = d ∪ m.
Proof.
  intros Hk. apply map_eq. intros i. rewrite !lookup_union.
  destruct (decide (i = k)) as [->|Hne].
  - rewrite lookup_insert_eq, Hk. now destruct (m !! k).
  - now rewrite lookup_insert_ne by congruence.
Qed.

Lemma add_missing_dict (items : list (string * json)) :
  NoDup items.*1 → ∀ (d : gmap string json) (updated : bool) (disk : Disk),
  add_missing items (JObj d) updated disk
  = (Ok (JObj (d ∪ list_to_map items),
         match added_lines d items with [] => updated | _ :: _ => true end),
     disk, added_lines d items).
Proof.
  induction items as [|[k v] rest IH]; intros Hnd d updated disk.
  - cbn. now rewrite (right_id_L ∅ (∪)).
  - cbn [fmap list_fmap fst] in Hnd. apply NoDup_cons in Hnd as [Hk Hnd].
    cbn [add_missing list_to_map foldr uncurry]. unfold jbind at 1.
    unfold jlift at 1, key_missing.
    unfold added_lines. cbn [flat_map fst snd]. fold (added_lines d rest).
    destruct (d !! k) as [x|] eqn:Hdk.
    + rewrite (IH Hnd). cbn [app]. now rewrite (union_insert_present k v x).
    + unfold jbind at 1, jlift at 1, set_item. unfold jbind at 1, jprint.
      rewrite (IH Hnd). rewrite (added_lines_insert k v d rest Hk).
      rewrite <- insert_union_l, (insert_union_r _ _ _ _ Hdk).
      cbn [app]. repeat f_equal. now destruct (added_lines d rest).
Qed.

Lemma add_missing_present (items : list (string * json)) (j : json)
    (updated : bool) (disk : Disk) :
  (∀ key, key ∈ items.*1 → key_missing j key = Ok false) →
  add_missing items j updated disk = (Ok (j, updated), disk, []).
Proof.
  induction items as [|[k v] rest IH]; intros Hall; [reflexivity|].
  cbn [add_missing]. unfold jbind at 1, jlift at 1.
  rewrite (Hall k) by apply list_elem_of_here.
  rewrite IH; [reflexivity|]. intros key Hkey. apply Hall.
  now apply list_elem_of_further.
Qed.

Lemma add_missing_cons (k : string) (v : json) (rest : list (string * json))
    (j : json) (updated : bool) (disk : Disk) :
  add_missing ((k, v) :: rest) j updated disk
  = match key_missing j k with
    | Ok true =>
        match set_item j k v with
        | Ok j' =>
            let '(r, d, t) := add_missing rest j' true disk in
            (r, d, MsgAdded k v :: t)
        | Raised => (Raised, disk, [])
        end
    | Ok false => add_missing rest j updated disk
    | Raised => (Raised, disk, [])
    end.
Proof.
  cbn [add_missing]. unfold jbind, jlift, jprint.
  destruct (key_missing j k) as [[|]|]; [|cbv beta iota|reflexivity].
  - destruct (set_item j k v) as [j'|]; [|reflexivity].
    now destruct (add_missing rest j' true disk) as [[r d] t].
  - now destruct (add_missing rest j updated disk) as [[r d] t].
Qed.

Lemma add_missing_other (items : list (string * json)) (j : json)
    (updated : bool) (disk : Disk) :
  (∀ d, j ≠ JObj d) →
  (add_missing items j updated disk = (Ok (j, updated), disk, [])
   ∧ ∀ key, key ∈ items.*1 → key_missing j key = Ok false)
  ∨ add_missing items j updated disk = (Raised, disk, []).
Proof.
  intros Hj. induction items as [|[k v] rest IH].
  - left. split; [reflexivity|]. intros key Hkey.
    now apply elem_of_nil in Hkey.
  - rewrite add_missing_cons.
    destruct (key_missing j k) as [[|]|] eqn:Hk.
    + right. destruct j; try reflexivity. now destruct (Hj fields).
    + destruct IH as [[-> Hall] | ->]; [left|now right].
      split; [reflexivity|]. intros key Hkey. cbn in Hkey.
      apply elem_of_cons in Hkey as [->|Hkey]; auto.
    + now right.
Qed.

Lemma added_lines_none (d : gmap string json) (items : list (string * json)) :
  added_lines d items = [] ↔ ∀ key, key ∈ items.*1 → is_Some (d !! key).
Proof.
  induction items as [|[k v] rest IH].
  - split; [|reflexivity]. intros _ key Hkey. now apply elem_of_nil in Hkey.
  - unfold added_lines. cbn [flat_map fst snd]. fold (added_lines d rest).
    split.
    + intros Hnil key Hkey. cbn in Hkey.
      destruct (d !! k) as [x|] eqn:Hdk; [|discriminate Hnil].
      apply elem_of_cons in Hkey as [->|Hkey]; [rewrite Hdk; eauto|].
      now apply IH.
    + intros Hall.
      destruct (Hall k) as [x ->]; [apply list_elem_of_here|].
      apply IH. intros key Hkey. apply Hall. now apply list_elem_of_further.
Qed.

Lemma union_all_present (d : gmap string json) (items : list (string * json)) :
  added_lines d items = [] → d ∪ list_to_map items = d.
Proof.
  rewrite added_lines_none. intros Hall. apply map_eq. intros i.
  rewrite lookup_union.
  destruct (d !! i) as [x|] eqn:Hdi.
  - now destruct (list_to_map items !! i).
  - destruct (list_to_map items !! i) as [y|] eqn:Hi; [|reflexivity].
    apply elem_of_list_to_map_2 in Hi.
    destruct (Hall i) as [x Hx]; [|congruence].
    apply list_elem_of_fmap. now exists (i, y).
Qed.

Lemma dict_has_all_settings (c : Config) (m : gmap string json) :
  added_lines m (config_items c) = [] ↔ has_all_settings c (JObj m).
Proof.
  rewrite added_lines_none. unfold has_all_settings, key_missing.
  split; intros Hall key Hkey; specialize (Hall key Hkey).
  - now destruct Hall as [x ->].
  - destruct (m !! key); [eauto|discriminate Hall].
Qed.

Lemma merged_has_all_settings (c : Config) (d : gmap string json) :
  added_lines (d ∪ _get_current_config c) (config_items c) = [].
Proof.
  apply added_lines_none. intros key Hkey.
  apply list_elem_of_fmap in Hkey as ([k v] & -> & Hin).
  apply config_lookup_items in Hin. apply lookup_union_is_Some. right. eauto.
Qed.

Section SettingsFile.
Context (write_fails : Path → Disk → json → option record_file).
Context (paths : ConfigPaths) (c : Config) (p : Path).
Hypothesis Hpath : config_file paths = Some p.

Lemma save_config_written (disk : Disk) :
  write_fails p disk (JObj (_get_current_config c)) = None →
  _save_config write_fails paths c disk
  = (Ok (), <[p := Parsed (JObj (_get_current_config c))]> disk, []).
Proof.
  intros Hw. unfold _save_config, jtry, jbind, attribute, dump_json.
  rewrite Hpath. unfold jret. cbv beta iota zeta. now rewrite Hw.
Qed.

Lemma load_or_create_dict (disk : Disk) (d : gmap string json) :
  file_at disk p = Parsed (JObj d) →
  (added_lines d (config_items c) ≠ [] →
   write_fails p disk (JObj (d ∪ _get_current_config c)) = None) →
  _load_or_create_config write_fails paths c disk
  = (Ok (),
     match added_lines d (config_items c) with
     | [] => disk
     | _ :: _ => <[p := Parsed (JObj (d ∪ _get_current_config c))]> disk
     end,
     added_lines d (config_items c)
     ++ match added_lines d (config_items c) with
        | [] => []
        | _ :: _ => [MsgUpdated]
        end).
Proof.
  intros Hfile Hw.
  unfold _load_or_create_config, jbind at 1, attribute. rewrite Hpath.
  unfold jret at 1, jbind at 1, file_exists. rewrite Hfile.
  unfold jtry, jbind at 1, load_json. rewrite Hfile. unfold jbind at 1.
  rewrite (add_missing_dict _ (config_keys_NoDup c)).
  fold (_get_current_config c). cbn [fst snd].
  destruct (added_lines d (config_items c)) as [|line lines] eqn:Hlines.
  - reflexivity.
  - unfold jbind, dump_json, jprint. rewrite Hw by discriminate.
    cbn. reflexivity.
Qed.

Lemma load_or_create_settled (disk : Disk) (j : json) :
  file_at disk p = Parsed j → has_all_settings c j →
  _load_or_create_config write_fails paths c disk = (Ok (), disk, []).
Proof.
  intros Hfile Hall.
  unfold _load_or_create_config, jbind at 1, attribute. rewrite Hpath.
  unfold jret at 1, jbind at 1, file_exists. rewrite Hfile.
  unfold jtry, jbind at 1, load_json. rewrite Hfile. unfold jbind at 1.
  now rewrite (add_missing_present _ _ _ _ Hall).
Qed.

Lemma file_at_insert (disk : Disk) (f : record_file) :
  file_at (<[p := f]> disk) p = f.
Proof. unfold file_at. now rewrite lookup_insert_eq. Qed.

Lemma load_or_create_repaired (disk : Disk) :
  write_fails p disk (JObj (_get_current_config c)) = None →
  (file_at disk p = Unreadable
   ∨ ∃ j, file_at disk p = Parsed j
          ∧ add_missing (config_items c) j false disk = (Raised, disk, [])) →
  _load_or_create_config write_fails paths c disk
  = (Ok (), <[p := Parsed (JObj (_get_current_config c))]> disk,
     [MsgLoadError]).
Proof.
  intros Hw Hfile.
  unfold _load_or_create_config, jbind at 1, attribute. rewrite Hpath.
  unfold jret at 1, jbind at 1, file_exists.
  destruct Hfile as [Hfile|(j & Hfile & Hraise)]; rewrite Hfile.
  - unfold jtry, jbind at 1, load_json. rewrite Hfile.
    unfold jbind, jprint. now rewrite (save_config_written disk Hw).
  - unfold jtry, jbind at 1, load_json. rewrite Hfile. unfold jbind at 1.
    rewrite Hraise.
    unfold jbind, jprint. now rewrite (save_config_written disk Hw).
Qed.

Lemma load_or_create_absent (disk : Disk) :
  write_fails p disk (JObj (_get_current_config c)) = None →
  file_at disk p = Absent →
  _load_or_create_config write_fails paths c disk
  = (Ok (), <[p := Parsed (JObj (_get_current_config c))]> disk,
     [MsgCreated]).
Proof.
  intros Hw Hfile.
  unfold _load_or_create_config, jbind at 1, attribute. rewrite Hpath.
  unfold jret at 1, jbind at 1, file_exists. rewrite Hfile.
  unfold jbind, jprint. now rewrite (save_config_written disk Hw).
Qed.

End SettingsFile.

(** X17: when the settings file holds a dict, [_load_or_create_config]
    keeps every value the file has and adds each current setting the
    file lacks, printing one line for each in the order of the settings
    and then that the file was updated; a file that lacks none is left
    untouched and nothing is printed. No other file changes. *)
Theorem settings_file_gets_missing_defaults
    (write_fails : Path → Disk → json → option record_file)
    (paths : ConfigPaths) (c : Config) (p : Path) (disk : Disk)
    (d : gmap string json) :
  config_file paths = Some p →
  file_at disk p = Parsed (JObj d) →
  write_fails p disk (JObj (d ∪ _get_current_config c)) = None →
  ∃ disk',
    _load_or_create_config write_fails paths c disk
    = (Ok (), disk',
       added_lines d (config_items c)
       ++ match added_lines d (config_items c) with
          | [] => []
          | _ :: _ => [MsgUpdated]
          end)
    ∧ file_at disk' p = Parsed (JObj (d ∪ _get_current_config c))
    ∧ (∀ q, q ≠ p → disk' !! q = disk !! q)
    ∧ (added_lines d (config_items c) = [] → disk' = disk)
    ∧ (∀ key value, MsgAdded key value ∈ added_lines d (config_items c)
         ↔ d !! key = None ∧ (key, value) ∈ config_items c).
Proof.
  intros Hpath Hfile Hw.
  rewrite (load_or_create_dict write_fails paths c p Hpath disk d Hfile)
    by (intros _; exact Hw).
  eexists. split; [reflexivity|].
  destruct (added_lines d (config_items c)) as [|line lines] eqn:Hlines.
  - split; [|split; [|split]].
    + rewrite Hfile. unfold _get_current_config.
      now rewrite (union_all_present d (config_items c) Hlines).
    + reflexivity.
    + reflexivity.
    + intros key value. split.
      * intros Hin. now apply elem_of_nil in Hin.
      * intros [Hnone Hin]. exfalso.
        destruct (proj1 (added_lines_none d (config_items c)) Hlines key)
          as [x Hx]; [|congruence].
        apply list_elem_of_fmap. now exists (key, value).
  - split; [|split; [|split]].
    + apply file_at_insert.
    + intros q Hq. now rewrite lookup_insert_ne by congruence.
    + discriminate.
    + intros key value. rewrite <- Hlines. unfold added_lines.
      rewrite list_elem_of_In, in_flat_map. split.
      * intros ([k v] & Hkv & Hin). apply list_elem_of_In in Hkv.
        cbn [fst snd] in Hin. destruct (d !! k) eqn:Hdk; [destruct Hin|].
        destruct Hin as [[= <- <-]|[]]. auto.
      * intros [Hnone Hin]. exists (key, value).
        split; [now apply list_elem_of_In|].
        cbn [fst snd]. rewrite Hnone. now left.
Qed.

(** X18: whatever the settings file holds (nothing, something that does
    not parse, or any JSON value), one call of [_load_or_create_config]
    on a disk that takes the writes returns normally, changes no other
    file and leaves a file in which every current setting is present; a
    second call then prints nothing and writes nothing. *)
Theorem settings_file_settles
    (write_fails : Path → Disk → json → option record_file)
    (paths : ConfigPaths) (c : Config) (p : Path) (disk : Disk) :
  config_file paths = Some p →
  (∀ j, write_fails p disk j = None) →
  ∃ disk' msgs j,
    _load_or_create_config write_fails paths c disk = (Ok (), disk', msgs)
    ∧ (∀ q, q ≠ p → disk' !! q = disk !! q)
    ∧ file_at disk' p = Parsed j
    ∧ has_all_settings c j
    ∧ _load_or_create_config write_fails paths c disk' = (Ok (), disk', []).
Proof.
  intros Hpath Hw.
  assert (Hrepaired : ∀ msgs,
    _load_or_create_config write_fails paths c disk
    = (Ok (), <[p := Parsed (JObj (_get_current_config c))]> disk, msgs) →
    ∃ disk' msgs j,
      _load_or_create_config write_fails paths c disk = (Ok (), disk', msgs)
      ∧ (∀ q, q ≠ p → disk' !! q = disk !! q)
      ∧ file_at disk' p = Parsed j
      ∧ has_all_settings c j
      ∧ _load_or_create_config write_fails paths c disk' = (Ok (), disk', [])).
  { intros msgs Hrun. eexists _, msgs, _.
    assert (Hall : has_all_settings c (JObj (_get_current_config c))).
    { apply dict_has_all_settings.
      rewrite <- (map_union_idemp (_get_current_config c)) at 1.
      apply merged_has_all_settings. }
    split; [exact Hrun|]. split; [|split; [|split]].
    - intros q Hq. now rewrite lookup_insert_ne by congruence.
    - apply file_at_insert.
    - exact Hall.
    - eapply load_or_create_settled; [exact Hpath| |exact Hall].
      apply file_at_insert. }
  destruct (file_at disk p) as [| |j] eqn:Hfile.
  - eapply Hrepaired, load_or_create_absent; eauto.
  - eapply Hrepaired, load_or_create_repaired; eauto.
  - assert (Hother : (∀ d, j ≠ JObj d) →
      ∃ disk' msgs j,
        _load_or_create_config write_fails paths c disk = (Ok (), disk', msgs)
        ∧ (∀ q, q ≠ p → disk' !! q = disk !! q)
        ∧ file_at disk' p = Parsed j
        ∧ has_all_settings c j
        ∧ _load_or_create_config write_fails paths c disk'
          = (Ok (), disk', [])).
    { intros Hj.
      destruct (add_missing_other (config_items c) j false disk Hj)
        as [[_ Hall]|Hraise].
      - exists disk, [], j.
        pose proof (load_or_create_settled write_fails paths c p Hpath
                      disk j Hfile Hall) as Hrun.
        repeat split; auto.
      - eapply Hrepaired, load_or_create_repaired; eauto. }
    destruct j as [| | | | | |d]; try (apply Hother; intros d'; discriminate).
    pose proof (load_or_create_dict write_fails paths c p Hpath disk d Hfile
                  (λ _, Hw _)) as Hrun.
    destruct (added_lines d (config_items c)) as [|line lines] eqn:Hlines.
    + exists disk, [], (JObj d).
      assert (Hall : has_all_settings c (JObj d))
        by now apply dict_has_all_settings.
      repeat split; auto.
    + eexists _, _, _. split; [exact Hrun|].
      assert (Hall : has_all_settings c (JObj (d ∪ _get_current_config c))).
      { apply dict_has_all_settings, merged_has_all_settings. }
      split; [|split; [|split]].
      * intros q Hq. now rewrite lookup_insert_ne by congruence.
      * apply file_at_insert.
      * exact Hall.
      * eapply load_or_create_settled; [exact Hpath| |exact Hall].
        apply file_at_insert.
Qed.

Lemma snapshot_same_keys (c1 c2 : Config) :
  dom (_get_current_config c1) = dom (_get_current_config c2).
Proof.
  unfold _get_current_config. rewrite !dom_list_to_map_L.
  assert (Hkeys : (config_items c1).*1 = (config_items c2).*1)
    by reflexivity.
  rewrite Hkeys. reflexivity.
Qed.

Lemma save_cached_config_snapshot
    (write_fails : Path → Disk → json → option record_file)
    (paths : ConfigPaths) (c : Config) (p : Path) (disk : Disk) :
  cached_config_file paths = Some p →
  config_file paths ≠ Some p →
  write_fails p disk (JObj (_get_current_config c)) = None →
  ∃ disk' saved,
    _save_cached_config write_fails paths c disk = (Ok (), disk', saved)
    ∧ file_at disk' p = Parsed (JObj (_get_current_config c)).
Proof.
  intros Hp Hq Hw.
  unfold _save_cached_config, jbind at 1, jtry at 1, jbind at 1, attribute.
  rewrite Hp. unfold jret at 1, dump_json at 1. cbv beta iota zeta.
  rewrite Hw. unfold jtry, jbind, jprint.
  destruct (config_file paths) as [q|]; unfold jret, jraise.
  - unfold dump_json.
    destruct (write_fails q _ _); cbv beta iota; eexists _, _;
      (split; [reflexivity|]); unfold file_at;
      rewrite lookup_insert_ne by congruence;
      now rewrite lookup_insert_eq.
  - cbv beta iota. eexists _, _. split; [reflexivity|].
    apply file_at_insert.
Qed.

Lemma config_changed_dict (paths : ConfigPaths) (c : Config) (p : Path)
    (disk : Disk) (old : gmap string json) :
  cached_config_file paths = Some p →
  file_at disk p = Parsed (JObj old) →
  _config_changed paths c disk
  = if py_eq (JObj old) (JObj (_get_current_config c))
    then (Ok false, disk, [])
    else (Ok true, disk,
          MsgDifferences
          :: (MsgDifference
              <$> flat_map
                    (λ key,
                       if negb (py_eq (dict_get old key)
                                  (dict_get (_get_current_config c) key))
                       then [LogConfigDiff key (dict_get old key)
                               (dict_get (_get_current_config c) key)]
                       else [])
                    (config_items c).*1)).
Proof.
  intros Hp Hfile.
  unfold _config_changed. cbv zeta. unfold jbind at 1, attribute.
  rewrite Hp. unfold jret at 1, jbind at 1, file_exists. rewrite Hfile.
  unfold jtry, jbind at 1, load_json. rewrite Hfile.
  destruct (py_eq (JObj old) (JObj (_get_current_config c))); [reflexivity|].
  unfold negb at 1, jbind, jprint, jlift, jprint_all, jret, config_differences.
  cbv beta iota zeta. cbn [app]. now rewrite app_nil_r.
Qed.

(** X19: the snapshot [_save_cached_config] writes is what
    [_config_changed] compares with: after a save under one
    configuration, the check under another returns [False] and prints
    nothing exactly when the eight snapshot settings are the same;
    otherwise it returns [True] and prints a header and then exactly one
    line for each setting that differs, in the order of the settings, at
    least one. The check never changes a file, and with no snapshot file
    it reports a first run. *)
Theorem snapshot_file_detects_changes
    (write_fails : Path → Disk → json → option record_file)
    (paths : ConfigPaths) (c1 c2 : Config) (p : Path) (disk : Disk) :
  cached_config_file paths = Some p →
  config_file paths ≠ Some p →
  write_fails p disk (JObj (_get_current_config c1)) = None →
  (file_at disk p = Absent →
   _config_changed paths c2 disk = (Ok true, disk, [MsgFirstRun]))
  ∧ ∃ disk' saved changed lines,
      _save_cached_config write_fails paths c1 disk = (Ok (), disk', saved)
      ∧ _config_changed paths c2 disk' = (Ok changed, disk', lines)
      ∧ (changed = false ↔ same_settings c1 c2)
      ∧ (lines = [] ↔ same_settings c1 c2)
      ∧ (changed = true →
         ∃ diffs,
           lines = MsgDifferences :: (MsgDifference <$> diffs)
           ∧ diffs ≠ []
           ∧ diffs
             = (λ key, LogConfigDiff key
                         (dict_get (_get_current_config c1) key)
                         (dict_get (_get_current_config c2) key))
               <$> filter
                     (λ key, py_eq (dict_get (_get_current_config c1) key)
                               (dict_get (_get_current_config c2) key)
                             = false)
                     (config_items c2).*1
           ∧ NoDup diffs
           ∧ ∀ line, line ∈ diffs ↔
               ∃ key, key ∈ (config_items c2).*1
                      ∧ py_eq (dict_get (_get_current_config c1) key)
                          (dict_get (_get_current_config c2) key) = false
                      ∧ line = LogConfigDiff key
                                 (dict_get (_get_current_config c1) key)
                                 (dict_get (_get_current_config c2) key)).
Proof.
  intros Hp Hq Hw. split.
  { intros Hfile. unfold _config_changed. cbv zeta.
    unfold jbind at 1, attribute. rewrite Hp.
    unfold jret at 1, jbind at 1, file_exists. now rewrite Hfile. }
  destruct (save_cached_config_snapshot write_fails paths c1 p disk Hp Hq Hw)
    as (disk' & saved & Hsave & Hfile).
  pose proof (config_changed_dict paths c2 p disk' _ Hp Hfile) as Hrun.
  pose proof (snapshot_same_settings c1 c2) as Hsame.
  destruct (py_eq (JObj (_get_current_config c1))
              (JObj (_get_current_config c2))) eqn:Heq.
  - exists disk', saved, false, []. apply proj1 in Hsame.
    specialize (Hsame eq_refl).
    split; [exact Hsave|]. split; [exact Hrun|].
    split; [split; intros _; [exact Hsame|reflexivity]|].
    split; [split; intros _; [exact Hsame|reflexivity]|].
    intros Hne. discriminate Hne.
  - assert (Hnot : ¬ same_settings c1 c2).
    { intros H. apply Hsame in H. discriminate H. }
    eexists disk', saved, true, _. split; [exact Hsave|].
    split; [exact Hrun|]. split; [|split].
    + split; [discriminate|]. intros H. now destruct Hnot.
    + split; [discriminate|]. intros H. now destruct Hnot.
    + intros _. eexists. split; [reflexivity|].
      destruct (differing_key_exists c2 (_get_current_config c1)
                  (snapshot_same_keys c1 c2) Heq) as (key & Hkey & Hk).
      pose proof (differences_elem (_get_current_config c1)
                    (_get_current_config c2) (config_items c2).*1) as Hiff.
      split; [|split; [apply differences_list|split; [|exact Hiff]]].
      * intros Hnil.
        assert (Hin : LogConfigDiff key
                        (dict_get (_get_current_config c1) key)
                        (dict_get (_get_current_config c2) key)
                      ∈ @nil log_msg).
        { rewrite <- Hnil. apply Hiff. eauto. }
        now apply elem_of_nil in Hin.
      * rewrite differences_list.
        apply differences_NoDup, config_keys_NoDup.
Qed.

(** ** The cache lock *)

(** C3, as the code behaves: on a cache hit the task checks that the
    artifact exists and copies it over the original between acquiring and
    releasing [self.cache_lock]. *)
Theorem cache_hit_copies_under_lock `{E : Externals} (self : Plugin)
    (f : Path) (w : World) (content : bytes) (entry : json)
    (filename : string) :
  ext_in (lower (suffix f)) IMAGE_EXTENSIONS && skip_images (config self)
  = false →
  ext_in (lower (suffix f)) VIDEO_EXTENSIONS && skip_videos (config self)
  = false →
  fs w !! f = Some content →
  cache w !! file_digest content = Some entry →
  entry_filename entry = Some filename →
  is_Some (fs w !! path_join (self_cache_dir self) filename) →
  let artifact := path_join (self_cache_dir self) filename in
  trace (_process_media_file self f) w
  = [EvOpenRead f; EvAcquire; EvLookup (file_digest content);
     EvExists artifact; EvCopy artifact f; EvRelease]
  ∧ under_lock (trace (_process_media_file self f) w)
    = [EvLookup (file_digest content); EvExists artifact; EvCopy artifact f].
Proof.
  intros Himg Hvid Hf Hentry Hname Hart artifact.
  assert (Htrace : trace (_process_media_file self f) w
                   = [EvOpenRead f; EvAcquire; EvLookup (file_digest content);
                      EvExists artifact; EvCopy artifact f; EvRelease]).
  { unfold _process_media_file. rewrite Himg, Hvid.
    unfold trace, _compute_file_hash, use_cached, with_lock, cache_lookup,
      cached_file_of, path_exists, copy2, bind, ret, raise, emit, get_world,
      put_world.
    cbn. rewrite Hf. cbn. rewrite Hentry. cbn. rewrite Hname. cbn.
    fold artifact. rewrite (bool_decide_eq_true_2 _ Hart). cbn.
    destruct Hart as [compressed Hart]. fold artifact in Hart.
    case_bool_decide; cbn; [reflexivity|]. rewrite Hart. reflexivity. }
  split; [exact Htrace|]. rewrite Htrace. reflexivity.
Qed.

#[local] Existing Instance demo_externals.

Lemma cache_hit_copies_under_lock_witness :
  under_lock (trace (_process_media_file demo_plugin pic_png)
                warm_world)
  = [EvLookup pic_digest; EvExists pic_artifact; EvCopy pic_artifact pic_png].
Proof.
  refine (proj2 (cache_hit_copies_under_lock demo_plugin
                   pic_png warm_world pic_content
                   (new_entry (pic_digest +:+ ".PNG") pic_digest)
                   (pic_digest +:+ ".PNG") _ _ _ _ _ _));
    first [ reflexivity | vm_compute; eauto ].
Defined.

(** ** Image resizing *)

(** Rounding to a double, read off [SpecFloat]. *)

Lemma digits2_bounds (p : positive) :
  2 ^ (Z.pos (digits2_pos p) - 1) <= Z.pos p < 2 ^ Z.pos (digits2_pos p).
Proof.
  induction p as [p IH|p IH|]; cbn [digits2_pos].
  - rewrite Pos2Z.inj_succ, Z.pow_succ_r by lia.
    replace (Z.succ (Z.pos (digits2_pos p)) - 1) with (Z.succ (Z.pos (digits2_pos p) - 1)) by lia.
    rewrite Z.pow_succ_r by lia. lia.
  - rewrite Pos2Z.inj_succ, Z.pow_succ_r by lia.
    replace (Z.succ (Z.pos (digits2_pos p)) - 1) with (Z.succ (Z.pos (digits2_pos p) - 1)) by lia.
    rewrite Z.pow_succ_r by lia. lia.
  - cbn. lia.
Qed.

Lemma digits2_unique (p : positive) (k : Z) :
  2 ^ (k - 1) <= Z.pos p < 2 ^ k → Z.pos (digits2_pos p) = k.
Proof.
  intros [Hlo Hhi]. pose proof (digits2_bounds p) as [Dlo Dhi].
  assert (0 < k).
  { destruct (Z.lt_trichotomy k 0) as [Hk|[Hk|Hk]]; [|subst; cbn in Hhi; lia|lia].
    rewrite Z.pow_neg_r in Hhi by lia. lia. }
  destruct (Z.lt_trichotomy (Z.pos (digits2_pos p)) k) as [Hlt|[Heq|Hgt]];
    [|exact Heq|].
  - assert (2 ^ Z.pos (digits2_pos p) <= 2 ^ (k - 1))
      by (apply Z.pow_le_mono_r; lia). lia.
  - assert (2 ^ k <= 2 ^ (Z.pos (digits2_pos p) - 1))
      by (apply Z.pow_le_mono_r; lia). lia.
Qed.

Lemma shr_1_half (r : shr_record) :
  0 <= shr_m r → shr_m (shr_1 r) = shr_m r / 2.
Proof.
  destruct r as [m b s]. cbn [shr_m]. intros Hm.
  destruct m as [|[p|p|]|p]; cbn [shr_1 shr_m]; try reflexivity; try lia.
  - apply Z.div_unique with 1; lia.
  - apply Z.div_unique with 0; lia.
Qed.

Lemma shr_1_nonneg (r : shr_record) : 0 <= shr_m r → 0 <= shr_m (shr_1 r).
Proof. intros H. rewrite shr_1_half by assumption. apply Z.div_pos; lia. Qed.

Lemma iter_shr_1 (p : positive) (r : shr_record) :
  0 <= shr_m r →
  shr_m (SpecFloat.iter_pos shr_1 p r) = shr_m r / 2 ^ Z.pos p
  ∧ 0 <= shr_m (SpecFloat.iter_pos shr_1 p r).
Proof.
  revert r. induction p as [p IH|p IH|]; intros r Hr;
    cbn [SpecFloat.iter_pos].
  - pose proof (shr_1_nonneg r Hr) as H1.
    destruct (IH (shr_1 r) H1) as [E1 N1].
    destruct (IH _ N1) as [E2 N2]. split; [|exact N2].
    rewrite E2, E1, shr_1_half by assumption.
    rewrite !Z.div_div by lia. f_equal.
    replace (Z.pos p~1) with (1 + Z.pos p + Z.pos p) by lia.
    rewrite !Z.pow_add_r by lia. lia.
  - destruct (IH r Hr) as [E1 N1]. destruct (IH _ N1) as [E2 N2].
    split; [|exact N2]. rewrite E2, E1, Z.div_div by lia. f_equal.
    replace (Z.pos p~0) with (Z.pos p + Z.pos p) by lia.
    rewrite Z.pow_add_r by lia. reflexivity.
  - split; [|now apply shr_1_nonneg]. rewrite shr_1_half by assumption.
    reflexivity.
Qed.

Lemma round_nearest_even_bounds (m : Z) (l : location) :
  m <= round_nearest_even m l <= m + 1.
Proof.
  destruct l as [|[]]; cbn [round_nearest_even]; try lia.
  destruct (Z.even m); lia.
Qed.

Lemma fexp_normal (e : Z) :
  -1074 <= e - 53 → fexp prec emax e = e - 53.
Proof. unfold fexp, SpecFloat.emin, prec, emax. lia. Qed.

(** The first shift of [binary_round_aux]: the mantissa loses its [n]
    low bits. *)
Lemma shr_fexp_normal (mx : positive) (ex : Z) (lx : location) :
  let n := Z.pos (digits2_pos mx) - 53 in
  0 <= n → -1074 <= ex + n →
  ∃ mrs, shr_fexp prec emax (Z.pos mx) ex lx = (mrs, ex + n)
         ∧ shr_m mrs = Z.pos mx / 2 ^ n.
Proof.
  intros n Hn He. unfold shr_fexp. cbn [Zdigits2].
  rewrite fexp_normal by lia.
  replace (Z.pos (digits2_pos mx) + ex - 53 - ex) with n by lia.
  unfold shr. destruct n as [|p|p] eqn:En; [| |lia].
  - eexists. split; [f_equal; lia|].
    rewrite Z.pow_0_r, Z.div_1_r. now destruct lx as [|[]].
  - destruct (iter_shr_1 p (shr_record_of_loc (Z.pos mx) lx)) as [E _].
    { destruct lx as [|[]]; cbn; lia. }
    eexists. split; [reflexivity|]. rewrite E. now destruct lx as [|[]].
Qed.

Lemma binary_round_aux_normal (sx : bool) (mx : positive) (ex : Z)
    (lx : location) :
  let n := Z.pos (digits2_pos mx) - 53 in
  0 <= n → -1074 <= ex + n → ex + n + 1 <= 971 →
  ∃ m e,
    binary_round_aux prec emax sx (Z.pos mx) ex lx = S754_finite sx m e
    ∧ Z.pos (digits2_pos m) = 53
    ∧ ex + n <= e <= ex + n + 1
    ∧ Z.pos mx / 2 ^ n <= Z.pos m * 2 ^ (e - (ex + n))
      <= Z.pos mx / 2 ^ n + 1.
Proof.
  intros n Hn Hlo Hhi.
  destruct (shr_fexp_normal mx ex lx Hn Hlo) as (mrs & Hshr & Hm).
  fold n in Hshr, Hm. unfold binary_round_aux. rewrite Hshr.
  set (m' := Z.pos mx / 2 ^ n) in *.
  assert (Hm' : 2 ^ 52 <= m' < 2 ^ 53).
  { pose proof (digits2_bounds mx) as [Dlo Dhi].
    replace (Z.pos (digits2_pos mx)) with (n + 53) in Dhi by lia.
    replace (Z.pos (digits2_pos mx) - 1) with (n + 52) in Dlo by lia.
    rewrite Z.pow_add_r in Dlo, Dhi by lia. subst m'. split.
    - apply Z.div_le_lower_bound; lia.
    - apply Z.div_lt_upper_bound; lia. }
  pose proof (round_nearest_even_bounds (shr_m mrs) (loc_of_shr_record mrs))
    as Hr.
  rewrite Hm in *.
  set (m1 := round_nearest_even m' (loc_of_shr_record mrs)) in *.
  destruct m1 as [|p1|p1] eqn:E1; [lia| |lia].
  destruct (Z.eq_dec (Z.pos p1) (2 ^ 53)) as [Htop|Htop].
  - (* the mantissa overflowed to 2^53: one more shift *)
    assert (Hd : Z.pos (digits2_pos p1) = 54)
      by (apply digits2_unique; rewrite Htop; cbn; lia).
    unfold shr_fexp. cbn [Zdigits2]. rewrite Hd, fexp_normal by lia.
    replace (54 + (ex + n) - 53 - (ex + n)) with 1 by lia.
    cbn [shr shr_record_of_loc SpecFloat.iter_pos].
    assert (Hp1 : p1 = (2 ^ 53)%positive) by lia. subst p1.
    cbn [shr_1 shr_m Pos.pow Pos.iter Pos.mul].
    replace (ex + n + 1 <=? emax - prec) with true
      by (symmetry; apply Z.leb_le; unfold emax, prec; lia).
    eexists _, _. split; [reflexivity|]. split; [reflexivity|].
    split; [lia|]. replace (ex + n + 1 - (ex + n)) with 1 by lia.
    change (2 ^ 53) with 9007199254740992 in *. lia.
  - assert (Hd : Z.pos (digits2_pos p1) = 53)
      by (apply digits2_unique; cbn; lia).
    unfold shr_fexp. cbn [Zdigits2]. rewrite Hd, fexp_normal by lia.
    replace (53 + (ex + n) - 53 - (ex + n)) with 0 by lia.
    cbn [shr shr_record_of_loc shr_m].
    replace (ex + n <=? emax - prec) with true
      by (symmetry; apply Z.leb_le; unfold emax, prec; lia).
    eexists _, _. split; [reflexivity|]. split; [exact Hd|].
    split; [lia|]. rewrite Z.sub_diag, Z.pow_0_r. lia.
Qed.

Lemma binary_round_aux_exact (sx : bool) (mx : positive) (ex : Z) :
  Z.pos (digits2_pos mx) = 53 → -1074 <= ex <= 971 →
  binary_round_aux prec emax sx (Z.pos mx) ex loc_Exact = S754_finite sx mx ex.
Proof.
  intros Hd He. unfold binary_round_aux, shr_fexp. cbn [Zdigits2].
  rewrite Hd, fexp_normal by lia.
  replace (53 + ex - 53 - ex) with 0 by lia.
  cbn [shr shr_record_of_loc shr_m loc_of_shr_record round_nearest_even
       Zdigits2].
  rewrite Hd, fexp_normal by lia. replace (53 + ex - 53 - ex) with 0 by lia.
  cbn [shr shr_record_of_loc shr_m].
  replace (ex <=? emax - prec) with true
    by (symmetry; apply Z.leb_le; unfold emax, prec; lia).
  reflexivity.
Qed.

Lemma pos_iter_xO (p k : positive) :
  Z.pos (Pos.iter xO p k) = Z.pos p * 2 ^ Z.pos k.
Proof.
  induction k as [|k IH] using Pos.peano_ind.
  - cbn. lia.
  - rewrite Pos.iter_succ, Pos2Z.inj_succ, Z.pow_succ_r by lia.
    rewrite Pos2Z.inj_xO, IH. lia.
Qed.

Lemma py_float_spec (z : Z) :
  0 < z < 2 ^ 53 →
  ∃ m e, Prim2SF (py_float z) = S754_finite false m e
         ∧ Z.pos (digits2_pos m) = 53
         ∧ -52 <= e <= 0
         ∧ Z.pos m = z * 2 ^ (- e).
Proof.
  intros Hz. destruct z as [|p|p]; [lia| |lia].
  unfold py_float, binary_normalize, binary_round.
  pose proof (digits2_bounds p) as [Dlo Dhi].
  set (d := Z.pos (digits2_pos p)) in *.
  assert (Hd : 1 <= d <= 53).
  { split; [subst d; lia|].
    destruct (Z_le_gt_dec d 53) as [|Hgt]; [assumption|].
    assert (2 ^ 53 <= 2 ^ (d - 1)) by (apply Z.pow_le_mono_r; lia). lia. }
  rewrite Z.add_0_r, fexp_normal by lia. unfold shl_align.
  rewrite Z.sub_0_r.
  assert (Hres : ∃ m e, (match d - 53 with
                         | Z.neg k => (Pos.iter xO p k, d - 53)
                         | _ => (p, 0)
                         end) = (m, e)
                        ∧ Z.pos (digits2_pos m) = 53
                        ∧ e = d - 53
                        ∧ Z.pos m = Z.pos p * 2 ^ (- e)).
  { destruct (d - 53) as [|k|k] eqn:Ek; [| lia |].
    - exists p, 0. repeat split; try (fold d; lia); cbn; lia.
    - exists (Pos.iter xO p k), (Z.neg k).
      assert (Hk : Z.pos k = 53 - d) by lia.
      split; [reflexivity|]. split; [|split; [reflexivity|]].
      + apply digits2_unique. rewrite pos_iter_xO, Hk.
        assert (E1 : 2 ^ (53 - 1) = 2 ^ (d - 1) * 2 ^ (53 - d))
          by (rewrite <- Z.pow_add_r by lia; f_equal; lia).
        assert (E2 : 2 ^ 53 = 2 ^ d * 2 ^ (53 - d))
          by (rewrite <- Z.pow_add_r by lia; f_equal; lia).
        assert (0 < 2 ^ (53 - d)) by (apply Z.pow_pos_nonneg; lia).
        rewrite E1, E2. nia.
      + rewrite pos_iter_xO. reflexivity. }
  destruct Hres as (m & e & -> & Hdm & He & Hm).
  rewrite binary_round_aux_exact by lia.
  rewrite Prim2SF_SF2Prim.
  - exists m, e. repeat split; try assumption; lia.
  - unfold valid_binary, SpecFloat.bounded, canonical_mantissa.
    rewrite Hdm, fexp_normal by lia.
    apply andb_true_intro. split; [apply Z.eqb_eq; lia|].
    apply Z.leb_le. unfold emax, prec. lia.
Qed.

Lemma pow2_IZR (k : Z) : 0 <= k → IZR (2 ^ k) = powerRZ 2 k.
Proof.
  intros Hk. destruct k as [|p|p]; [reflexivity| |lia].
  cbn [powerRZ]. rewrite pow_IZR, positive_nat_Z. reflexivity.
Qed.

Lemma powerRZ2_pos (e : Z) : (0 < powerRZ 2 e)%R.
Proof. apply powerRZ_lt. lra. Qed.

Lemma powerRZ2_add (a b : Z) :
  powerRZ 2 (a + b) = (powerRZ 2 a * powerRZ 2 b)%R.
Proof. apply powerRZ_add. lra. Qed.

Lemma ulp_eq : (ulp * IZR (2 ^ 52) = 1)%R.
Proof.
  unfold ulp. rewrite pow2_IZR by lia. rewrite <- powerRZ2_add.
  reflexivity.
Qed.

Lemma ulp_pos : (0 < ulp)%R.
Proof. apply powerRZ2_pos. Qed.

Lemma val_pos (m : positive) (e : Z) : (0 < val m e)%R.
Proof.
  unfold val. apply Rmult_lt_0_compat; [apply IZR_lt; lia|apply powerRZ2_pos].
Qed.

Lemma round_val (sx : bool) (mx : positive) (ex : Z) (lx : location) :
  let n := Z.pos (digits2_pos mx) - 53 in
  0 <= n → -1074 <= ex + n → ex + n + 1 <= 971 →
  ∃ m e,
    binary_round_aux prec emax sx (Z.pos mx) ex lx = S754_finite sx m e
    ∧ Z.pos (digits2_pos m) = 53
    ∧ ex + n <= e <= ex + n + 1
    ∧ (val mx ex * (1 - ulp) <= val m e <= val mx ex * (1 + ulp))%R.
Proof.
  intros n Hn Hlo Hhi.
  destruct (binary_round_aux_normal sx mx ex lx Hn Hlo Hhi)
    as (m & e & Hr & Hd & He & Hge & Hle).
  fold n in He, Hge, Hle. exists m, e.
  split; [exact Hr|]. split; [exact Hd|]. split; [exact He|].
  set (m' := Z.pos mx / 2 ^ n) in *.
  assert (H2n : 0 < 2 ^ n) by (apply Z.pow_pos_nonneg; lia).
  assert (HB : m' * 2 ^ n <= Z.pos mx)
    by (subst m'; rewrite Z.mul_comm; apply Z.mul_div_le; lia).
  assert (HB' : Z.pos mx + 1 <= (m' + 1) * 2 ^ n).
  { pose proof (Z.mod_pos_bound (Z.pos mx) (2 ^ n) H2n) as Hmod.
    pose proof (Z.div_mod (Z.pos mx) (2 ^ n) ltac:(lia)) as Hdm.
    fold m' in Hdm. lia. }
  assert (HC : 2 ^ 52 <= m').
  { pose proof (digits2_bounds mx) as [Dlo _].
    replace (Z.pos (digits2_pos mx) - 1) with (n + 52) in Dlo by lia.
    rewrite Z.pow_add_r in Dlo by lia. subst m'.
    apply Z.div_le_lower_bound; lia. }
  apply IZR_le in Hge, Hle, HB, HB', HC.
  rewrite plus_IZR, mult_IZR, pow2_IZR in Hle by lia.
  rewrite mult_IZR, pow2_IZR in Hge by lia.
  rewrite mult_IZR, pow2_IZR in HB by lia.
  rewrite plus_IZR, mult_IZR, plus_IZR, pow2_IZR in HB' by lia.
  unfold val.
  assert (E : powerRZ 2 e
              = (powerRZ 2 (e - (ex + n)) * (powerRZ 2 ex * powerRZ 2 n))%R)
    by (rewrite <- !powerRZ2_add; f_equal; lia).
  rewrite E.
  pose proof (powerRZ2_pos (e - (ex + n))) as P1.
  pose proof (powerRZ2_pos ex) as P2.
  pose proof (powerRZ2_pos n) as P3.
  pose proof ulp_eq as U. pose proof ulp_pos as U0.
  set (a := IZR (Z.pos m)) in *. set (P := powerRZ 2 (e - (ex + n))) in *.
  set (X := powerRZ 2 ex) in *. set (N := powerRZ 2 n) in *.
  set (M' := IZR m') in *. set (MX := IZR (Z.pos mx)) in *.
  set (T := IZR (2 ^ 52)) in *.
  assert (HXN : (0 < X * N)%R) by (apply Rmult_lt_0_compat; assumption).
  assert (HuM : (1 <= ulp * M')%R).
  { assert (ulp * T <= ulp * M')%R by (apply Rmult_le_compat_l; lra). lra. }
  assert (L1 : (M' * (X * N) <= a * P * (X * N))%R)
    by (apply Rmult_le_compat_r; lra).
  assert (H1 : (a * P * (X * N) <= (M' + 1) * (X * N))%R)
    by (apply Rmult_le_compat_r; lra).
  assert (H4 : (M' * N * X <= MX * X)%R)
    by (apply Rmult_le_compat_r; lra).
  assert (L4 : ((MX + 1) * X <= (M' + 1) * N * X)%R)
    by (apply Rmult_le_compat_r; lra).
  assert (HuMXN : (1 * (X * N) <= ulp * M' * (X * N))%R)
    by (apply Rmult_le_compat_r; lra).
  assert (Hu1 : (ulp <= 1)%R).
  { assert (1 <= T)%R by (apply IZR_le; cbv; discriminate).
    assert (ulp * 1 <= ulp * T)%R by (apply Rmult_le_compat_l; lra). lra. }
  assert (HuMX : (ulp * (M' * N * X) <= ulp * (MX * X))%R)
    by (apply Rmult_le_compat_l; lra).
  split.
  - assert (MX * X * (1 - ulp) <= M' * (X * N))%R; [|lra].
    assert (0 <= X)%R by lra.
    assert ((MX + 1) * X * (1 - ulp) <= (M' + 1) * N * X * (1 - ulp))%R
      by (apply Rmult_le_compat_r; lra).
    assert (0 <= X * (1 - ulp))%R by (apply Rmult_le_pos; lra).
    nra.
  - nra.
Qed.

Lemma digits2_range (p : positive) (a b : Z) :
  0 <= a → 2 ^ a <= Z.pos p < 2 ^ b → a + 1 <= Z.pos (digits2_pos p) <= b.
Proof.
  intros Ha [Hlo Hhi]. pose proof (digits2_bounds p) as [Dlo Dhi].
  set (d := Z.pos (digits2_pos p)) in *.
  assert (Hd : 0 < d) by (subst d; lia).
  assert (0 < b).
  { destruct (Z.lt_trichotomy b 0) as [Hk|[Hk|Hk]]; [|subst; cbn in Hhi; lia|lia].
    rewrite Z.pow_neg_r in Hhi by lia. lia. }
  split.
  - destruct (Z_le_gt_dec (a + 1) d) as [|Hgt]; [assumption|].
    assert (2 ^ d <= 2 ^ a) by (apply Z.pow_le_mono_r; lia). lia.
  - destruct (Z_le_gt_dec d b) as [|Hgt]; [assumption|].
    assert (2 ^ b <= 2 ^ (d - 1)) by (apply Z.pow_le_mono_r; lia). lia.
Qed.

Lemma digits53 (m : positive) :
  Z.pos (digits2_pos m) = 53 → 2 ^ 52 <= Z.pos m < 2 ^ 53.
Proof. intros H. pose proof (digits2_bounds m) as B. rewrite H in B. exact B. Qed.

Lemma ulp_num : (ulp * 4503599627370496 = 1)%R.
Proof. exact ulp_eq. Qed.

Lemma SFdiv_val (m1 m2 : positive) (e1 e2 : Z) :
  Z.pos (digits2_pos m1) = 53 → Z.pos (digits2_pos m2) = 53 →
  -900 <= e1 - e2 <= 900 →
  ∃ m e,
    SFdiv prec emax (S754_finite false m1 e1) (S754_finite false m2 e2)
      = S754_finite false m e
    ∧ Z.pos (digits2_pos m) = 53
    ∧ e1 - e2 - 53 <= e <= e1 - e2 - 51
    ∧ (val m1 e1 * (1 - ulp) * (1 - ulp) <= val m e * val m2 e2
       <= val m1 e1 * (1 + ulp))%R.
Proof.
  intros D1 D2 He. pose proof (digits53 m1 D1) as B1.
  pose proof (digits53 m2 D2) as B2.
  change (2 ^ 52) with 4503599627370496 in B1, B2.
  change (2 ^ 53) with 9007199254740992 in B1, B2.
  unfold SFdiv, SFdiv_core_binary. cbn [Zdigits2 xorb].
  rewrite D1, D2, fexp_normal by lia.
  rewrite Z.min_l by lia.
  replace (e1 - e2 - (53 + e1 - (53 + e2) - 53)) with 53 by lia.
  rewrite Z.shiftl_mul_pow2 by lia.
  pose proof (Z_div_mod (Z.pos m1 * 2 ^ 53) (Z.pos m2) eq_refl) as Hqr.
  destruct (Z.div_eucl (Z.pos m1 * 2 ^ 53) (Z.pos m2)) as [q r].
  destruct Hqr as [Hq Hr].
  change (2 ^ 53) with 9007199254740992 in Hq.
  assert (Bq : 2 ^ 52 <= q < 2 ^ 54).
  { change (2 ^ 52) with 4503599627370496.
    change (2 ^ 54) with 18014398509481984. nia. }
  destruct q as [|pq|pq]; [lia| |lia].
  pose proof (digits2_range pq 52 54 ltac:(lia) Bq) as Dq.
  set (e' := 53 + e1 - (53 + e2) - 53).
  destruct (round_val false pq e' (new_location (Z.pos m2) r))
    as (m & e & Hres & Hd & Hexp & Hlo & Hhi); try (subst e'; lia).
  exists m, e. split; [exact Hres|]. split; [exact Hd|].
  split; [subst e'; lia|].
  pose proof ulp_num as U. pose proof ulp_pos as U0.
  assert (Hpq : (val m1 e1 * (1 - ulp) <= val pq e' * val m2 e2
                 <= val m1 e1)%R).
  { unfold val.
    assert (E : powerRZ 2 e1
                = (powerRZ 2 e' * 9007199254740992 * powerRZ 2 e2)%R).
    { change 9007199254740992%R with (IZR (2 ^ 53)).
      rewrite pow2_IZR, <- !powerRZ2_add by lia. f_equal. subst e'. lia. }
    rewrite E.
    assert (Hz : Z.pos pq * Z.pos m2 <= Z.pos m1 * 9007199254740992) by lia.
    assert (Hz' : Z.pos m1 * 9007199254740992 - Z.pos m2
                  <= Z.pos pq * Z.pos m2) by lia.
    apply IZR_le in Hz, Hz'. rewrite !mult_IZR in Hz.
    rewrite minus_IZR, !mult_IZR in Hz'.
    destruct B1 as [B1 _]. destruct B2 as [_ B2].
    apply IZR_le in B1. apply IZR_lt in B2.
    pose proof (powerRZ2_pos e') as P1.
    pose proof (powerRZ2_pos e2) as P2.
    set (A := powerRZ 2 e') in *. set (B := powerRZ 2 e2) in *.
    set (M1 := IZR (Z.pos m1)) in *. set (M2 := IZR (Z.pos m2)) in *.
    set (Q := IZR (Z.pos pq)) in *.
    assert (HAB : (0 < A * B)%R) by (apply Rmult_lt_0_compat; assumption).
    assert (H1 : (Q * M2 * (A * B) <= M1 * 9007199254740992 * (A * B))%R)
      by (apply Rmult_le_compat_r; lra).
    assert (HuM : (2 * M1 = M1 * 9007199254740992 * ulp)%R).
    { transitivity (M1 * 2 * (ulp * 4503599627370496))%R;
        [rewrite U|]; ring. }
    assert (H2 : ((M1 * 9007199254740992 - M1 * 9007199254740992 * ulp)
                  * (A * B) <= Q * M2 * (A * B))%R)
      by (apply Rmult_le_compat_r; lra).
    split; [|lra].
    replace (M1 * (A * 9007199254740992 * B) * (1 - ulp))%R
      with ((M1 * 9007199254740992 - M1 * 9007199254740992 * ulp)
            * (A * B))%R by ring.
    replace (Q * A * (M2 * B))%R with (Q * M2 * (A * B))%R by ring.
    exact H2. }
  pose proof (val_pos m2 e2) as V2.
  assert (Hu1 : (ulp <= 1)%R) by lra.
  destruct Hpq as [Hpq1 Hpq2].
  assert (H1 : (val m e * val m2 e2
                <= val pq e' * (1 + ulp) * val m2 e2)%R)
    by (apply Rmult_le_compat_r; lra).
  assert (H2 : (val pq e' * val m2 e2 * (1 + ulp)
                <= val m1 e1 * (1 + ulp))%R)
    by (apply Rmult_le_compat_r; lra).
  assert (H3 : (val pq e' * (1 - ulp) * val m2 e2
                <= val m e * val m2 e2)%R)
    by (apply Rmult_le_compat_r; lra).
  assert (H4 : (val m1 e1 * (1 - ulp) * (1 - ulp)
                <= val pq e' * val m2 e2 * (1 - ulp))%R)
    by (apply Rmult_le_compat_r; lra).
  split; lra.
Qed.

Lemma SFmul_val (m1 m2 : positive) (e1 e2 : Z) :
  Z.pos (digits2_pos m1) = 53 → Z.pos (digits2_pos m2) = 53 →
  -900 <= e1 + e2 <= 800 →
  ∃ m e,
    SFmul prec emax (S754_finite false m1 e1) (S754_finite false m2 e2)
      = S754_finite false m e
    ∧ Z.pos (digits2_pos m) = 53
    ∧ (val m1 e1 * val m2 e2 * (1 - ulp) <= val m e
       <= val m1 e1 * val m2 e2 * (1 + ulp))%R.
Proof.
  intros D1 D2 He. pose proof (digits53 m1 D1) as B1.
  pose proof (digits53 m2 D2) as B2.
  change (2 ^ 52) with 4503599627370496 in B1, B2.
  change (2 ^ 53) with 9007199254740992 in B1, B2.
  unfold SFmul. cbn [xorb].
  assert (Bp : 2 ^ 104 <= Z.pos (m1 * m2) < 2 ^ 106).
  { rewrite Pos2Z.inj_mul.
    change (2 ^ 104) with (4503599627370496 * 4503599627370496).
    change (2 ^ 106) with (9007199254740992 * 9007199254740992). nia. }
  pose proof (digits2_range (m1 * m2) 104 106 ltac:(lia) Bp) as Dp.
  destruct (round_val false (m1 * m2) (e1 + e2) loc_Exact)
    as (m & e & Hres & Hd & Hexp & Hval); try lia.
  exists m, e. split; [exact Hres|]. split; [exact Hd|].
  replace (val m1 e1 * val m2 e2)%R with (val (m1 * m2) (e1 + e2));
    [exact Hval|].
  unfold val. rewrite Pos2Z.inj_mul, mult_IZR, powerRZ2_add. ring.
Qed.

Lemma val_lt_exp (m1 m2 : positive) (e1 e2 : Z) :
  Z.pos (digits2_pos m1) = 53 → Z.pos (digits2_pos m2) = 53 →
  e1 < e2 → (val m1 e1 < val m2 e2)%R.
Proof.
  intros D1 D2 He. pose proof (digits53 m1 D1) as [_ B1].
  pose proof (digits53 m2 D2) as [B2 _].
  change (2 ^ 53) with (2 * 2 ^ 52) in B1.
  apply IZR_lt in B1. apply IZR_le in B2. rewrite mult_IZR in B1.
  unfold val.
  assert (E : powerRZ 2 e2 = (powerRZ 2 (e2 - e1 - 1) * 2 * powerRZ 2 e1)%R).
  { transitivity (powerRZ 2 ((e2 - e1 - 1) + 1 + e1)); [f_equal; lia|].
    rewrite !powerRZ2_add, powerRZ_1. reflexivity. }
  rewrite E. pose proof (powerRZ2_pos e1) as P1.
  assert (P2 : (1 <= powerRZ 2 (e2 - e1 - 1))%R).
  { rewrite <- pow2_IZR by lia. apply IZR_le.
    assert (0 < 2 ^ (e2 - e1 - 1)) by (apply Z.pow_pos_nonneg; lia). lia. }
  assert (T : (0 < IZR (2 ^ 52))%R) by (apply IZR_lt; reflexivity).
  set (a := IZR (Z.pos m1)) in *. set (b := IZR (Z.pos m2)) in *.
  set (t := IZR (2 ^ 52)) in *. set (X := powerRZ 2 e1) in *.
  set (Q := powerRZ 2 (e2 - e1 - 1)) in *.
  assert (H1 : (a * X < 2 * t * X)%R) by (apply Rmult_lt_compat_r; lra).
  assert (H2 : (t * (2 * X) <= b * (2 * X))%R)
    by (apply Rmult_le_compat_r; lra).
  assert (H3 : (1 * (b * 2 * X) <= Q * (b * 2 * X))%R)
    by (apply Rmult_le_compat_r; nra).
  nra.
Qed.

Lemma SFcompare_val (m1 m2 : positive) (e1 e2 : Z) :
  Z.pos (digits2_pos m1) = 53 → Z.pos (digits2_pos m2) = 53 →
  match SFcompare (S754_finite false m1 e1) (S754_finite false m2 e2) with
  | Some Lt => (val m1 e1 < val m2 e2)%R
  | Some Eq => val m1 e1 = val m2 e2
  | Some Gt => (val m2 e2 < val m1 e1)%R
  | None => False
  end.
Proof.
  intros D1 D2. cbn [SFcompare].
  destruct (Z.compare_spec e1 e2) as [->|Hlt|Hgt].
  - change (Pos.compare_cont Eq m1 m2) with (m1 ?= m2)%positive.
    pose proof (powerRZ2_pos e2) as P.
    destruct (Pos.compare_spec m1 m2) as [->|Hm|Hm].
    + reflexivity.
    + unfold val. apply Rmult_lt_compat_r; [exact P|]. apply IZR_lt. lia.
    + unfold val. apply Rmult_lt_compat_r; [exact P|]. apply IZR_lt. lia.
  - now apply val_lt_exp.
  - now apply val_lt_exp.
Qed.

Lemma fval_normal (f : float) (m : positive) (e : Z) :
  Prim2SF f = S754_finite false m e → fval f = val m e.
Proof. intros H. unfold fval. rewrite H. reflexivity. Qed.

Lemma ltb_normal (a b : float) :
  normal a → normal b →
  if (a <? b)%float then (fval a < fval b)%R else (fval b <= fval a)%R.
Proof.
  intros (ma & ea & Ha & Da & _) (mb & eb & Hb & Db & _).
  rewrite ltb_spec, (fval_normal a ma ea Ha), (fval_normal b mb eb Hb).
  rewrite Ha, Hb. unfold SFltb.
  pose proof (SFcompare_val ma mb ea eb Da Db) as H.
  destruct (SFcompare _ _) as [[]|]; lra || contradiction.
Qed.

Lemma py_min_normal (a b : float) :
  normal a → normal b →
  normal (py_min a b) ∧ fval (py_min a b) = Rmin (fval a) (fval b).
Proof.
  intros Ha Hb. pose proof (ltb_normal b a Hb Ha) as H. unfold py_min.
  destruct (b <? a)%float; (split; [assumption|]).
  - rewrite Rmin_right; lra.
  - rewrite Rmin_left; lra.
Qed.

Lemma one_normal : normal 1%float ∧ fval 1%float = 1%R.
Proof.
  split.
  - exists (2 ^ 52)%positive, (-52). repeat split; try reflexivity; lia.
  - rewrite (fval_normal 1%float (2 ^ 52)%positive (-52) eq_refl).
    unfold val. change (Z.pos (2 ^ 52)) with (2 ^ 52).
    rewrite Rmult_comm. apply ulp_eq.
Qed.

Lemma py_float_val (z : Z) :
  0 < z < 2 ^ 53 →
  ∃ m e, Prim2SF (py_float z) = S754_finite false m e
         ∧ Z.pos (digits2_pos m) = 53 ∧ -52 <= e <= 0
         ∧ val m e = IZR z.
Proof.
  intros Hz. destruct (py_float_spec z Hz) as (m & e & H & D & He & Hm).
  exists m, e. repeat split; try assumption; try lia.
  unfold val. rewrite Hm, mult_IZR, pow2_IZR by lia.
  rewrite Rmult_assoc, <- powerRZ2_add.
  replace (- e + e) with 0 by lia. cbn. ring.
Qed.

Lemma float_div_normal (a b : Z) :
  0 < a < 2 ^ 53 → 0 < b < 2 ^ 53 →
  normal (py_float a / py_float b)
  ∧ (IZR a / IZR b * ((1 - ulp) * (1 - ulp))
     <= fval (py_float a / py_float b) <= IZR a / IZR b * (1 + ulp))%R.
Proof.
  intros Ha Hb.
  destruct (py_float_val a Ha) as (ma & ea & Pa & Da & Ea & Va).
  destruct (py_float_val b Hb) as (mb & eb & Pb & Db & Eb & Vb).
  destruct (SFdiv_val ma mb ea eb Da Db ltac:(lia))
    as (m & e & Hdiv & D & He & Hlo & Hhi).
  assert (P : Prim2SF (py_float a / py_float b) = S754_finite false m e).
  { rewrite div_spec, Pa, Pb. exact Hdiv. }
  split.
  - exists m, e. repeat split; try assumption; lia.
  - rewrite (fval_normal _ m e P). rewrite Va, Vb in Hlo, Hhi.
    assert (B0 : (0 < IZR b)%R) by (apply IZR_lt; lia).
    split; apply (Rmult_le_reg_r (IZR b) _ _ B0).
    + replace (IZR a / IZR b * ((1 - ulp) * (1 - ulp)) * IZR b)%R
        with (IZR a * (1 - ulp) * (1 - ulp))%R by (field; lra).
      exact Hlo.
    + replace (IZR a / IZR b * (1 + ulp) * IZR b)%R
        with (IZR a * (1 + ulp))%R by (field; lra).
      exact Hhi.
Qed.

Lemma py_int_mul (w : Z) (s : float) :
  0 < w < 2 ^ 53 → normal s →
  ∃ v, py_int (py_float w * s) = Some v
       ∧ 0 <= v
       ∧ (IZR w * fval s * (1 - ulp) - 1 < IZR v
          <= IZR w * fval s * (1 + ulp))%R.
Proof.
  intros Hw (ms & es & Ps & Ds & Es).
  destruct (py_float_val w Hw) as (mw & ew & Pw & Dw & Ew & Vw).
  destruct (SFmul_val mw ms ew es Dw Ds ltac:(lia))
    as (m & e & Hmul & D & Hlo & Hhi).
  unfold py_int. rewrite mul_spec, Pw, Ps.
  change (SF64mul ?x ?y) with (SFmul prec emax x y). rewrite Hmul.
  rewrite (fval_normal s ms es Ps), <- Vw.
  eexists. split; [reflexivity|].
  assert (Hcut : 0 <= (if 0 <=? e then Z.pos m * 2 ^ e
                       else Z.pos m / 2 ^ (- e))
                 ∧ (val m e - 1
                    < IZR (if 0 <=? e then Z.pos m * 2 ^ e
                           else Z.pos m / 2 ^ (- e)) <= val m e)%R).
  { destruct (Z.leb_spec 0 e) as [Hpos|Hneg].
    - split; [apply Z.mul_nonneg_nonneg; [lia|apply Z.pow_nonneg; lia]|].
      unfold val. rewrite mult_IZR, pow2_IZR by lia. lra.
    - assert (H2 : 0 < 2 ^ (- e)) by (apply Z.pow_pos_nonneg; lia).
      split; [apply Z.div_pos; lia|].
      pose proof (Z.mul_div_le (Z.pos m) (2 ^ (- e)) H2) as Hle.
      assert (Hlt : Z.pos m + 1 <= 2 ^ (- e) * (Z.pos m / 2 ^ (- e) + 1)).
      { pose proof (Z.mod_pos_bound (Z.pos m) (2 ^ (- e)) H2) as Hmod.
        pose proof (Z.div_mod (Z.pos m) (2 ^ (- e)) ltac:(lia)) as Hdm.
        lia. }
      apply IZR_le in Hle, Hlt.
      rewrite mult_IZR, pow2_IZR in Hle by lia.
      rewrite plus_IZR, mult_IZR, plus_IZR, pow2_IZR in Hlt by lia.
      unfold val.
      assert (E : (powerRZ 2 (- e) * powerRZ 2 e = 1)%R)
        by (rewrite <- powerRZ2_add; replace (- e + e) with 0 by lia;
            reflexivity).
      pose proof (powerRZ2_pos e) as P1. pose proof (powerRZ2_pos (- e)) as P2.
      set (q := IZR (Z.pos m / 2 ^ (- e))) in *.
      set (A := powerRZ 2 (- e)) in *. set (B := powerRZ 2 e) in *.
      assert (H3 : (A * q * B <= IZR (Z.pos m) * B)%R)
        by (apply Rmult_le_compat_r; lra).
      assert (H4 : ((IZR (Z.pos m) + 1) * B <= A * (q + 1) * B)%R)
        by (apply Rmult_le_compat_r; lra).
      assert (Eq : q = (A * q * B)%R)
        by (transitivity (q * (A * B))%R; [rewrite E|]; ring).
      assert (Eq1 : (q + 1 = A * (q + 1) * B)%R)
        by (transitivity ((q + 1) * (A * B))%R; [rewrite E|]; ring).
      split; [|rewrite Eq; exact H3].
      assert (IZR (Z.pos m) * B + B <= q + 1)%R; [|lra].
      rewrite Eq1. lra. }
  destruct Hcut as (H0 & H1 & H2). split; [exact H0|]. split; lra.
Qed.

Lemma small_ulp (z : Z) :
  0 < z < 2 ^ 50 → (0 < IZR z)%R ∧ (IZR z * ulp < / 4)%R.
Proof.
  intros [H0 H1]. apply IZR_lt in H0, H1.
  pose proof ulp_num as U. pose proof ulp_pos as U0.
  change (2 ^ 50) with 1125899906842624 in H1.
  split; [exact H0|].
  assert (IZR z * ulp < 1125899906842624 * ulp)%R
    by (apply Rmult_lt_compat_r; assumption).
  lra.
Qed.

Lemma ulp_small : (0 < ulp < / 1000)%R.
Proof. pose proof ulp_num. pose proof ulp_pos. lra. Qed.

Lemma pow50_53 (z : Z) : 0 < z < 2 ^ 50 → 0 < z < 2 ^ 53.
Proof.
  change (2 ^ 50) with 1125899906842624.
  change (2 ^ 53) with 9007199254740992. lia.
Qed.

Lemma ratio_range (bound : option Z) (size : Z) :
  0 < size → pixel_bound bound → (0 < ratio bound size <= 1)%R.
Proof.
  intros Hs Hb. destruct bound as [b|]; cbn [ratio]; [|lra].
  cbn [pixel_bound] in Hb. rewrite Z.gtb_ltb.
  destruct (Z.ltb_spec b size) as [Hlt|_]; [|lra].
  assert (S0 : (0 < IZR size)%R) by (apply IZR_lt; lia).
  assert (B0 : (0 < IZR b)%R) by (apply IZR_lt; lia).
  assert (BS : (IZR b <= IZR size)%R) by (apply IZR_le; lia).
  split.
  - apply Rdiv_lt_0_compat; assumption.
  - apply (Rmult_le_reg_r (IZR size) _ _ S0).
    replace (IZR b / IZR size * IZR size)%R with (IZR b) by (field; lra).
    lra.
Qed.

(** A bound that is exceeded asks for a ratio below one by a margin no
    rounding can close. *)
Lemma ratio_exceeded (bound : option Z) (size : Z) :
  0 < size < 2 ^ 50 → pixel_bound bound → ¬ within bound size →
  (ratio bound size * (1 + ulp) < 1)%R
  ∧ ∀ v, (IZR v <= IZR size * ratio bound size * (1 + 4 * ulp))%R →
         within bound v.
Proof.
  intros Hs Hb Hout. destruct bound as [b|]; cbn [within] in *;
    [|now destruct Hout].
  cbn [ratio pixel_bound] in *. rewrite Z.gtb_ltb.
  destruct (Z.ltb_spec b size) as [Hlt|Hge]; [|lia].
  destruct (small_ulp size Hs) as [S0 S1].
  destruct (small_ulp b Hb) as [B0 B1]. pose proof ulp_small as U.
  assert (BS : (IZR b <= IZR size - 1)%R)
    by (rewrite <- minus_IZR; apply IZR_le; lia).
  split.
  - apply (Rmult_lt_reg_r (IZR size) _ _ S0).
    replace (IZR b / IZR size * (1 + ulp) * IZR size)%R
      with (IZR b * (1 + ulp))%R by (field; lra).
    assert (IZR b * (1 + ulp) <= (IZR size - 1) * (1 + ulp))%R
      by (apply Rmult_le_compat_r; lra).
    lra.
  - intros v Hv.
    replace (IZR size * (IZR b / IZR size) * (1 + 4 * ulp))%R
      with (IZR b * (1 + 4 * ulp))%R in Hv by (field; lra).
    apply Z.lt_succ_r, lt_IZR. rewrite succ_IZR. lra.
Qed.

(** One guarded update of [scale]. *)
Lemma scale_for_spec (bound : option Z) (size : Z) (scale : float) :
  normal scale → 0 < size < 2 ^ 50 → pixel_bound bound →
  ∃ s, scale_for bound size scale = Some s
       ∧ normal s
       ∧ (Rmin (fval scale) (ratio bound size * ((1 - ulp) * (1 - ulp)))
          <= fval s)%R
       ∧ (fval s <= fval scale)%R
       ∧ (¬ within bound size → fval s <= ratio bound size * (1 + ulp))%R
       ∧ (within bound size → s = scale).
Proof.
  intros Hn Hs Hb. destruct bound as [b|]; cbn [scale_for ratio within].
  - cbn [pixel_bound] in Hb. rewrite Z.gtb_ltb.
    destruct (Z.ltb_spec b size) as [Hgt|Hle].
    + unfold py_truediv. destruct (Z.eqb_spec size 0) as [|_]; [lia|].
      destruct (float_div_normal b size (pow50_53 b Hb) (pow50_53 size Hs))
        as (Hr & Hlo & Hhi).
      destruct (py_min_normal scale _ Hn Hr) as (Hm & Hv).
      eexists. split; [reflexivity|]. split; [exact Hm|]. rewrite Hv.
      split; [|split; [apply Rmin_l|split; [|lia]]].
      * apply Rle_min_compat_l. exact Hlo.
      * intros _. eapply Rle_trans; [apply Rmin_r|exact Hhi].
    + exists scale. split; [reflexivity|]. split; [exact Hn|].
      split; [apply Rmin_l|]. split; [lra|]. split; [lia|reflexivity].
  - exists scale. split; [reflexivity|]. split; [exact Hn|].
    split; [apply Rmin_l|]. split; [lra|].
    split; [intros H; now destruct H|reflexivity].
Qed.

(** Both updates: the scale is the ideal one up to the roundings of the
    divisions. *)
Lemma scale_close (self : Plugin) (width height : Z) :
  0 < width < 2 ^ 50 → 0 < height < 2 ^ 50 →
  pixel_bound (image_max_width (config self)) →
  pixel_bound (image_max_height (config self)) →
  ∃ s1 s2,
    scale_for (image_max_width (config self)) width 1%float = Some s1
    ∧ scale_for (image_max_height (config self)) height s1 = Some s2
    ∧ normal s2
    ∧ (ideal_scale self width height * ((1 - ulp) * (1 - ulp)) <= fval s2
       <= ideal_scale self width height * (1 + ulp))%R
    ∧ (fval s2 <= 1)%R
    ∧ (within (image_max_width (config self)) width
       ∧ within (image_max_height (config self)) height → fval s2 = 1%R)
    ∧ ((1 <= fval s2)%R →
       within (image_max_width (config self)) width
       ∧ within (image_max_height (config self)) height).
Proof.
  intros Hw Hh HW HH. unfold ideal_scale.
  set (max_width := image_max_width (config self)) in *.
  set (max_height := image_max_height (config self)) in *.
  destruct one_normal as [N1 V1].
  destruct (scale_for_spec max_width width 1%float N1 Hw HW)
    as (s1 & E1 & Hn1 & Hlo1 & Hle1 & Hhi1 & Hsame1).
  destruct (scale_for_spec max_height height s1 Hn1 Hh HH)
    as (s2 & E2 & Hn2 & Hlo2 & Hle2 & Hhi2 & Hsame2).
  rewrite V1 in *.
  destruct (ratio_range max_width width ltac:(lia) HW) as [Rw0 Rw1].
  destruct (ratio_range max_height height ltac:(lia) HH) as [Rh0 Rh1].
  pose proof ulp_small as U.
  set (rw := ratio max_width width) in *.
  set (rh := ratio max_height height) in *.
  set (c := ((1 - ulp) * (1 - ulp))%R) in *.
  assert (Hc : (0 < c <= 1)%R) by (subst c; nra).
  exists s1, s2. split; [exact E1|]. split; [exact E2|].
  split; [exact Hn2|]. split; [split|split; [lra|split]].
  - eapply Rle_trans; [|exact Hlo2].
    apply Rmin_glb.
    + eapply Rle_trans; [|exact Hlo1]. apply Rmin_glb.
      * assert (Rmin 1 (Rmin rw rh) <= 1)%R by apply Rmin_l. nra.
      * assert (Rmin 1 (Rmin rw rh) <= rw)%R
          by (eapply Rle_trans; [apply Rmin_r|apply Rmin_l]).
        apply Rmult_le_compat_r; lra.
    + assert (Rmin 1 (Rmin rw rh) <= rh)%R
        by (eapply Rle_trans; [apply Rmin_r|apply Rmin_r]).
      apply Rmult_le_compat_r; lra.
  - assert (Hcases : Rmin 1 (Rmin rw rh) = 1%R
                     ∨ (Rmin 1 (Rmin rw rh) = rw ∧ (rw < 1)%R)
                     ∨ (Rmin 1 (Rmin rw rh) = rh ∧ (rh < 1)%R)).
    { unfold Rmin. repeat destruct (Rle_dec _ _); try lra; auto. }
    destruct Hcases as [->|[[-> Hlt]|[-> Hlt]]].
    + lra.
    + assert (Hout : ¬ within max_width width).
      { intros Hin. subst rw.
        destruct max_width as [b|]; cbn [ratio within] in *; [|lra].
        rewrite Z.gtb_ltb in Hlt.
        destruct (Z.ltb_spec b width); [lia|lra]. }
      specialize (Hhi1 Hout). lra.
    + assert (Hout : ¬ within max_height height).
      { intros Hin. subst rh.
        destruct max_height as [b|]; cbn [ratio within] in *; [|lra].
        rewrite Z.gtb_ltb in Hlt.
        destruct (Z.ltb_spec b height); [lia|lra]. }
      specialize (Hhi2 Hout). lra.
  - intros [Iw Ih]. rewrite (Hsame2 Ih), (Hsame1 Iw). exact V1.
  - intros H1. split.
    + destruct max_width as [b|] eqn:Eb; [|exact I]. cbn [within].
      destruct (Z_le_gt_dec width b) as [|Hgt]; [assumption|exfalso].
      assert (Hout : ¬ within (Some b) width) by (cbn [within]; lia).
      destruct (ratio_exceeded (Some b) width Hw HW Hout) as [Hr _].
      specialize (Hhi1 Hout). fold rw in Hr. lra.
    + destruct max_height as [b|] eqn:Eb; [|exact I]. cbn [within].
      destruct (Z_le_gt_dec height b) as [|Hgt]; [assumption|exfalso].
      assert (Hout : ¬ within (Some b) height) by (cbn [within]; lia).
      destruct (ratio_exceeded (Some b) height Hh HH Hout) as [Hr _].
      specialize (Hhi2 Hout). fold rh in Hr. lra.
Qed.

(** The size computed from a scale that is below one and close to an
    ideal scale [S]. *)
Lemma py_int_scaled (size : Z) (s : float) (S : R) :
  0 < size < 2 ^ 50 → normal s → (fval s < 1)%R → (0 < S <= 1)%R →
  (S * ((1 - ulp) * (1 - ulp)) <= fval s <= S * (1 + ulp))%R →
  ∃ v, py_int (py_float size * s) = Some v
       ∧ 0 <= v <= size ∧ scaled size S v.
Proof.
  intros Hs Hn Hlt HS [Hlo Hhi].
  destruct (py_int_mul size s (pow50_53 size Hs) Hn)
    as (v & Hv & H0 & Hvlo & Hvhi).
  destruct (small_ulp size Hs) as [S0 S1]. pose proof ulp_small as U.
  exists v. split; [exact Hv|]. split; [split; [exact H0|]|split].
  - apply Z.lt_succ_r, lt_IZR. rewrite succ_IZR.
    assert (IZR size * fval s <= IZR size * 1)%R
      by (apply Rmult_le_compat_l; lra).
    assert (IZR size * fval s * (1 + ulp) <= IZR size * 1 * (1 + ulp))%R
      by (apply Rmult_le_compat_r; lra).
    lra.
  - eapply Rle_lt_trans; [|exact Hvlo].
    assert (H1 : (IZR size * (S * ((1 - ulp) * (1 - ulp)))
                  <= IZR size * fval s)%R)
      by (apply Rmult_le_compat_l; lra).
    assert (H2 : (IZR size * (S * ((1 - ulp) * (1 - ulp))) * (1 - ulp)
                  <= IZR size * fval s * (1 - ulp))%R)
      by (apply Rmult_le_compat_r; lra).
    assert (H3 : (0 <= IZR size * S)%R) by (apply Rmult_le_pos; lra).
    assert (H4 : (1 - 4 * ulp <= (1 - ulp) * (1 - ulp) * (1 - ulp))%R)
      by nra.
    assert (H5 : (IZR size * S * (1 - 4 * ulp)
                  <= IZR size * S * ((1 - ulp) * (1 - ulp) * (1 - ulp)))%R)
      by (apply Rmult_le_compat_l; lra).
    lra.
  - eapply Rle_trans; [exact Hvhi|].
    assert (H1 : (IZR size * fval s <= IZR size * (S * (1 + ulp)))%R)
      by (apply Rmult_le_compat_l; lra).
    assert (H2 : (IZR size * fval s * (1 + ulp)
                  <= IZR size * (S * (1 + ulp)) * (1 + ulp))%R)
      by (apply Rmult_le_compat_r; lra).
    assert (H3 : (0 <= IZR size * S)%R) by (apply Rmult_le_pos; lra).
    assert (H4 : ((1 + ulp) * (1 + ulp) <= 1 + 4 * ulp)%R) by nra.
    assert (H5 : (IZR size * S * ((1 + ulp) * (1 + ulp))
                  <= IZR size * S * (1 + 4 * ulp))%R)
      by (apply Rmult_le_compat_l; lra).
    lra.
Qed.

(** A size scaled by the ideal scale fits a configured bound. *)
Lemma scaled_within (bound : option Z) (S : R) (size v : Z) :
  0 < size < 2 ^ 50 → pixel_bound bound →
  (0 < S <= ratio bound size)%R → v <= size → scaled size S v →
  within bound v.
Proof.
  intros Hs Hb HS Hv [_ Hhi].
  destruct bound as [b|] eqn:Eb; [|exact I].
  destruct (Z_le_gt_dec size b) as [Hin|Hout]; [cbn [within]; lia|].
  rewrite <- Eb in *.
  assert (Hout' : ¬ within bound size) by (rewrite Eb; cbn [within]; lia).
  destruct (ratio_exceeded bound size Hs Hb Hout') as [_ Hfit].
  apply Hfit. eapply Rle_trans; [exact Hhi|].
  destruct (small_ulp size Hs) as [S0 _]. pose proof ulp_small as U.
  apply Rmult_le_compat_r; [lra|]. apply Rmult_le_compat_l; lra.
Qed.

(** C7: for an image of [width] by [height] pixels and configured
    bounds that are positive pixel counts (all below [2^50]), the
    resizing block of [_compress_image] never raises.  It leaves the
    size alone exactly when the image is within every configured bound.
    Otherwise it asks for the size [(int(width * s), int(height * s))]
    of one scale [s], the minimum of 1 and the ratios [bound / size] of
    the exceeded bounds up to the rounding of the doubles; that size
    exceeds neither a configured bound nor the image's own width and
    height.  A 4000 by 2000 image with [image_max_width: 1000] and no
    maximal height is resized to exactly 1000 by 500. *)
Theorem resize_within_bounds (self : Plugin) (width height : Z) :
  0 < width < 2 ^ 50 → 0 < height < 2 ^ 50 →
  pixel_bound (image_max_width (config self)) →
  pixel_bound (image_max_height (config self)) →
  match new_size self width height with
  | KeepSize =>
      within (image_max_width (config self)) width
      ∧ within (image_max_height (config self)) height
  | NewSize w h =>
      ¬ (within (image_max_width (config self)) width
         ∧ within (image_max_height (config self)) height)
      ∧ scaled width (ideal_scale self width height) w
      ∧ scaled height (ideal_scale self width height) h
      ∧ 0 <= w <= width ∧ 0 <= h <= height
      ∧ within (image_max_width (config self)) w
      ∧ within (image_max_height (config self)) h
  | SizeRaises => False
  end
  ∧ new_size thumbnail_plugin 4000 2000 = NewSize 1000 500.
Proof.
  intros Hw Hh HW HH. split; [|vm_compute; reflexivity].
  destruct (scale_close self width height Hw Hh HW HH)
    as (s1 & s2 & E1 & E2 & Hn2 & Hclose & Hle & Hin & Hfull).
  pose proof (ratio_range _ width ltac:(lia) HW) as Rw.
  pose proof (ratio_range _ height ltac:(lia) HH) as Rh.
  assert (HS : (0 < ideal_scale self width height <= 1)%R).
  { unfold ideal_scale. split; [|apply Rmin_l].
    repeat apply Rmin_glb_lt; lra. }
  assert (HSw : (ideal_scale self width height
                 <= ratio (image_max_width (config self)) width)%R)
    by (unfold ideal_scale; eapply Rle_trans; [apply Rmin_r|apply Rmin_l]).
  assert (HSh : (ideal_scale self width height
                 <= ratio (image_max_height (config self)) height)%R)
    by (unfold ideal_scale; eapply Rle_trans; [apply Rmin_r|apply Rmin_r]).
  unfold new_size.
  set (max_width := image_max_width (config self)) in *.
  set (max_height := image_max_height (config self)) in *.
  destruct one_normal as [N1 V1].
  assert (Hgoal :
    match
      (if (s2 <? 1)%float then
         match py_int (py_float width * s2), py_int (py_float height * s2) with
         | Some w, Some h => NewSize w h
         | _, _ => SizeRaises
         end
       else KeepSize)
    with
    | KeepSize => within max_width width ∧ within max_height height
    | NewSize w h =>
        ¬ (within max_width width ∧ within max_height height)
        ∧ scaled width (ideal_scale self width height) w
        ∧ scaled height (ideal_scale self width height) h
        ∧ 0 <= w <= width ∧ 0 <= h <= height
        ∧ within max_width w ∧ within max_height h
    | SizeRaises => False
    end).
  { pose proof (ltb_normal s2 1%float Hn2 N1) as Hcmp. rewrite V1 in Hcmp.
    destruct (s2 <? 1)%float.
    - destruct (py_int_scaled width s2 _ Hw Hn2 Hcmp HS Hclose)
        as (w & -> & Bw & Sw).
      destruct (py_int_scaled height s2 _ Hh Hn2 Hcmp HS Hclose)
        as (h & -> & Bh & Sh).
      split; [|split; [exact Sw|split; [exact Sh|
               split; [exact Bw|split; [exact Bh|split]]]]].
      + intros Hboth. rewrite (Hin Hboth) in Hcmp. lra.
      + apply (scaled_within max_width (ideal_scale self width height) width);
          try assumption; [lra|lia].
      + apply (scaled_within max_height (ideal_scale self width height) height);
          try assumption; [lra|lia].
    - apply Hfull. exact Hcmp. }
  rewrite E1, E2.
  destruct max_width as [bw|], max_height as [bh|]; try exact Hgoal.
  split; exact I.
Qed.

(** ** Examples: witnesses and counterexamples *)

Lemma bad_png_backend_fails :
  backend_fails demo_plugin bad_png fresh_world
    (file_digest bad_content).
Proof. apply image_backend_fails; reflexivity. Defined.



Lemma failed_backend_keeps_original_witness :
  fs (after (_process_media_file demo_plugin bad_png)
        fresh_world) !! bad_png
  = Some bad_content.
Proof.
  refine (proj1 (proj2
            (failed_backend_keeps_original demo_plugin bad_png
               fresh_world (file_digest bad_content) _ _))).
  - apply image_backend_fails; reflexivity.
  - discriminate.
Defined.

(** Against C6 as stated: pruning [orphan_world] removes one entry and
    returns [None], not the number 1. *)
Lemma prune_returns_none :
  (size (cache orphan_world)
   - size (cache (after (_clean_orphaned_cache demo_plugin) orphan_world))
   = 1)%nat
  ∧ outcome (_clean_orphaned_cache demo_plugin) orphan_world = Ok PyNone
  ∧ outcome (_clean_orphaned_cache demo_plugin) orphan_world ≠ Ok (JInt 1).
Proof.
  split; [reflexivity|]. split; [reflexivity|].
  intros Hret. vm_compute in Hret. discriminate.
Qed.

Lemma prune_orphans_witness :
  cache (after (_clean_orphaned_cache demo_plugin) orphan_world)
  !! pic_digest = None.
Proof.
  refine (eq_trans (proj1 (proj2 (proj2
            (prune_orphans demo_plugin orphan_world _)))
            pic_digest) _).
  - intros h e Hh. unfold orphan_world in Hh. cbn [cache] in Hh.
    apply lookup_singleton_Some in Hh as [_ <-].
    eexists. reflexivity.
  - reflexivity.
Defined.


Lemma skip_flags_witness :
  _process_media_file skip_videos_plugin clip_mp4 fresh_world
  = (Ok false, fresh_world, [])
  ∧ (∃ final,
       outcome (collect_results skip_videos_plugin
                  [bad_png; pic_png; clip_mp4]
                  {| processed := 0; skipped := 0; errors := 0 |}) fresh_world
       = Ok final
       ∧ (1 ≤ skipped final)%nat)
  ∧ Forall (λ e, ¬ transcoder_event e)
      (trace (on_post_build skip_videos_plugin
                [bad_png; pic_png; clip_mp4]) fresh_world).
Proof.
  destruct (proj1 (skip_flags skip_videos_plugin
                     [bad_png; pic_png; clip_mp4] fresh_world) eq_refl)
    as (Htask & Hcount & Hrun).
  split; [|split; [|exact Hrun]].
  - exact (proj1 (Htask clip_mp4 []
                    {| processed := 0; skipped := 0; errors := 0 |}
                    fresh_world eq_refl)).
  - destruct (Hcount {| processed := 0; skipped := 0; errors := 0 |}
                fresh_world) as (final & Hfinal & Hn).
    exists final. split; [exact Hfinal|exact Hn].
Defined.

Lemma inserted_entries_keyed_witness :
  keyed_on (suffix_among [bad_png; pic_png; clip_mp4])
    (inserted (trace (on_post_build demo_plugin
                        [bad_png; pic_png; clip_mp4]) fresh_world))
    (cache (after (on_post_build demo_plugin
                     [bad_png; pic_png; clip_mp4]) fresh_world)).
Proof.
  exact (proj2 (proj2 (proj2 (proj2
           (inserted_entries_keyed demo_plugin
              [bad_png; pic_png; clip_mp4] fresh_world ∅))))).
Defined.

Lemma resize_within_bounds_witness :
  match new_size thumbnail_plugin 4001 3000 with
  | NewSize w h => 0 <= w <= 1000 ∧ 0 <= h <= 3000
  | _ => False
  end.
Proof.
  pose proof (resize_within_bounds thumbnail_plugin 4001 3000
                ltac:(split; reflexivity) ltac:(split; reflexivity)
                ltac:(split; reflexivity) I) as H.
  set (plan := new_size thumbnail_plugin 4001 3000) in *. clearbody plan.
  destruct H as [H _].
  destruct plan as [|w h|];
    cbn [within thumbnail_plugin image_max_width config] in H.
  - destruct H as [H _]. lia.
  - destruct H as (_ & _ & _ & Hw & Hh & Hb & _). lia.
  - exact H.
Defined.

Lemma cache_hit_replaces_file_witness :
  outcome (_process_media_file demo_plugin pic_png) warm_world = Ok false
  ∧ fs (after (_process_media_file demo_plugin pic_png) warm_world) !! pic_png
    = Some (every_other pic_content).
Proof.
  pose proof (cache_hit_replaces_file demo_plugin pic_png warm_world
                pic_content (every_other pic_content)
                (new_entry (pic_digest +:+ ".PNG") pic_digest)
                (pic_digest +:+ ".PNG")
                (conj eq_refl eq_refl) eq_refl eq_refl eq_refl eq_refl
                ltac:(discriminate)) as [Hout Hafter].
  split; [exact Hout|]. rewrite Hafter. apply lookup_insert_eq.
Defined.

Lemma fresh_cache_misses (self : Plugin) (h : string) :
  cache_miss self fresh_world h.
Proof.
  intros entry Hentry.
  change (cache fresh_world) with (∅ : gmap string json) in Hentry.
  now rewrite lookup_empty in Hentry.
Defined.

Lemma page_cache_misses (self : Plugin) (h : string) :
  cache_miss self page_world h.
Proof.
  intros entry Hentry.
  change (cache page_world) with (∅ : gmap string json) in Hentry.
  now rewrite lookup_empty in Hentry.
Defined.

Lemma image_compressed_and_cached_witness :
  outcome (_process_media_file demo_plugin pic_png) fresh_world = Ok true
  ∧ cache (after (_process_media_file demo_plugin pic_png) fresh_world)
    !! pic_digest
    = Some (new_entry (pic_digest +:+ ".PNG") pic_digest)
  ∧ fs (after (_process_media_file demo_plugin pic_png) fresh_world)
    !! pic_png
    = Some (every_other pic_content).
Proof.
  pose proof (image_compressed_and_cached demo_plugin pic_png fresh_world
                pic_content (every_other pic_content)
                eq_refl eq_refl eq_refl ltac:(discriminate)
                (fresh_cache_misses _ _) ltac:(discriminate) eq_refl)
    as [Hout Hafter].
  split; [exact Hout|]. rewrite Hafter. cbn [cache fs].
  split; apply lookup_insert_eq.
Defined.

Lemma video_compressed_and_cached_witness :
  outcome (_process_media_file demo_plugin movie_webm) page_world = Ok true
  ∧ fs (after (_process_media_file demo_plugin movie_webm) page_world)
    !! movie_webm
    = Some [x1a; x45]%byte.
Proof.
  pose proof (video_compressed_and_cached demo_plugin movie_webm page_world
                movie_content [x1a; x45]%byte
                eq_refl eq_refl eq_refl ltac:(discriminate)
                (page_cache_misses _ _) ltac:(discriminate) eq_refl
                ltac:(vm_compute; reflexivity))
    as [Hout Hafter].
  split; [exact Hout|]. rewrite Hafter. cbn [fs]. apply lookup_insert_eq.
Defined.

Lemma pic_png_processed :
  outcome (_process_media_file demo_plugin pic_png) fresh_world = Ok true.
Proof. vm_compute. reflexivity. Defined.

Lemma pic_png_not_artifact :
  pic_png ≠ artifact_path demo_plugin pic_png (file_digest pic_content).
Proof. discriminate. Defined.

Lemma processed_file_hits_later_witness :
  ∃ out,
    fs (after (_process_media_file demo_plugin pic_png) fresh_world) !! pic_png
    = Some out
    ∧ outcome (_process_media_file demo_plugin pic_png)
        (set_fs
           (<[pic_png := pic_content]>
              (fs (after (_process_media_file demo_plugin pic_png)
                     fresh_world)))
           (after (_process_media_file demo_plugin pic_png) fresh_world))
      = Ok false.
Proof.
  pose proof (processed_file_hits_later demo_plugin pic_png pic_png fresh_world
                pic_content eq_refl pic_png_processed
                (conj eq_refl eq_refl) pic_png_not_artifact) as H.
  cbv zeta in H.
  set (w1 := after (_process_media_file demo_plugin pic_png) fresh_world) in *.
  clearbody w1.
  destruct H as (out & Hout & _ & _ & Hrun).
  exists out. split; [exact Hout|]. unfold outcome. rewrite Hrun. reflexivity.
Defined.

Lemma missing_file_is_an_error_witness :
  _process_media_file demo_plugin gone_png fresh_world
  = (Raised, fresh_world, [EvOpenRead gone_png])
  ∧ outcome (collect_results demo_plugin [gone_png] no_counts) fresh_world
    = Ok {| processed := 0; skipped := 0; errors := 1 |}.
Proof.
  pose proof (missing_file_is_an_error demo_plugin gone_png [] no_counts
                fresh_world (conj eq_refl eq_refl) eq_refl) as Hrun.
  cbv zeta in Hrun. destruct Hrun as (Htask & _ & Hcount).
  split; [exact Htask|exact Hcount].
Defined.

Lemma empty_file_is_never_cached_witness :
  outcome (_process_media_file demo_plugin blank_gif) page_world = Ok false
  ∧ cache (after (_process_media_file demo_plugin blank_gif) page_world) = ∅.
Proof.
  destruct (empty_file_is_never_cached demo_plugin blank_gif page_world
              eq_refl ltac:(discriminate) (page_cache_misses _ _))
    as (Hout & Hcache & _).
  split; [exact Hout|exact Hcache].
Defined.

Lemma fresh_well_formed : well_formed fresh_world.
Proof.
  intros h e He. change (cache fresh_world) with (∅ : gmap string json) in He.
  now rewrite lookup_empty in He.
Defined.



Lemma malformed_entry_stops_run_witness :
  outcome (on_post_build demo_plugin [pic_png]) broken_world = Raised
  ∧ after (on_post_build demo_plugin [pic_png]) broken_world = broken_world.
Proof.
  destruct (malformed_entry_stops_run demo_plugin [pic_png] broken_world
              "7" (JObj ∅) eq_refl eq_refl ltac:(discriminate))
    as (_ & _ & Hout & Hafter & _).
  split; [exact Hout|exact Hafter].
Defined.

Lemma orphan_well_formed : well_formed orphan_world.
Proof.
  intros h e He. unfold orphan_world in He. cbn [cache] in He.
  apply lookup_singleton_Some in He as [_ <-]. now eexists.
Defined.

Lemma prune_twice_witness :
  after (_clean_orphaned_cache demo_plugin)
    (after (_clean_orphaned_cache demo_plugin) orphan_world)
  = after (_clean_orphaned_cache demo_plugin) orphan_world.
Proof.
  exact (proj1 (proj2 (prune_twice demo_plugin orphan_world
                         orphan_well_formed))).
Defined.

Lemma run_touches_only_media_and_cache_witness :
  fs (after (on_post_build demo_plugin [movie_webm; blank_gif; pic_png])
        page_world) !! index_html
  = Some page_content.
Proof.
  rewrite (run_touches_only_media_and_cache demo_plugin
             [movie_webm; blank_gif; pic_png] page_world index_html).
  - reflexivity.
  - intros Hin. repeat (apply elem_of_cons in Hin as [Hin|Hin];
                        [discriminate|]).
    now apply elem_of_nil in Hin.
  - discriminate.
Defined.

Lemma no_orphans_after_run_witness :
  no_orphans demo_plugin
    (after (on_post_build demo_plugin [bad_png; pic_png; clip_mp4])
       fresh_world).
Proof.
  exact (no_orphans_after_run demo_plugin [bad_png; pic_png; clip_mp4]
           fresh_world ltac:(discriminate) fresh_well_formed).
Defined.

Lemma older_settings_differ :
  py_eq (JObj older_settings) (JObj (_get_current_config demo_config))
  = false.
Proof. vm_compute. reflexivity. Defined.

Lemma older_settings_same_keys :
  dom older_settings = dom (_get_current_config demo_config).
Proof.
  apply dom_insert_lookup_L. exists (JInt 85). vm_compute. reflexivity.
Defined.

Lemma config_change_is_explained_witness :
  ∃ diffs,
    _load_cache demo_config
      (DirReady (Parsed (JObj {[ "config" := JObj older_settings ]})))
    = Ok (empty_dict, LogConfigChanged :: LogConfigDiffs :: diffs)
    ∧ diffs ≠ [].
Proof.
  destruct (config_change_is_explained demo_config
              {[ "config" := JObj older_settings ]} older_settings
              (lookup_singleton_eq _ _) older_settings_differ)
    as (diffs & Hload & _ & Hne).
  exists diffs. split; [exact Hload|]. apply Hne.
  exact older_settings_same_keys.
Defined.

Lemma partial_disk_file :
  file_at partial_disk settings_json = Parsed (JObj partial_settings).
Proof. unfold file_at, partial_disk. now rewrite lookup_singleton_eq. Defined.

Lemma settings_file_gets_missing_defaults_witness :
  ∃ disk',
    file_at disk' settings_json
    = Parsed (JObj (partial_settings ∪ _get_current_config demo_config))
    ∧ disk' !! snapshot_json = partial_disk !! snapshot_json.
Proof.
  destruct (settings_file_gets_missing_defaults writable demo_paths
              demo_config settings_json partial_disk partial_settings
              eq_refl partial_disk_file eq_refl)
    as (disk' & _ & Hfile & Hother & _).
  exists disk'. split; [exact Hfile|]. apply Hother. discriminate.
Defined.

Lemma settings_file_settles_witness :
  ∃ disk' msgs j,
    _load_or_create_config writable demo_paths demo_config ∅
    = (Ok (), disk', msgs)
    ∧ file_at disk' settings_json = Parsed j
    ∧ _load_or_create_config writable demo_paths demo_config disk'
      = (Ok (), disk', []).
Proof.
  destruct (settings_file_settles writable demo_paths demo_config
              settings_json ∅ eq_refl (λ _, eq_refl))
    as (disk' & msgs & j & Hrun & _ & Hfile & _ & Hagain).
  exists disk', msgs, j. split; [exact Hrun|]. split; assumption.
Defined.

Lemma demo_paths_differ : config_file demo_paths ≠ Some snapshot_json.
Proof. discriminate. Defined.

Lemma demo_same_settings : same_settings demo_config demo_config.
Proof. repeat split. Defined.

Lemma snapshot_file_detects_changes_witness :
  ∃ disk' saved,
    _save_cached_config writable demo_paths demo_config ∅
    = (Ok (), disk', saved)
    ∧ _config_changed demo_paths demo_config disk' = (Ok false, disk', []).
Proof.
  destruct (snapshot_file_detects_changes writable demo_paths demo_config
              demo_config snapshot_json ∅ eq_refl demo_paths_differ eq_refl)
    as (_ & disk' & saved & changed & lines & Hsave & Hrun & Hc & Hl & _).
  exists disk', saved. split; [exact Hsave|].
  rewrite Hrun.
  rewrite (proj2 Hc demo_same_settings), (proj2 Hl demo_same_settings).
  reflexivity.
Defined.
